(** * YukkiMusic: the thumbnail pipeline of [internal/utils/gen_thumb.go]

    A shallow embedding of the second Go file of [gen_thumb.go]
    ([ProcessThumbnail], [downloadImage], [loadFont], [addOverlay],
    [wrapText], [saveImage], [generateOutputPath],
    [FormatDurationForThumbnail]) and the properties the specification
    states about them; then of [CleanupOldThumbnails] and of the [GenThumb]
    of the first file, with properties read off the code.

    Conventions of the embedding.
    - A Go [string] is a sequence of bytes: Rocq's [string].
    - A Go [int]/[uint] is a [Z]/[N]; no operation of the embedded code can
      overflow 64 bits on the values it is given.
    - A [float64] that holds a size, a position or a bound is the rational
      it stands for ([Q]): the sums, differences and comparisons made of
      them are exact on every picture that fits in memory.  The operations
      whose rounding reaches a result that is a whole number, the quotient
      and the product behind the alpha of a gradient row and the divisions of
      [resize.Resize], are done in binary64, with the floats of Rocq's kernel
      ([PrimFloat], IEEE 754 binary64, round to nearest, ties to even).
    - The outside world (clock, network, file system, fonts) is a record
      of oracles [Env] and a state [World] threaded through the code;
      a computation is a function [World -> option (A * World)], where
      [None] stands for a loop that ran out of its iteration budget. *)

From Stdlib Require Import ZArith NArith QArith Qround String Ascii List Lia.
From Stdlib Require Import DecimalString DecimalN DecimalPos.
From Stdlib Require PrimFloat FloatOps SpecFloat Uint63.
From stdpp Require Import base option gmap strings list.

Local Open Scope string_scope.
Local Open Scope list_scope.
Local Open Scope Z_scope.

#[local] Arguments String.append : simpl nomatch.

(* ===================================================================== *)
(** ** Go's [strings] package *)
(* ===================================================================== *)

(** The byte [c] as a number. *)
Definition byte (c : ascii) : N := N_of_ascii c.

(** [asciiSpace] of [strings.go]: tab, newline, vertical tab, form feed,
    carriage return, space. *)
Definition asciiSpace (b : N) : bool :=
  ((9 <=? b) && (b <=? 13) || (b =? 32))%N.

(** [unicode.IsSpace] on the two-byte UTF-8 encodings: U+0085 (C2 85) and
    U+00A0 (C2 A0). *)
Definition space2 (b1 b2 : N) : bool :=
  ((b1 =? 194) && ((b2 =? 133) || (b2 =? 160)))%N.

(** [unicode.IsSpace] on the three-byte UTF-8 encodings: U+1680 (E1 9A 80),
    U+2000..U+200A (E2 80 80..8A), U+2028, U+2029 (E2 80 A8, A9),
    U+202F (E2 80 AF), U+205F (E2 81 9F), U+3000 (E3 80 80). *)
Definition space3 (b1 b2 b3 : N) : bool :=
  (((b1 =? 225) && (b2 =? 154) && (b3 =? 128))
   || ((b1 =? 226) && (b2 =? 128)
       && (((128 <=? b3) && (b3 <=? 138)) || (b3 =? 168) || (b3 =? 169) || (b3 =? 175)))
   || ((b1 =? 226) && (b2 =? 129) && (b3 =? 159))
   || ((b1 =? 227) && (b2 =? 128) && (b3 =? 128)))%N.

(** The width in bytes of the white-space rune [s] starts with, [0] when it
    starts with none.  Every lead byte of a string is a position where Go's
    UTF-8 decoder starts a rune (a rune's tail bytes are in 80..BF, the
    patterns start with a byte below 80 or a lead byte), so reading the
    patterns off the bytes agrees with decoding runes first. *)
Definition spaceWidth (s : string) : nat :=
  match s with
  | EmptyString => 0%nat
  | String c1 r1 =>
      if (byte c1 <? 128)%N then (if asciiSpace (byte c1) then 1%nat else 0%nat)
      else
        match r1 with
        | EmptyString => 0%nat
        | String c2 r2 =>
            if space2 (byte c1) (byte c2) then 2%nat
            else
              match r2 with
              | EmptyString => 0%nat
              | String c3 _ =>
                  if space3 (byte c1) (byte c2) (byte c3) then 3%nat else 0%nat
              end
        end
  end.

(** A field that has been scanned is kept when it is not empty
    ([start >= 0] in [FieldsFunc]). *)
Definition flush (w : string) (l : list string) : list string :=
  match w with EmptyString => l | _ => w :: l end.

(** The scan of [strings.Fields]: [skip] bytes of a white-space rune are
    still to be passed over; the result is the field that starts at the head
    of [s] (empty when [s] starts with white space) and the fields after
    it. *)
Fixpoint scanFields (skip : nat) (s : string) : string * list string :=
  match s with
  | EmptyString => (EmptyString, [])
  | String c s' =>
      match skip with
      | S k => let '(w, l) := scanFields k s' in (EmptyString, flush w l)
      | O =>
          match spaceWidth s with
          | O => let '(w, l) := scanFields 0 s' in (String c w, l)
          | S k => let '(w, l) := scanFields k s' in (EmptyString, flush w l)
          end
      end
  end.

(** [strings.Fields]: the maximal runs of bytes between white space. *)
Definition strings_Fields (s : string) : list string :=
  let '(w, l) := scanFields 0 s in flush w l.

(** [strings.Join]. *)
Fixpoint strings_Join (elems : list string) (sep : string) : string :=
  match elems with
  | [] => EmptyString
  | [e] => e
  | e :: rest => e +:+ sep +:+ strings_Join rest sep
  end.

(** [strings.HasPrefix] and [strings.HasSuffix]. *)
Fixpoint strings_HasPrefix (s prefix : string) : bool :=
  match prefix, s with
  | EmptyString, _ => true
  | String p prefix', String c s' => (Ascii.eqb c p) && strings_HasPrefix s' prefix'
  | String _ _, EmptyString => false
  end.

(** [s[n:]]. *)
Fixpoint dropBytes (n : nat) (s : string) : string :=
  match n, s with
  | O, _ => s
  | S n', String _ s' => dropBytes n' s'
  | S _, EmptyString => EmptyString
  end.

Definition strings_HasSuffix (s suffix : string) : bool :=
  (String.length suffix <=? String.length s)%nat
  && String.eqb (dropBytes (String.length s - String.length suffix) s) suffix.

(** [strings.ToLower] on the bytes 'A'..'Z'; the only use is the test for
    the suffix [.png], which no other rune lowers to. *)
Definition lowerByte (c : ascii) : ascii :=
  if ((65 <=? byte c) && (byte c <=? 90))%N then ascii_of_N (byte c + 32) else c.

Fixpoint strings_ToLower (s : string) : string :=
  match s with
  | EmptyString => EmptyString
  | String c s' => String (lowerByte c) (strings_ToLower s')
  end.

(** Whether the byte [c] occurs in [s] ([strings.IndexByte(s, c) >= 0]). *)
Fixpoint hasByte (c : ascii) (s : string) : bool :=
  match s with
  | EmptyString => false
  | String d s' => Ascii.eqb d c || hasByte c s'
  end.

(** The number of times the byte [c] occurs in [s]. *)
Fixpoint countByte (c : ascii) (s : string) : nat :=
  match s with
  | EmptyString => 0%nat
  | String d s' => ((if Ascii.eqb d c then 1 else 0) + countByte c s')%nat
  end.

(* ===================================================================== *)
(** ** Go's [fmt] verbs used by the code *)
(* ===================================================================== *)

(** The decimal digits of a natural number ([strconv]'s base 10). *)
Definition decimal (n : N) : string := NilZero.string_of_uint (N.to_uint n).

(** [s] padded on the left with zeros up to [width] bytes. *)
Definition padZeros (width : nat) (s : string) : string :=
  string_of_list_ascii (repeat "0"%char (width - String.length s)) +:+ s.

(** [fmt.Sprintf("%d", n)]. *)
Definition fmt_d (n : Z) : string :=
  if n <? 0 then "-" +:+ decimal (Z.to_N (- n)) else decimal (Z.to_N n).

(** [fmt.Sprintf("%02d", n)]: at least two bytes, the sign counted, zeros
    put after the sign. *)
Definition fmt_02d (n : Z) : string :=
  if n <? 0 then "-" +:+ padZeros 1 (decimal (Z.to_N (- n)))
  else padZeros 2 (decimal (Z.to_N n)).

(* ===================================================================== *)
(** ** [FormatDurationForThumbnail] *)
(* ===================================================================== *)

(** Go's [/] and [%] on [int] truncate toward zero: [Z.quot] and [Z.rem]. *)
Definition FormatDurationForThumbnail (seconds : Z) : string :=
  if seconds <=? 0 then "00:00"
  else
    let hours := Z.quot seconds 3600 in
    let minutes := Z.quot (Z.rem seconds 3600) 60 in
    let secs := Z.rem seconds 60 in
    if hours >? 0 then fmt_02d hours +:+ ":" +:+ fmt_02d minutes +:+ ":" +:+ fmt_02d secs
    else fmt_02d minutes +:+ ":" +:+ fmt_02d secs.

(** The two decimal digits of a number below 100. *)
Definition twoDigits (n : Z) : string :=
  String (ascii_of_N (48 + Z.to_N (n / 10))) (String (ascii_of_N (48 + Z.to_N (n mod 10))) EmptyString).

(* ===================================================================== *)
(** ** The request key *)
(* ===================================================================== *)

(** [fmt.Sprintf("%s:%s:%s", thumbnailURL, title, duration)]. *)
Definition cacheKey (thumbnailURL title duration : string) : string :=
  thumbnailURL +:+ ":" +:+ title +:+ ":" +:+ duration.

(* ===================================================================== *)
(** ** Images, colours and the drawing context of [fogleman/gg] *)
(* ===================================================================== *)

(** [color.RGBA]. *)
Record RGBA := mkRGBA { cR : Z; cG : Z; cB : Z; cA : Z }.

(** A font face: the face a fresh [gg.Context] starts with, or a TrueType
    file rasterised at a point size by [LoadFontFace]. *)
Inductive Face :=
| DefaultFace
| TrueType (path : string) (points : Q).

(** What has been drawn on a context. *)
Inductive DrawOp :=
| FillRect (c : RGBA) (x y w h : Q)
| DrawString (c : RGBA) (face : Face) (s : string) (x y ax ay : Q).

(** An [image.Image], by how it was produced: decoded from bytes,
    resampled by [resize.Resize] with the Lanczos3 filter, or taken from a
    drawing context.  Its rectangle is well formed, so [Dx] and [Dy] are
    natural numbers. *)
Inductive Image :=
| Bitmap (data : string) (dx dy : N)
| Resampled (width height : N) (src : Image)
| Drawn (base : Image) (ops : list DrawOp).

Fixpoint Dx (img : Image) : N :=
  match img with
  | Bitmap _ dx _ => dx
  | Resampled w _ _ => w
  | Drawn base _ => Dx base
  end.

Fixpoint Dy (img : Image) : N :=
  match img with
  | Bitmap _ _ dy => dy
  | Resampled _ h _ => h
  | Drawn base _ => Dy base
  end.

(** Whether a drawing operation draws text. *)
Definition isText (op : DrawOp) : bool :=
  match op with DrawString _ _ _ _ _ _ _ => true | FillRect _ _ _ _ _ => false end.

(** The text drawn on an image, on any of its layers. *)
Fixpoint textLayers (img : Image) : list DrawOp :=
  match img with
  | Bitmap _ _ _ => []
  | Resampled _ _ src => textLayers src
  | Drawn base ops =>
      textLayers base ++ List.filter isText ops
  end.

(** [float64(n)] for an unsigned integer. *)
Definition float64 (n : N) : Q := inject_Z (Z.of_N n).

(** A binary64 number. *)
Definition f64 : Set := PrimFloat.float.

(** [float64(z)] for an integer: the nearest binary64, ties to even.  Below
    2^63 the conversion is the kernel's own; beyond, the one of its
    specification. *)
Definition f64_of_Z (z : Z) : f64 :=
  if (0 <=? z) && (z <? 9223372036854775808)
  then PrimFloat.of_uint63 (Uint63.of_Z z)
  else FloatOps.SF2Prim (SpecFloat.binary_normalize FloatOps.prec FloatOps.emax z 0 false).

Definition f64_of_N (n : N) : f64 := f64_of_Z (Z.of_N n).

(** The binary64 of a rational that is kept as a quotient of two whole
    numbers: the quotient, rounded.  For a constant such as [0.7] this is the
    binary64 Go makes of it; for [float64(height) * 0.25], kept as
    [height / 4], it is the product itself, which is exact. *)
Definition f64_of_Q (q : Q) : f64 :=
  PrimFloat.div (f64_of_Z (Qnum q)) (f64_of_Z (Zpos (Qden q))).

(** [uint(x)] and [uint8(x)] for a float: the fraction is dropped.  What is
    not a finite number gives [0] here; Go leaves it to the platform, and the
    code depends on no such value. *)
Definition f64_trunc (x : f64) : Z :=
  match FloatOps.Prim2SF x with
  | SpecFloat.S754_finite s m e =>
      let n := Z.shiftl (Zpos m) e in
      if s then - n else n
  | _ => 0
  end.

Definition uint8 (x : f64) : Z := f64_trunc x mod 256.

#[local] Arguments f64_of_Z : simpl never.
#[local] Arguments f64_of_Q : simpl never.
#[local] Arguments f64_trunc : simpl never.
#[local] Arguments uint8 : simpl never.

(** [resize.Resize(width, height, img, resize.Lanczos3)] of
    [github.com/nfnt/resize], a library outside the repository, after its
    documentation: the result has the given dimensions; a dimension given as
    [0] is derived from the other one so that the aspect ratio is kept
    ([uint(0.7 + old/scale)], in binary64 as the library computes it); an
    image that has the dimensions already, or has no pixels, is returned as
    it is.  [addOverlay] passes the width and the height of its
    configuration, 1280 and 720 by default. *)
Definition resize_Resize (width height : N) (img : Image) : Image :=
  let dx := Dx img in
  let dy := Dy img in
  let scaleX : f64 :=
    if (width =? 0)%N
    then (if (height =? 0)%N then f64_of_Z 1
          else PrimFloat.div (f64_of_N dy) (f64_of_N height))
    else PrimFloat.div (f64_of_N dx) (f64_of_N width) in
  let scaleY : f64 :=
    if (height =? 0)%N then scaleX else PrimFloat.div (f64_of_N dy) (f64_of_N height) in
  let width' :=
    if (width =? 0)%N
    then Z.to_N (f64_trunc (PrimFloat.add (f64_of_Q (7 # 10))
                              (PrimFloat.div (f64_of_N dx) scaleX)))
    else width in
  let height' :=
    if (height =? 0)%N
    then Z.to_N (f64_trunc (PrimFloat.add (f64_of_Q (7 # 10))
                              (PrimFloat.div (f64_of_N dy) scaleY)))
    else height in
  if ((width' =? dx) && (height' =? dy))%N then img
  else if ((dx =? 0) || (dy =? 0))%N then img
  else Resampled width' height' img.

(** [gg.Context]: the image drawn on (a copy of the one the context was
    made for), what has been drawn, the current colour, the current path
    and the current font face. *)
Record Context := mkContext {
  ctx_base : Image;
  ctx_ops : list DrawOp;
  ctx_color : RGBA;
  ctx_path : list (Q * Q * Q * Q);
  ctx_fontFace : Face
}.

(** [gg.NewContextForImage]. *)
Definition NewContextForImage (img : Image) : Context :=
  {| ctx_base := img; ctx_ops := []; ctx_color := mkRGBA 0 0 0 0;
     ctx_path := []; ctx_fontFace := DefaultFace |}.

(** [dc.SetColor]. *)
Definition SetColor (dc : Context) (c : RGBA) : Context :=
  {| ctx_base := ctx_base dc; ctx_ops := ctx_ops dc; ctx_color := c;
     ctx_path := ctx_path dc; ctx_fontFace := ctx_fontFace dc |}.

(** [dc.DrawRectangle]: the rectangle joins the current path. *)
Definition DrawRectangle (dc : Context) (x y w h : Q) : Context :=
  {| ctx_base := ctx_base dc; ctx_ops := ctx_ops dc; ctx_color := ctx_color dc;
     ctx_path := ctx_path dc ++ [(x, y, w, h)]; ctx_fontFace := ctx_fontFace dc |}.

(** [dc.Fill]: the path is filled with the current colour and cleared. *)
Definition Fill (dc : Context) : Context :=
  {| ctx_base := ctx_base dc;
     ctx_ops := ctx_ops dc ++ map (fun '(x, y, w, h) => FillRect (ctx_color dc) x y w h) (ctx_path dc);
     ctx_color := ctx_color dc; ctx_path := []; ctx_fontFace := ctx_fontFace dc |}.

(** [dc.DrawStringAnchored]. *)
Definition DrawStringAnchored (dc : Context) (s : string) (x y ax ay : Q) : Context :=
  {| ctx_base := ctx_base dc;
     ctx_ops := ctx_ops dc ++ [DrawString (ctx_color dc) (ctx_fontFace dc) s x y ax ay];
     ctx_color := ctx_color dc; ctx_path := ctx_path dc; ctx_fontFace := ctx_fontFace dc |}.

(** The face of a context replaced ([dc.fontFace = face]). *)
Definition setFontFace (dc : Context) (face : Face) : Context :=
  {| ctx_base := ctx_base dc; ctx_ops := ctx_ops dc; ctx_color := ctx_color dc;
     ctx_path := ctx_path dc; ctx_fontFace := face |}.

(** [dc.Image]. *)
Definition ctx_Image (dc : Context) : Image := Drawn (ctx_base dc) (ctx_ops dc).

(* ===================================================================== *)
(** ** Configuration *)
(* ===================================================================== *)

(** [ThumbnailConfig]. *)
Record ThumbnailConfig := mkThumbnailConfig {
  AddOverlay : bool;
  OverlayText : string;
  TitleText : string;
  DurationText : string;
  BackgroundColor : RGBA;
  TextColor : RGBA;
  Width : N;
  Height : N;
  Quality : Z
}.

(** [cfg.TitleText = title; cfg.DurationText = duration]. *)
Definition withTexts (cfg : ThumbnailConfig) (title duration : string) : ThumbnailConfig :=
  {| AddOverlay := AddOverlay cfg; OverlayText := OverlayText cfg;
     TitleText := title; DurationText := duration;
     BackgroundColor := BackgroundColor cfg; TextColor := TextColor cfg;
     Width := Width cfg; Height := Height cfg; Quality := Quality cfg |}.

(** [defaultFontPaths]. *)
Definition defaultFontPaths : list string :=
  [ "/usr/share/fonts/truetype/dejavu/DejaVuSans-Bold.ttf";
    "/usr/share/fonts/truetype/dejavu/DejaVuSans.ttf";
    "/usr/share/fonts/dejavu/DejaVuSans-Bold.ttf";
    "/usr/share/fonts/truetype/liberation/LiberationSans-Bold.ttf";
    "/System/Library/Fonts/Helvetica.ttc";
    "/usr/share/fonts/truetype/ubuntu/Ubuntu-Bold.ttf" ].

(* ===================================================================== *)
(** ** The thumbnail cache *)
(* ===================================================================== *)

(** Modelled from the spec: the generic TTL cache [Cache[K, V]] behind
    [NewCache], [Get] and [Set] is not among the sources.  After section 4.5
    of the specification: [get] finds nothing when the key is absent or its
    entry is past expiry; [set] inserts or overwrites with expiry
    [now + ttl].  The specification leaves open whether an expired entry is
    dropped by the lookup or by a sweep; here a lookup hides it and changes
    nothing. *)
Record cacheItem := mkItem { item_value : string; item_expiration : Z }.

(** Modelled from the spec: the store of [Cache[string, string]], its
    entries by key and its time to live. *)
Record Cache := mkCache { cache_items : gmap string cacheItem; cache_ttl : Z }.

(** Modelled from the spec: [NewCache(ttl)], an empty store with the
    configured time to live. *)
Definition NewCache (ttl : Z) : Cache := {| cache_items := ∅; cache_ttl := ttl |}.

(** Modelled from the spec: [get(key)] at the time [now]; nothing is found
    when the key is absent or its entry is past expiry. *)
Definition Cache_Get (c : Cache) (now : Z) (key : string) : option string :=
  match cache_items c !! key with
  | Some it => if now >? item_expiration it then None else Some (item_value it)
  | None => None
  end.

(** Modelled from the spec: [set(key, value)] at the time [now]; the entry
    is inserted or overwritten, with expiry [now + ttl]. *)
Definition Cache_Set (c : Cache) (now : Z) (key value : string) : Cache :=
  {| cache_items := <[key := mkItem value (now + cache_ttl c)]> (cache_items c);
     cache_ttl := cache_ttl c |}.

(** [time.Minute], in nanoseconds. *)
Definition time_Minute : Z := 60 * 1000000000.

(** [var thumbnailCache = NewCache[string, string](30 * time.Minute)]. *)
Definition thumbnailCache_init : Cache := NewCache (30 * time_Minute).

(* ===================================================================== *)
(** ** The outside world *)
(* ===================================================================== *)

(** Go's [error] values of this file, by the place that makes them. *)
Inductive error :=
| errHttpGet (cause : string)   (* failed to download image: %w *)
| errBadStatus (status : string) (* bad status: %s *)
| errReadBody                   (* failed to read image data: %w *)
| errDecode                     (* failed to decode image: %w *)
| errNoFont                     (* no suitable font found *)
| errLoadFontFace               (* what dc.LoadFontFace returns *)
| errMkdirAll                   (* failed to create directory: %w *)
| errCreate                     (* failed to create file: %w *)
| errEncode.                    (* what png.Encode or jpeg.Encode returns *)

(** [http.Response], as far as the code reads it; [Body = None] when
    reading the body fails. *)
Record Response := mkResponse { StatusCode : Z; Status : string; Body : option string }.

(** How [saveImage] ends on a path. *)
Inductive SaveOutcome := MkdirAllFails | CreateFails | EncodeFails | Saved.

(** The encoder [saveImage] picks. *)
Inductive Encoding := PNG | JPEG (quality : Z).

(** A file: an image written by [saveImage], a file whose encoding failed
    after it was created, or any other file (a font, say). *)
Inductive File :=
| Encoded (enc : Encoding) (img : Image)
| Truncated
| OtherFile.

(** The pipeline's steps that are seen from outside, in the order they
    happen. *)
Inductive Event :=
| EvHttpGet (url : string)
| EvAddOverlay (img : Image)
| EvSaveImage (path : string)
| EvLog (message : string).

(** What the code asks of its surroundings: the [config] package, the clock
    (the [n]-th reading of [time.Now().UnixNano()]), the network, the
    decoders, the fonts and the disk. *)
Record Env := mkEnv {
  config_ThumbnailOverlay : bool;
  config_ThumbnailFont : string;
  clock : nat -> Z;
  CleanURL : string -> string;
  http_Get : string -> Response + string;
  image_Decode : string -> option Image;
  fontLoads : string -> Q -> bool;
  measure : Face -> string -> Q;
  os_TempDir : string;
  disk : string -> SaveOutcome
}.

(** The state the code reads and writes: the package variable
    [thumbnailCache], the files that exist, the number of clock readings so
    far, and the events so far. *)
Record World := mkWorld {
  thumbnailCache : Cache;
  files : gmap string File;
  ticks : nat;
  trace : list Event
}.

(** A computation on the world; [None] when a loop ran out of its
    budget. *)
Definition M (A : Type) : Type := World -> option (A * World).

Definition ret {A} (a : A) : M A := fun w => Some (a, w).

Definition bind {A B} (m : M A) (f : A -> M B) : M B :=
  fun w => match m w with Some (a, w') => f a w' | None => None end.

(** A pure computation that may run out of budget. *)
Definition liftOption {A} (o : option A) : M A :=
  fun w => match o with Some a => Some (a, w) | None => None end.

Notation "x <- m ;; k" := (bind m (fun x => k))
  (at level 20, m at level 99, k at level 200, only parsing).
Notation "' p <- m ;; k" := (bind m (fun x => let 'p := x in k))
  (at level 20, p pattern, m at level 99, k at level 200, only parsing).

Definition emit (e : Event) : M unit :=
  fun w => Some (tt, {| thumbnailCache := thumbnailCache w; files := files w;
                        ticks := ticks w; trace := trace w ++ [e] |}).

Definition setFiles (fs : gmap string File) : M unit :=
  fun w => Some (tt, {| thumbnailCache := thumbnailCache w; files := fs;
                        ticks := ticks w; trace := trace w |}).

Definition setCache (c : Cache) : M unit :=
  fun w => Some (tt, {| thumbnailCache := c; files := files w;
                        ticks := ticks w; trace := trace w |}).

(** [s == ""]. *)
Definition isEmpty (s : string) : bool :=
  match s with EmptyString => true | String _ _ => false end.

(** The line feed. *)
Definition LF : string := String "010"%char EmptyString.

(** The elements of a path, between its slashes. *)
Fixpoint splitSlash (s : string) : list string :=
  match s with
  | EmptyString => [EmptyString]
  | String c s' =>
      if Ascii.eqb c "/" then EmptyString :: splitSlash s'
      else
        match splitSlash s' with
        | e :: rest => String c e :: rest
        | [] => [String c EmptyString]
        end
  end.

(** One element of a path met by [filepath.Clean]; [out] holds the elements
    kept so far, the last one first.  An empty element and [.] are dropped;
    [..] takes back the element before it, is dropped at the root, and is
    kept where nothing is left to take back; any other element is kept. *)
Definition cleanElem (rooted : bool) (out : list string) (elem : string) : list string :=
  if isEmpty elem || String.eqb elem "." then out
  else if String.eqb elem ".." then
    match out with
    | top :: rest => if String.eqb top ".." then elem :: out else rest
    | [] => if rooted then [] else [elem]
    end
  else elem :: out.

(** [filepath.Clean] of Go's library, where the separator is the slash,
    after its documentation: runs of slashes count as one, [.] elements and
    inner [..] elements with the element before them go, [..] at the root
    goes, and the empty path is [.]. *)
Definition filepath_Clean (path : string) : string :=
  if isEmpty path then "."
  else
    let rooted := strings_HasPrefix path "/" in
    let out := rev (fold_left (cleanElem rooted) (splitSlash path) []) in
    let body := strings_Join out "/" in
    if rooted then "/" +:+ body
    else if isEmpty body then "." else body.

(** [filepath.Join]: the elements from the first one that is not empty on,
    joined by slashes and cleaned; the empty path when all are empty. *)
Fixpoint filepath_Join (elem : list string) : string :=
  match elem with
  | [] => EmptyString
  | e :: rest =>
      if isEmpty e then filepath_Join rest
      else filepath_Clean (strings_Join elem "/")
  end.

Section Pipeline.

Variable E : Env.

(** [time.Now().UnixNano()]. *)
Definition time_Now : M Z :=
  fun w => Some (clock E (ticks w),
                 {| thumbnailCache := thumbnailCache w; files := files w;
                    ticks := S (ticks w); trace := trace w |}).

(** [thumbnailCache.Get(key)]. *)
Definition thumbnailCache_Get (key : string) : M (option string) :=
  now <- time_Now ;;
  fun w => Some (Cache_Get (thumbnailCache w) now key, w).

(** [thumbnailCache.Set(key, value)]. *)
Definition thumbnailCache_Set (key value : string) : M unit :=
  now <- time_Now ;;
  fun w => setCache (Cache_Set (thumbnailCache w) now key value) w.

(** [fileExists]: [os.Stat(path)] gives no error. *)
Definition fileExists (path : string) : M bool :=
  fun w => Some (bool_decide (is_Some (files w !! path)), w).

(** [logger.ErrorF] and [logger.WarnF], by their format. *)
Definition logger_ErrorF (format : string) : M unit := emit (EvLog format).
Definition logger_WarnF (format : string) : M unit := emit (EvLog format).

(** [dc.MeasureString(s)], the width. *)
Definition MeasureString (dc : Context) (s : string) : Q :=
  measure E (ctx_fontFace dc) s.

(** [dc.LoadFontFace(path, points)]: the file is read and parsed; the
    context gets the face only when that succeeds. *)
Definition LoadFontFace (dc : Context) (path : string) (points : Q)
  : M (Context * option error) :=
  fun w =>
    if bool_decide (is_Some (files w !! path)) && fontLoads E path points
    then Some ((setFontFace dc (TrueType path points), None), w)
    else Some ((dc, Some errLoadFontFace), w).

(** The [for _, fontPath := range defaultFontPaths] of [loadFont], and the
    [return] after it. *)
Fixpoint loadFontFrom (paths : list string) (dc : Context) (fontSize : Q)
  : M (Context * option error) :=
  match paths with
  | [] => ret (dc, Some errNoFont)
  | fontPath :: rest =>
      ex <- fileExists fontPath ;;
      if ex then
        '(dc', err) <- LoadFontFace dc fontPath fontSize ;;
        match err with
        | None => ret (dc', None)
        | Some _ => loadFontFrom rest dc fontSize
        end
      else loadFontFrom rest dc fontSize
  end.

(** [loadFont]. *)
Definition loadFont (dc : Context) (fontSize : Q) : M (Context * option error) :=
  let customFont := config_ThumbnailFont E in
  ex <- (if negb (isEmpty customFont) then fileExists customFont else ret false) ;;
  if ex then
    '(dc', err) <- LoadFontFace dc customFont fontSize ;;
    match err with
    | None => ret (dc', None)
    | Some _ =>
        _ <- logger_WarnF "Failed to load custom font %s: trying defaults" ;;
        loadFontFrom defaultFontPaths dc fontSize
    end
  else loadFontFrom defaultFontPaths dc fontSize.

(** The [for _, word := range words] of [wrapText]: the lines finished so
    far and the line being filled. *)
Fixpoint wrapWords (dc : Context) (maxWidth : Q) (words : list string)
  (lines : list string) (currentLine : string) : list string * string :=
  match words with
  | [] => (lines, currentLine)
  | word :: rest =>
      let testLine :=
        (if negb (isEmpty currentLine) then currentLine +:+ " " else currentLine) +:+ word in
      let w := MeasureString dc testLine in
      if negb (Qle_bool w maxWidth) && negb (isEmpty currentLine)
      then wrapWords dc maxWidth rest (lines ++ [currentLine]) word
      else wrapWords dc maxWidth rest lines testLine
  end.

(** The [for { ... }] of [wrapText] that shortens the second line; [fuel]
    bounds the number of rounds. *)
Fixpoint ellipsisLoop (fuel : nat) (dc : Context) (maxWidth : Q)
  (lines : list string) (lastLine : string) : option (list string) :=
  match fuel with
  | O => None
  | S fuel' =>
      let w := MeasureString dc (lastLine +:+ "...") in
      if Qle_bool w maxWidth then Some (<[1%nat := lastLine +:+ "..."]> lines)
      else
        let words := strings_Fields lastLine in
        if (length words <=? 1)%nat then Some lines
        else
          ellipsisLoop fuel' dc maxWidth lines
            (strings_Join (take (length words - 1) words) " ")
  end.

(** [wrapText]. *)
Definition wrapText (dc : Context) (text : string) (maxWidth : Q) : option string :=
  let words := strings_Fields text in
  if (length words =? 0)%nat then Some text
  else
    let '(lines, currentLine) := wrapWords dc maxWidth words [] EmptyString in
    let lines := if negb (isEmpty currentLine) then lines ++ [currentLine] else lines in
    if (2 <? length lines)%nat then
      let lines := take 2 lines in
      let lastLine := default EmptyString (lines !! 1%nat) in
      lines' ← ellipsisLoop (S (String.length lastLine)) dc maxWidth lines lastLine;
      Some (strings_Join lines' LF)
    else Some (strings_Join lines LF).

(** The [for i := 0.0; i < gradientHeight; i++] of [addOverlay]; [fuel]
    bounds the number of rows.  The row index is kept as the whole number it
    is and [gradientHeight] as the rational it is, both of which binary64
    holds exactly; the alpha is computed in binary64, as the code does. *)
Fixpoint gradientLoop (fuel : nat) (i : Z) (gradientHeight : Q) (width height : N)
  (dc : Context) : option Context :=
  match fuel with
  | O => None
  | S fuel' =>
      if Qlt_le_dec (inject_Z i) gradientHeight then
        let alpha :=
          uint8 (PrimFloat.mul (PrimFloat.div (f64_of_Z i) (f64_of_Q gradientHeight))
                   (f64_of_Z 180)) in
        let dc := SetColor dc (mkRGBA 0 0 0 alpha) in
        let dc := DrawRectangle dc 0%Q (float64 height - gradientHeight + inject_Z i)%Q
                    (float64 width) 1%Q in
        let dc := Fill dc in
        gradientLoop fuel' (i + 1) gradientHeight width height dc
      else Some dc
  end.

(** [addOverlay]. *)
Definition addOverlay (img : Image) (cfg : ThumbnailConfig) : M (Image * option error) :=
  _ <- emit (EvAddOverlay img) ;;
  let width := Dx img in
  let height := Dy img in
  let img :=
    if ((Width cfg <? width) || (Height cfg <? height))%N
    then resize_Resize (Width cfg) (Height cfg) img else img in
  let width := Dx img in
  let height := Dy img in
  let dc := NewContextForImage img in
  let gradientHeight := (float64 height * (1 # 4))%Q in
  dc <- liftOption (gradientLoop (S (N.to_nat height)) 0 gradientHeight width height dc) ;;
  let titleFontSize := (float64 width / 25)%Q in
  let durationFontSize := (float64 width / 35)%Q in
  '(dc, err) <- loadFont dc titleFontSize ;;
  match err with
  | Some _ =>
      _ <- logger_WarnF "Failed to load font, returning original image: %v" ;;
      ret (img, None)
  | None =>
      dc <- (if negb (isEmpty (TitleText cfg)) then
               let maxWidth := (float64 width * (9 # 10))%Q in
               wrappedTitle <- liftOption (wrapText dc (TitleText cfg) maxWidth) ;;
               let dc := SetColor dc (mkRGBA 0 0 0 200) in
               let x := (float64 width / 2)%Q in
               let y := (float64 height - 60)%Q in
               let dc := DrawStringAnchored dc wrappedTitle (x + 2)%Q (y + 2)%Q (1 # 2) (1 # 2) in
               let dc := SetColor dc (TextColor cfg) in
               let dc := DrawStringAnchored dc wrappedTitle x y (1 # 2) (1 # 2) in
               ret dc
             else ret dc) ;;
      dc <- (if negb (isEmpty (DurationText cfg)) then
               '(dc', err) <- loadFont dc durationFontSize ;;
               match err with
               | Some _ =>
                   _ <- logger_WarnF "Failed to load font for duration: %v" ;;
                   ret dc
               | None =>
                   let dc := SetColor dc' (mkRGBA 0 0 0 200) in
                   let x := (float64 width - 20)%Q in
                   let y := (float64 height - 20)%Q in
                   let dc := DrawStringAnchored dc (DurationText cfg) (x + 1)%Q (y + 1)%Q 1%Q 1%Q in
                   let dc := SetColor dc (mkRGBA 255 255 255 255) in
                   let dc := DrawStringAnchored dc (DurationText cfg) x y 1%Q 1%Q in
                   ret dc
               end
             else ret dc) ;;
      ret (ctx_Image dc, None)
  end.

(** [DefaultThumbnailConfig]. *)
Definition DefaultThumbnailConfig : ThumbnailConfig :=
  {| AddOverlay := config_ThumbnailOverlay E;
     OverlayText := EmptyString; TitleText := EmptyString; DurationText := EmptyString;
     BackgroundColor := mkRGBA 0 0 0 180;
     TextColor := mkRGBA 255 255 255 255;
     Width := 1280; Height := 720; Quality := 85 |}.

(** [downloadImage]. *)
Definition downloadImage (url : string) : M (Image + error) :=
  let url := CleanURL E url in
  _ <- emit (EvHttpGet url) ;;
  match http_Get E url with
  | inr cause => ret (inr (errHttpGet cause))
  | inl resp =>
      if negb (StatusCode resp =? 200) then ret (inr (errBadStatus (Status resp)))
      else
        match Body resp with
        | None => ret (inr errReadBody)
        | Some data =>
            match image_Decode E data with
            | None => ret (inr errDecode)
            | Some img => ret (inl img)
            end
        end
  end.

(** [saveImage]; the directories [os.MkdirAll] makes are not kept track
    of. *)
Definition saveImage (img : Image) (path : string) (quality : Z) : M (option error) :=
  _ <- emit (EvSaveImage path) ;;
  match disk E path with
  | MkdirAllFails => ret (Some errMkdirAll)
  | CreateFails => ret (Some errCreate)
  | EncodeFails =>
      fun w => (_ <- setFiles (<[path := Truncated]> (files w)) ;; ret (Some errEncode)) w
  | Saved =>
      let enc := if strings_HasSuffix (strings_ToLower path) ".png" then PNG else JPEG quality in
      fun w => (_ <- setFiles (<[path := Encoded enc img]> (files w)) ;; ret None) w
  end.

(** [generateOutputPath]. *)
Definition generateOutputPath : M string :=
  timestamp <- time_Now ;;
  let filename := "thumb_" +:+ fmt_d timestamp +:+ ".jpg" in
  ret (filepath_Join [os_TempDir E; "yukki_thumbnails"; filename]).

(** Lines 232 to 267 of [ProcessThumbnail]: what follows the look-up in the
    cache. *)
Definition regenerate (cacheKey thumbnailURL title duration : string)
  : M (string * option error) :=
  r <- downloadImage thumbnailURL ;;
  match r with
  | inr err =>
      _ <- logger_ErrorF "Failed to download thumbnail: %v" ;;
      ret (EmptyString, Some err)
  | inl img =>
      if negb (config_ThumbnailOverlay E) then
        outputPath <- generateOutputPath ;;
        err <- saveImage img outputPath 95 ;;
        match err with
        | Some e => ret (EmptyString, Some e)
        | None =>
            _ <- thumbnailCache_Set cacheKey outputPath ;;
            ret (outputPath, None)
        end
      else
        let cfg := withTexts DefaultThumbnailConfig title duration in
        '(processedImg, err) <- addOverlay img cfg ;;
        match err with
        | Some e =>
            _ <- logger_ErrorF "Failed to add overlay: %v" ;;
            ret (EmptyString, Some e)
        | None =>
            outputPath <- generateOutputPath ;;
            err <- saveImage processedImg outputPath (Quality cfg) ;;
            match err with
            | Some e => ret (EmptyString, Some e)
            | None =>
                _ <- thumbnailCache_Set cacheKey outputPath ;;
                ret (outputPath, None)
            end
        end
  end.

(** [ProcessThumbnail]. *)
Definition ProcessThumbnail (thumbnailURL title duration : string)
  : M (string * option error) :=
  if isEmpty thumbnailURL then ret (EmptyString, None)
  else
    let cacheKey := cacheKey thumbnailURL title duration in
    hit <- thumbnailCache_Get cacheKey ;;
    match hit with
    | Some cached =>
        ok <- fileExists cached ;;
        if ok then ret (cached, None)
        else regenerate cacheKey thumbnailURL title duration
    | None => regenerate cacheKey thumbnailURL title duration
    end.

End Pipeline.

(* ===================================================================== *)
(** ** A concrete environment, for examples *)
(* ===================================================================== *)

(** Every byte is ten units wide, whatever the face. *)
Definition tenPerByte (face : Face) (s : string) : Q :=
  inject_Z (10 * Z.of_nat (String.length s)).

(** One host serves a 2000 by 2000 picture, one path answers 404, every
    other address cannot be reached; every font file parses; every write
    succeeds. *)
Definition exampleEnv : Env :=
  {| config_ThumbnailOverlay := true;
     config_ThumbnailFont := EmptyString;
     clock := fun n => 1700000000000000000 + Z.of_nat n;
     CleanURL := fun url => url;
     http_Get := fun url =>
       if String.eqb url "http://img/ok" then inl (mkResponse 200 "200 OK" (Some "JPEGDATA"))
       else if String.eqb url "http://img/404" then inl (mkResponse 404 "404 Not Found" (Some EmptyString))
       else inr "no such host";
     image_Decode := fun data =>
       if String.eqb data "JPEGDATA" then Some (Bitmap data 2000 2000) else None;
     fontLoads := fun _ _ => true;
     measure := tenPerByte;
     os_TempDir := "/tmp";
     disk := fun _ => Saved |}.

(** A world with an empty cache and one font installed. *)
Definition freshWorld : World :=
  {| thumbnailCache := thumbnailCache_init;
     files := {[ "/usr/share/fonts/truetype/dejavu/DejaVuSans.ttf" := OtherFile ]};
     ticks := 0; trace := [] |}.

(** A world whose cache holds a live entry for one request, the file being
    there ([cachedWorld]) or gone ([staleWorld]). *)
Definition cachedWorld : World :=
  {| thumbnailCache :=
       Cache_Set thumbnailCache_init 1699999999000000000
         (cacheKey "http://img/ok" "Song" "3:45") "/tmp/yukki_thumbnails/thumb_1.jpg";
     files := {[ "/tmp/yukki_thumbnails/thumb_1.jpg" := OtherFile ]};
     ticks := 0; trace := [] |}.

Definition staleWorld : World :=
  {| thumbnailCache := thumbnailCache cachedWorld;
     files := ∅; ticks := 0; trace := [] |}.

(* ===================================================================== *)
(** ** Vocabulary of the specification *)
(* ===================================================================== *)

(** No white-space rune starts at any byte of [w]. *)
Fixpoint nospace (w : string) : bool :=
  match w with
  | EmptyString => true
  | String _ w' => (spaceWidth w =? 0)%nat && nospace w'
  end.

(** A word: not empty, and free of white space. *)
Definition isField (w : string) : Prop := w <> EmptyString /\ nospace w = true.

(** The text after a word starts with a byte below 128, or is empty. *)
Definition plainStart (t : string) : Prop :=
  match t with EmptyString => True | String c _ => (byte c < 128)%N end.

(** The words of a line, as a line. *)
Definition lineOf (g : list string) : string := strings_Join g " ".

(** Whether a text measures within the budget. *)
Definition fitsIn (E : Env) (dc : Context) (maxWidth : Q) (s : string) : bool :=
  Qle_bool (MeasureString E dc s) maxWidth.

(** Greedy word-wrap in the specification's words: words accumulate into a
    line while the measured width stays within the budget; a new line starts
    when the next word would exceed it.  [g] is the line being filled, which
    has a word already. *)
Fixpoint greedyFrom (fits : string -> bool) (g : list string) (words : list string)
  : list (list string) :=
  match words with
  | [] => [g]
  | w :: rest =>
      if fits (lineOf (g ++ [w])) then greedyFrom fits (g ++ [w]) rest
      else g :: greedyFrom fits [w] rest
  end.

(** The greedy wrap of a text's words: the first word opens the first
    line. *)
Definition greedyLines (fits : string -> bool) (words : list string) : list (list string) :=
  match words with
  | [] => []
  | w :: rest => greedyFrom fits [w] rest
  end.

(** Every word added to a line after its first was added within the
    budget. *)
Definition accumulated (fits : string -> bool) (g : list string) : Prop :=
  forall j, (2 <= j <= length g)%nat -> fits (lineOf (take j g)) = true.

(** Every line but the last ends where the next word would exceed the
    budget. *)
Fixpoint breaksWhenFull (fits : string -> bool) (groups : list (list string)) : Prop :=
  match groups with
  | g :: ((h :: _) as rest) =>
      match h with
      | w :: _ => fits (lineOf (g ++ [w])) = false
      | [] => False
      end /\ breaksWhenFull fits rest
  | _ => True
  end.

(** The first [k] words of a line, followed by the dots. *)
Definition withDots (g : list string) (k : nat) : string := lineOf (take k g) +:+ "...".

(** The longest run of at most [k] leading words of [g] that fits the
    budget with the dots appended, if one of at least one word does. *)
Fixpoint ellipsized (fits : string -> bool) (g : list string) (k : nat) : option string :=
  match k with
  | O => None
  | S k' => if fits (withDots g k) then Some (withDots g k) else ellipsized fits g k'
  end.

(** The world after one reading of the clock. *)
Definition tick (w : World) : World :=
  {| thumbnailCache := thumbnailCache w; files := files w;
     ticks := S (ticks w); trace := trace w |}.

(** The ways the download step fails, with the error of each: the GET
    fails, the status is not 200, the body cannot be read, the bytes do not
    decode. *)
Inductive downloadFails (E : Env) (url : string) : error -> Prop :=
| fails_get cause :
    http_Get E (CleanURL E url) = inr cause ->
    downloadFails E url (errHttpGet cause)
| fails_status resp :
    http_Get E (CleanURL E url) = inl resp -> StatusCode resp <> 200 ->
    downloadFails E url (errBadStatus (Status resp))
| fails_read resp :
    http_Get E (CleanURL E url) = inl resp -> StatusCode resp = 200 ->
    Body resp = None ->
    downloadFails E url errReadBody
| fails_decode resp data :
    http_Get E (CleanURL E url) = inl resp -> StatusCode resp = 200 ->
    Body resp = Some data -> image_Decode E data = None ->
    downloadFails E url errDecode.

(** A look-up that misses: no live entry for the key, or an entry whose
    file is gone. *)
Definition cacheMiss (w : World) (now : Z) (key : string) : Prop :=
  match Cache_Get (thumbnailCache w) now key with
  | None => True
  | Some cached => files w !! cached = None
  end.

(** A font file that is there and loads at the size. *)
Definition usableFont (E : Env) (fs : gmap string File) (size : Q) (path : string) : bool :=
  bool_decide (is_Some (fs !! path)) && fontLoads E path size.

(** The configured font can be used: the path is not empty, the file
    exists, and it loads. *)
Definition customFontUsable (E : Env) (fs : gmap string File) (size : Q) : bool :=
  negb (isEmpty (config_ThumbnailFont E)) && usableFont E fs size (config_ThumbnailFont E).

(** No font can be resolved at the size. *)
Definition noFont (E : Env) (fs : gmap string File) (size : Q) : Prop :=
  customFontUsable E fs size = false
  /\ forall path, In path defaultFontPaths -> usableFont E fs size path = false.

(** The world with events added. *)
Definition addEvents (w : World) (evs : list Event) : World :=
  {| thumbnailCache := thumbnailCache w; files := files w;
     ticks := ticks w; trace := trace w ++ evs |}.

(** The context with the font [loadFont] resolved, and the error it
    returns. *)
Definition withFont (dc : Context) (size : Q) (resolved : option string)
  : Context * option error :=
  match resolved with
  | Some path => (setFontFace dc (TrueType path size), None)
  | None => (dc, Some errNoFont)
  end.

(** The alpha of row [i] of the gradient, as the loop computes it. *)
Definition gradientAlpha (height : N) (i : Z) : Z :=
  uint8 (PrimFloat.mul
           (PrimFloat.div (f64_of_Z i) (f64_of_Q (float64 height * (1 # 4))%Q))
           (f64_of_Z 180)).

(** Row [i] of the gradient, as the loop draws it. *)
Definition gradientRow (width height : N) (i : Z) : DrawOp :=
  FillRect (mkRGBA 0 0 0 (gradientAlpha height i)) 0%Q
    (float64 height - float64 height * (1 # 4) + inject_Z i)%Q (float64 width) 1%Q.

(** The number of rows of the gradient: a quarter of the height, rounded
    up. *)
Definition gradientRowCount (height : N) : Z := (Z.of_N height + 3) / 4.

(** The alpha of a drawing operation's colour. *)
Definition opAlpha (op : DrawOp) : Z :=
  match op with
  | FillRect c _ _ _ _ => cA c
  | DrawString c _ _ _ _ _ _ => cA c
  end.

(** [groups] is the greedy wrap of [words]: the words in order, no line
    empty, every word after a line's first added within the budget, every
    line but the last ended because the next word would exceed the budget. *)
Definition isGreedyWrap (fits : string -> bool) (words : list string)
  (groups : list (list string)) : Prop :=
  concat groups = words
  /\ Forall (fun g => g <> []) groups
  /\ Forall (accumulated fits) groups
  /\ breaksWhenFull fits groups.

(** [line] is the second line [g] after the shortening loop: the longest
    run of leading words of [g] (at least one) that fits the budget with the
    dots appended, with the dots; or [g] itself, as a line without dots,
    when no such run fits. *)
Definition shortened (fits : string -> bool) (g : list string) (line : string) : Prop :=
  (exists k, (1 <= k <= length g)%nat
             /\ fits (withDots g k) = true
             /\ (forall j, (k < j <= length g)%nat -> fits (withDots g j) = false)
             /\ line = withDots g k)
  \/ ((forall j, (1 <= j <= length g)%nat -> fits (withDots g j) = false)
      /\ line = lineOf g).

(** The picture [addOverlay] goes on with after its first step: resized to
    the configured width and height when it exceeds one of them, else as it
    was given. *)
Definition fitted (cfg : ThumbnailConfig) (img : Image) : Image :=
  if ((Width cfg <? Dx img) || (Height cfg <? Dy img))%N
  then resize_Resize (Width cfg) (Height cfg) img else img.

(** A text drawn the way [addOverlay] draws the title: anchored at its
    centre. *)
Definition isTitleLayer (op : DrawOp) : Prop :=
  match op with
  | DrawString _ _ _ _ _ ax ay => ax = (1 # 2)%Q /\ ay = (1 # 2)%Q
  | FillRect _ _ _ _ _ => False
  end.

(** An error of font resolution. *)
Definition isFontError (e : error) : Prop := e = errNoFont \/ e = errLoadFontFace.

(** The world after the first request of the examples, made on
    [freshWorld]. *)
Definition onceServedWorld : World :=
  match ProcessThumbnail exampleEnv "http://img/ok" "Song" "3:45" freshWorld with
  | Some (_, w') => w'
  | None => freshWorld
  end.

(** A line of the log. *)
Definition isLog (e : Event) : bool :=
  match e with EvLog _ => true | _ => false end.

(** A request sent over the network. *)
Definition isHttpGet (e : Event) : bool :=
  match e with EvHttpGet _ => true | _ => false end.

(** A computation that leaves the world as it was, but for lines it adds to
    the log. *)
Definition logsOnly {A} (m : M A) : Prop :=
  forall w a w', m w = Some (a, w') ->
    exists logs, w' = addEvents w logs /\ forallb isLog logs = true.

(** The path [generateOutputPath] makes from the [n]-th reading of the
    clock. *)
Definition outputPathAt (E : Env) (n : nat) : string :=
  filepath_Join [os_TempDir E; "yukki_thumbnails"; "thumb_" +:+ fmt_d (clock E n) +:+ ".jpg"].

(** The download step succeeds, with the picture [img]. *)
Definition downloads (E : Env) (url : string) (img : Image) : Prop :=
  exists resp data,
    http_Get E (CleanURL E url) = inl resp /\ StatusCode resp = 200
    /\ Body resp = Some data /\ image_Decode E data = Some img.

(** What [saveImage] and the [thumbnailCache.Set] after it make of a world
    whose clock was read [n] times, for the picture [out] at the quality
    [quality]: the value returned and the world left. *)
Definition stored (E : Env) (key : string) (out : Image) (quality : Z)
  (c : Cache) (fs : gmap string File) (n : nat) (tr : list Event)
  : (string * option error) * World :=
  let p := outputPathAt E n in
  match disk E p with
  | MkdirAllFails =>
      ((EmptyString, Some errMkdirAll),
       {| thumbnailCache := c; files := fs; ticks := S n; trace := tr ++ [EvSaveImage p] |})
  | CreateFails =>
      ((EmptyString, Some errCreate),
       {| thumbnailCache := c; files := fs; ticks := S n; trace := tr ++ [EvSaveImage p] |})
  | EncodeFails =>
      ((EmptyString, Some errEncode),
       {| thumbnailCache := c; files := <[p := Truncated]> fs; ticks := S n;
          trace := tr ++ [EvSaveImage p] |})
  | Saved =>
      ((p, None),
       {| thumbnailCache := Cache_Set c (clock E (S n)) key p;
          files := <[p := Encoded (JPEG quality) out]> fs; ticks := S (S n);
          trace := tr ++ [EvSaveImage p] |})
  end.

(** The surroundings of the examples, with a disk on which a file can be
    created but not written in full. *)
Definition fullDiskEnv : Env :=
  {| config_ThumbnailOverlay := config_ThumbnailOverlay exampleEnv;
     config_ThumbnailFont := config_ThumbnailFont exampleEnv;
     clock := clock exampleEnv; CleanURL := CleanURL exampleEnv;
     http_Get := http_Get exampleEnv; image_Decode := image_Decode exampleEnv;
     fontLoads := fontLoads exampleEnv; measure := measure exampleEnv;
     os_TempDir := os_TempDir exampleEnv;
     disk := fun _ => EncodeFails |}.

(* ===================================================================== *)
(** ** [CleanupOldThumbnails] *)
(* ===================================================================== *)

(** An entry of a directory as [os.ReadDir] lists it: its name, whether it
    is a directory, and what [Info] gives, the time of the last change in
    nanoseconds or nothing when it fails. *)
Record DirEntry := mkDirEntry {
  entry_Name : string;
  entry_IsDir : bool;
  entry_Info : option Z
}.

(** The directories as the sweep finds them: whether [os.Stat] reports that
    a path does not exist, what [os.ReadDir] lists there (nothing on an
    error), and whether [os.Remove] can remove a path.  The listing is what
    the operating system reports, times of change included; it is not derived
    from the [files] of the world, which keep no times. *)
Record Dirs := mkDirs {
  stat_IsNotExist : string -> bool;
  os_ReadDir : string -> option (list DirEntry);
  os_Remove_ok : string -> bool
}.

(** [time.Hour], in nanoseconds. *)
Definition time_Hour : Z := 60 * time_Minute.

(** [t.Sub(u)] by the wall clock, in nanoseconds: the difference, kept
    within the range of a [Duration]. *)
Definition time_Sub (t u : Z) : Z :=
  if t - u >? 2 ^ 63 - 1 then 2 ^ 63 - 1
  else if t - u <? - 2 ^ 63 then - 2 ^ 63
  else t - u.

Section Cleanup.

Variable E : Env.
Variable D : Dirs.

(** [os.Remove(path)], and whether it gave no error. *)
Definition os_Remove (path : string) : M bool :=
  fun w =>
    if os_Remove_ok D path
    then (_ <- setFiles (delete path (files w)) ;; ret true) w
    else Some (false, w).

(** The [for _, file := range files] of [CleanupOldThumbnails]. *)
Fixpoint sweep (dir : string) (now : Z) (entries : list DirEntry) : M unit :=
  match entries with
  | [] => ret tt
  | file :: rest =>
      if entry_IsDir file then sweep dir now rest
      else
        match entry_Info file with
        | None => sweep dir now rest
        | Some modTime =>
            if time_Sub now modTime >? time_Hour then
              let path := filepath_Join [dir; entry_Name file] in
              ok <- os_Remove path ;;
              _ <- (if ok then ret tt
                    else logger_ErrorF "Failed to remove old thumbnail %s: %v") ;;
              sweep dir now rest
            else sweep dir now rest
        end
  end.

(** [CleanupOldThumbnails]. *)
Definition CleanupOldThumbnails : M unit :=
  let dir := filepath_Join [os_TempDir E; "yukki_thumbnails"] in
  if stat_IsNotExist D dir then ret tt
  else
    match os_ReadDir D dir with
    | None => logger_ErrorF "Failed to read thumbnail directory: %v"
    | Some entries =>
        now <- time_Now E ;;
        sweep dir now entries
    end.

End Cleanup.

(** The directory of the thumbnails. *)
Definition thumbnailDir (E : Env) : string :=
  filepath_Join [os_TempDir E; "yukki_thumbnails"].

(** The path of an entry of the directory of the thumbnails. *)
Definition entryPath (E : Env) (e : DirEntry) : string :=
  filepath_Join [thumbnailDir E; entry_Name e].

(** An entry that is a file changed more than an hour before [now]. *)
Definition isOld (now : Z) (e : DirEntry) : bool :=
  negb (entry_IsDir e)
  && match entry_Info e with
     | Some modTime => now - modTime >? time_Hour
     | None => false
     end.

(** What the sweep gets to see: the entries listed, none when the directory
    does not exist or cannot be read. *)
Definition listed (E : Env) (D : Dirs) : list DirEntry :=
  if stat_IsNotExist D (thumbnailDir E) then []
  else default [] (os_ReadDir D (thumbnailDir E)).

(** The sweep removes [path]: an old entry listed has this path, and the
    path can be removed. *)
Definition swept (E : Env) (D : Dirs) (now : Z) (path : string) : bool :=
  existsb (fun e => isOld now e && String.eqb (entryPath E e) path && os_Remove_ok D path)
    (listed E D).

(** A directory for the examples: a thumbnail two hours old, one of half an
    hour, one exactly an hour old, an old file that cannot be removed, an old
    directory, and an old file of another name. *)
Definition exampleDirs : Dirs :=
  {| stat_IsNotExist := fun _ => false;
     os_ReadDir := fun dir =>
       if String.eqb dir "/tmp/yukki_thumbnails" then
         Some [ mkDirEntry "thumb_1.jpg" false (Some (1700000000000000000 - 2 * time_Hour));
                mkDirEntry "thumb_2.jpg" false (Some (1700000000000000000 - 30 * time_Minute));
                mkDirEntry "thumb_3.jpg" false (Some (1700000000000000000 - time_Hour));
                mkDirEntry "locked.jpg" false (Some 0);
                mkDirEntry "old" true (Some 0);
                mkDirEntry "notes.txt" false (Some 0) ]
       else None;
     os_Remove_ok := fun path => negb (String.eqb path "/tmp/yukki_thumbnails/locked.jpg") |}.

(** The world after the sweep of the examples, made on [cachedWorld]. *)
Definition sweptWorld : World :=
  match CleanupOldThumbnails exampleEnv exampleDirs cachedWorld with
  | Some (_, w') => w'
  | None => cachedWorld
  end.

(** The font file [loadFont] resolves at a size: the configured one when
    it can be used, else the first default that can. *)
Definition resolvedFont (E : Env) (fs : gmap string File) (size : Q) : option string :=
  if customFontUsable E fs size then Some (config_ThumbnailFont E)
  else List.find (usableFont E fs size) defaultFontPaths.

(** A text drawn with its shadow: the shadow first, moved right and down by
    [offset], then the text over it. *)
Definition shadowed (shadow colour : RGBA) (face : Face) (s : string)
  (x y offset ax ay : Q) : list DrawOp :=
  [ DrawString shadow face s (x + offset)%Q (y + offset)%Q ax ay;
    DrawString colour face s x y ax ay ].

(** The picture, the configuration and the font of the examples. *)
Definition examplePicture : Image := Bitmap "JPEGDATA" 2000 2000.

Definition exampleConfig : ThumbnailConfig :=
  withTexts (DefaultThumbnailConfig exampleEnv) "Song" "3:45".

Definition exampleFont : string := "/usr/share/fonts/truetype/dejavu/DejaVuSans.ttf".

(** The words [ws] with three dots put after the last of them. *)
Fixpoint dotLast (ws : list string) : list string :=
  match ws with
  | [] => []
  | [w] => [w +:+ "..."]
  | w :: rest => w :: dotLast rest
  end.

(* ===================================================================== *)
(** ** [GenThumb] *)
(* ===================================================================== *)

(** [state.Track], whose declaration is not among the sources: the fields
    [GenThumb] reads, typed as it uses them. *)
Record Track := mkTrack {
  track_ID : string;
  track_Artwork : string;
  track_Title : string;
  track_Duration : Z
}.

(** [draw.Src] and [draw.Over]. *)
Inductive Op := Src | Over.

(** What [GenThumb] puts on its canvas: a colour over a rectangle
    ([draw.Draw] with an [image.Uniform]); a picture scaled by
    [xdraw.CatmullRom] to the size of a rectangle, whatever its own
    proportions, and drawn over it; a text in [basicfont.Face7x13], its base
    line starting at a dot. *)
Inductive Layer :=
| Uniform (c : RGBA) (x0 y0 x1 y1 : Z) (op : Op)
| Scaled (src : Image) (x0 y0 x1 y1 : Z)
| Label (c : RGBA) (s : string) (x y : Z).

(** An [image.RGBA] of a size, and what was drawn on it, in order. *)
Record Canvas := mkCanvas {
  canvas_W : Z;
  canvas_H : Z;
  canvas_layers : list Layer
}.

(** A file of the cache directory: a canvas as [png.Encode] wrote it, a file
    that [os.Create] made and the encoder did not finish, or any other
    file. *)
Inductive CachedFile := PngOf (c : Canvas) | Partial | Foreign.

(** What [GenThumb] meets besides the network: the content type
    [http.DetectContentType] finds in the bytes, the two decoders, and, by
    path, whether [os.Create] succeeds and whether [png.Encode] does. *)
Record Studio := mkStudio {
  http_DetectContentType : string -> string;
  jpeg_Decode : string -> option Image;
  png_Decode : string -> option Image;
  os_Create_ok : string -> bool;
  png_Encode_ok : string -> bool
}.

(** The files of the working directory, and what happened so far. *)
Record CacheDir := mkCacheDir {
  cached : gmap string CachedFile;
  happened : list Event
}.

(** [const cacheDir = "cache"]. *)
Definition cacheDir : string := "cache".

Definition noted (s : CacheDir) (e : Event) : CacheDir :=
  {| cached := cached s; happened := happened s ++ [e] |}.

(** The canvas of [GenThumb]: the background, the bar at the bottom, the
    album, and the four texts. *)
Definition thumbCanvas (src : Image) (title artist : string) (duration : Z) : Canvas :=
  let W := 1920 in
  let H := 1080 in
  {| canvas_W := W; canvas_H := H;
     canvas_layers :=
       [ Uniform (mkRGBA 18 27 33 255) 0 0 W H Src;
         Uniform (mkRGBA 28 37 45 255) 0 (H - 400) W H Over;
         Scaled src 180 220 830 870;
         Label (mkRGBA 185 192 199 255) "Playing" 900 330;
         Label (mkRGBA 255 255 255 255) title 900 420;
         Label (mkRGBA 205 205 205 255) artist 900 550;
         Label (mkRGBA 180 180 180 255) ("Duration: " +:+ fmt_d duration) 900 650 ] |}.

Section Thumb.

Variable E : Env.
Variable St : Studio.

(** [GenThumb]; [os.MkdirAll], whose error it drops, leaves no trace here,
    directories not being kept track of. *)
Definition GenThumb (track : option Track) (s : CacheDir) : string * CacheDir :=
  match track with
  | None => (EmptyString, s)
  | Some track =>
      if isEmpty (track_Artwork track) then (EmptyString, s)
      else
        let cachePath := filepath_Join [cacheDir; track_ID track +:+ ".png"] in
        if bool_decide (is_Some (cached s !! cachePath)) then (cachePath, s)
        else
          let title := track_Title track in
          let artist := "Vivek" in
          let duration := track_Duration track in
          let url := CleanURL E (track_Artwork track) in
          let s := noted s (EvHttpGet url) in
          match http_Get E url with
          | inr _ => (EmptyString, noted s (EvLog "Failed to fetch artwork: %v"))
          | inl resp =>
              if negb (StatusCode resp =? 200)
              then (EmptyString, noted s (EvLog "Artwork returned status %d"))
              else
                match Body resp with
                | None => (EmptyString, noted s (EvLog "Failed reading artwork body: %v"))
                | Some imgData =>
                    let contentType := http_DetectContentType St imgData in
                    let decoded :=
                      if String.eqb contentType "image/jpeg" then Some (jpeg_Decode St imgData)
                      else if String.eqb contentType "image/png" then Some (png_Decode St imgData)
                      else None in
                    match decoded with
                    | None => (EmptyString, noted s (EvLog "Unsupported artwork format: %s"))
                    | Some None => (EmptyString, noted s (EvLog "Failed to decode artwork: %v"))
                    | Some (Some src) =>
                        let base := thumbCanvas src title artist duration in
                        if os_Create_ok St cachePath then
                          let file := if png_Encode_ok St cachePath then PngOf base else Partial in
                          (cachePath,
                           {| cached := <[cachePath := file]> (cached s);
                              happened := happened s |})
                        else (EmptyString, s)
                    end
                end
          end
  end.

End Thumb.

(** The path [GenThumb] keeps the thumbnail of a track at. *)
Definition cachePathOf (track : Track) : string :=
  filepath_Join [cacheDir; track_ID track +:+ ".png"].

(** The artwork of a track can be fetched and decodes to [src]: the GET
    answers 200, the body can be read, its bytes are found to be JPEG or PNG,
    and the decoder of that format accepts them. *)
Definition artworkDecodes (E : Env) (St : Studio) (track : Track) (src : Image) : Prop :=
  exists resp data,
    http_Get E (CleanURL E (track_Artwork track)) = inl resp
    /\ StatusCode resp = 200 /\ Body resp = Some data
    /\ ((http_DetectContentType St data = "image/jpeg" /\ jpeg_Decode St data = Some src)
        \/ (http_DetectContentType St data = "image/png" /\ png_Decode St data = Some src)).

(** A studio for the examples: the bytes of the examples are JPEG; files
    can be created, and encoding fails at one path only. *)
Definition exampleStudio : Studio :=
  {| http_DetectContentType := fun data =>
       if String.eqb data "JPEGDATA" then "image/jpeg" else "text/plain; charset=utf-8";
     jpeg_Decode := fun data =>
       if String.eqb data "JPEGDATA" then Some examplePicture else None;
     png_Decode := fun _ => None;
     os_Create_ok := fun _ => true;
     png_Encode_ok := fun path => negb (String.eqb path "cache/full.png") |}.

Definition emptyCacheDir : CacheDir := {| cached := ∅; happened := [] |}.

(** The configured font is there and does not load at the size. *)
Definition customFontBroken (E : Env) (fs : gmap string File) (size : Q) : bool :=
  negb (isEmpty (config_ThumbnailFont E))
  && bool_decide (is_Some (fs !! config_ThumbnailFont E))
  && negb (fontLoads E (config_ThumbnailFont E) size).

(** The alpha [a] of row [i] against the ramp [720 * i / height]: on it,
    the fraction dropped, or one below it on a row where it is whole. *)
Definition onRamp (height : N) (i a : Z) : bool :=
  (a =? 720 * i / Z.of_N height)
  || ((a =? 720 * i / Z.of_N height - 1) && ((720 * i) mod Z.of_N height =? 0)).

(** The [n] rows from [i] on, checked one after the other: the alpha of each
    is not below the alpha [prev] of the row before it, is below 180, and is
    on the ramp. *)
Fixpoint rampOK (height : N) (n : nat) (i prev : Z) : bool :=
  match n with
  | O => true
  | S n' =>
      let a := gradientAlpha height i in
      (prev <=? a) && (a <? 180) && onRamp height i a && rampOK height n' (i + 1) a
  end.

(** All rows of every height up to [maxHeight], checked. *)
Definition rampsOK (maxHeight : nat) : bool :=
  forallb
    (fun h => rampOK (N.of_nat h) (Z.to_nat (gradientRowCount (N.of_nat h))) 0 0)
    (seq 0 (S maxHeight)).

(** The directory a path cleans to, with the slash that ends it: what
    [filepath.Clean] puts before a name that is joined to the path. *)
Definition cleanDir (x : string) : string :=
  let rooted := strings_HasPrefix x "/" in
  let out := rev (fold_left (cleanElem rooted) (splitSlash x) []) in
  (if rooted then "/" else EmptyString)
  +:+ match out with
      | [] => EmptyString
      | _ => strings_Join out "/" +:+ "/"
      end.

(** The directory of the paths [generateOutputPath] makes. *)
Definition outputDir (E : Env) : string :=
  cleanDir (if isEmpty (os_TempDir E) then "yukki_thumbnails"
            else os_TempDir E +:+ "/" +:+ "yukki_thumbnails").

(** Boolean tests on bytes as propositions. *)
Ltac bools :=
  repeat rewrite ?orb_true_iff, ?andb_true_iff, ?orb_false_iff, ?andb_false_iff,
    ?N.eqb_eq, ?N.eqb_neq, ?N.leb_le, ?N.leb_gt, ?N.ltb_lt, ?N.ltb_ge in *.

(* ===================================================================== *)
(** * Properties *)
(* ===================================================================== *)

(** ** Strings *)

Lemma append_empty_r (s : string) : s +:+ EmptyString = s.
Proof. induction s as [|c s IH]; simpl; [reflexivity | now rewrite IH]. Qed.

Lemma append_assoc (a b c : string) : (a +:+ b) +:+ c = a +:+ (b +:+ c).
Proof. induction a as [|x a IH]; simpl; [reflexivity | now rewrite IH]. Qed.

Lemma append_length (a b : string) :
  String.length (a +:+ b) = (String.length a + String.length b)%nat.
Proof. induction a as [|x a IH]; simpl; [reflexivity | now rewrite IH]. Qed.

Lemma isEmpty_true (s : string) : isEmpty s = true <-> s = EmptyString.
Proof. destruct s; simpl; split; congruence. Qed.

Lemma isEmpty_false (s : string) : isEmpty s = false <-> s <> EmptyString.
Proof. destruct s; simpl; split; congruence. Qed.

Lemma dropBytes_app (a b : string) : dropBytes (String.length a) (a +:+ b) = b.
Proof. induction a as [|x a IH]; simpl; [now destruct b | exact IH]. Qed.

Lemma HasSuffix_app (a b : string) : strings_HasSuffix (a +:+ b) b = true.
Proof.
  unfold strings_HasSuffix. rewrite append_length.
  replace (String.length a + String.length b - String.length b)%nat
    with (String.length a) by lia.
  rewrite dropBytes_app, String.eqb_refl, andb_true_r.
  apply Nat.leb_le. lia.
Qed.

(** *** White space *)

#[local] Arguments spaceWidth : simpl never.

Lemma space2_tail (b1 b2 : N) : space2 b1 b2 = true -> (128 <= b2)%N.
Proof. unfold space2. bools. lia. Qed.

Lemma space3_tail (b1 b2 b3 : N) :
  space3 b1 b2 b3 = true -> (128 <= b2)%N /\ (128 <= b3)%N.
Proof. unfold space3. bools. lia. Qed.

(** A white-space rune found in [b] is found whatever follows [b]. *)
Lemma spaceWidth_app_pos (b t : string) :
  spaceWidth b <> 0%nat -> spaceWidth (b +:+ t) = spaceWidth b.
Proof.
  destruct b as [|c1 [|c2 [|c3 b]]]; unfold spaceWidth; simpl; intros H; try congruence.
  - destruct (byte c1 <? 128)%N; [reflexivity | congruence].
  - destruct (byte c1 <? 128)%N; [reflexivity |].
    destruct (space2 (byte c1) (byte c2)); [reflexivity | congruence].
Qed.

(** A byte below 128 ends every pattern: what follows a word that is
    followed by such a byte does not change what is found in the word. *)
Lemma spaceWidth_app_plain (b t : string) :
  b <> EmptyString -> plainStart t -> spaceWidth (b +:+ t) = spaceWidth b.
Proof.
  intros Hb Ht.
  destruct b as [|c1 [|c2 [|c3 b]]]; [congruence | | | reflexivity]; unfold spaceWidth; simpl.
  - destruct (byte c1 <? 128)%N eqn:H1; [reflexivity |].
    destruct t as [|d1 [|d2 t]]; [reflexivity | |]; simpl in Ht.
    + destruct (space2 (byte c1) (byte d1)) eqn:H2; [|reflexivity].
      apply space2_tail in H2. lia.
    + destruct (space2 (byte c1) (byte d1)) eqn:H2.
      * apply space2_tail in H2. lia.
      * destruct (space3 (byte c1) (byte d1) (byte d2)) eqn:H3; [|reflexivity].
        apply space3_tail in H3. lia.
  - destruct (byte c1 <? 128)%N eqn:H1; [reflexivity |].
    destruct (space2 (byte c1) (byte c2)) eqn:H2; [reflexivity |].
    destruct t as [|d1 t]; [reflexivity |]; simpl in Ht.
    destruct (space3 (byte c1) (byte c2) (byte d1)) eqn:H3; [|reflexivity].
    apply space3_tail in H3. lia.
Qed.

Lemma flush_isField (w : string) (l : list string) :
  nospace w = true -> Forall isField l -> Forall isField (flush w l).
Proof.
  intros Hw Hl. destruct w; simpl; [exact Hl |].
  constructor; [split; [discriminate | exact Hw] | exact Hl].
Qed.

(** What the scan returns: a white-space-free prefix of the text, and
    words. *)
Lemma scanFields_spec (s : string) : forall k,
  nospace (fst (scanFields k s)) = true
  /\ Forall isField (snd (scanFields k s))
  /\ exists rest, s = fst (scanFields k s) +:+ rest.
Proof.
  induction s as [|c s IH]; intros k; cbn [scanFields].
  - simpl. repeat split; [constructor | now exists EmptyString].
  - assert (Hskip : forall j,
      nospace (fst (let '(w, l) := scanFields j s in (EmptyString, flush w l))) = true
      /\ Forall isField (snd (let '(w, l) := scanFields j s in (EmptyString, flush w l)))
      /\ exists rest, String c s
           = fst (let '(w, l) := scanFields j s in (EmptyString, flush w l)) +:+ rest).
    { intros j. destruct (IH j) as (Hw & Hl & _).
      destruct (scanFields j s) as [w l]; simpl in *.
      repeat split; [now apply flush_isField | now exists (String c s)]. }
    destruct k as [|k]; [|apply Hskip].
    destruct (spaceWidth (String c s)) as [|j] eqn:Hsp; [|apply Hskip].
    destruct (IH 0%nat) as (Hw & Hl & rest & Hrest).
    destruct (scanFields 0 s) as [w l]; simpl in *.
    repeat split; [| exact Hl | exists rest; now rewrite <- Hrest].
    apply andb_true_iff; split; [|exact Hw].
    apply Nat.eqb_eq.
    destruct (Nat.eq_dec (spaceWidth (String c w)) 0%nat) as [H0|H0]; [exact H0 |].
    pose proof (spaceWidth_app_pos (String c w) rest H0) as Happ.
    simpl append in Happ. rewrite <- Hrest in Happ. congruence.
Qed.

(** [strings.Fields] returns words. *)
Lemma Fields_isField (s : string) : Forall isField (strings_Fields s).
Proof.
  unfold strings_Fields. destruct (scanFields_spec s 0) as (Hw & Hl & _).
  destruct (scanFields 0 s) as [w l]; simpl in *. now apply flush_isField.
Qed.

(** The scan passes over a word that is followed by a plain byte. *)
Lemma scanFields_word (w t : string) :
  nospace w = true -> plainStart t ->
  scanFields 0 (w +:+ t) = (w +:+ fst (scanFields 0 t), snd (scanFields 0 t)).
Proof.
  intros Hw Ht. induction w as [|c w IH]; simpl.
  - now destruct (scanFields 0 t).
  - simpl in Hw. apply andb_true_iff in Hw. destruct Hw as [H0 Hw].
    apply Nat.eqb_eq in H0.
    pose proof (spaceWidth_app_plain (String c w) t) as Hp. simpl append in Hp.
    rewrite Hp, H0 by (congruence || assumption).
    rewrite (IH Hw). reflexivity.
Qed.

Lemma scanFields_space (t : string) :
  scanFields 0 (String " " t)
  = (EmptyString, flush (fst (scanFields 0 t)) (snd (scanFields 0 t))).
Proof.
  cbn [scanFields]. unfold spaceWidth. simpl. now destruct (scanFields 0 t).
Qed.

Lemma scanFields_Join (ws : list string) :
  Forall isField ws ->
  scanFields 0 (strings_Join ws " ")
  = match ws with [] => (EmptyString, []) | w :: rest => (w, rest) end.
Proof.
  induction 1 as [|w ws [Hne Hw] Hws IH]; [reflexivity |].
  destruct ws as [|w2 ws].
  - simpl. rewrite <- (append_empty_r w) at 1.
    rewrite scanFields_word by (assumption || exact I). simpl.
    now rewrite append_empty_r.
  - change (strings_Join (w :: w2 :: ws) " ")
      with (w +:+ " " +:+ strings_Join (w2 :: ws) " ").
    rewrite scanFields_word; [| assumption | simpl; unfold byte; simpl; lia].
    change (" " +:+ strings_Join (w2 :: ws) " ")
      with (String " " (strings_Join (w2 :: ws) " ")).
    rewrite scanFields_space, IH. cbn [fst snd].
    rewrite append_empty_r. f_equal.
    inversion Hws as [|? ? [Hne2 _] _]; subst. now destruct w2.
Qed.

(** Joining words with a space and splitting again gives the words
    back. *)
Lemma Fields_Join (ws : list string) :
  Forall isField ws -> strings_Fields (strings_Join ws " ") = ws.
Proof.
  intros H. unfold strings_Fields. rewrite (scanFields_Join ws H).
  destruct H as [|w ws [Hne _] _]; [reflexivity | now destruct w].
Qed.

(** ** [FormatDurationForThumbnail] *)

Lemma countByte_app (c : ascii) (a b : string) :
  countByte c (a +:+ b) = (countByte c a + countByte c b)%nat.
Proof. induction a as [|x a IH]; simpl; [reflexivity | rewrite IH; lia]. Qed.

(** The decimal digits of a number hold no colon. *)
Lemma countByte_colon_uint (d : Decimal.uint) :
  countByte ":" (NilEmpty.string_of_uint d) = 0%nat.
Proof. induction d; simpl; auto. Qed.

Lemma countByte_colon_decimal (n : N) : countByte ":" (decimal n) = 0%nat.
Proof.
  unfold decimal, NilZero.string_of_uint.
  destruct (N.to_uint n); try apply countByte_colon_uint. reflexivity.
Qed.

Lemma countByte_colon_zeros (k : nat) :
  countByte ":" (string_of_list_ascii (repeat "0"%char k)) = 0%nat.
Proof. induction k; simpl; auto. Qed.

Lemma countByte_colon_fmt_02d (n : Z) : 0 <= n -> countByte ":" (fmt_02d n) = 0%nat.
Proof.
  intros Hn. unfold fmt_02d. destruct (n <? 0) eqn:Hneg; [apply Z.ltb_lt in Hneg; lia |].
  unfold padZeros.
  now rewrite countByte_app, countByte_colon_zeros, countByte_colon_decimal.
Qed.

(** Below one hundred, [%02d] prints exactly two digits. *)
Lemma fmt_02d_twoDigits (n : Z) : 0 <= n < 100 -> fmt_02d n = twoDigits n.
Proof.
  intros Hn.
  assert (Hall : forallb (fun k => String.eqb (fmt_02d (Z.of_nat k)) (twoDigits (Z.of_nat k)))
                   (seq 0 100) = true) by (vm_compute; reflexivity).
  rewrite forallb_forall in Hall.
  specialize (Hall (Z.to_nat n)).
  rewrite Z2Nat.id in Hall by lia.
  apply String.eqb_eq, Hall, in_seq. lia.
Qed.

(** The minutes and the seconds of a positive duration are below sixty. *)
Lemma minutes_secs_range (seconds : Z) :
  0 < seconds ->
  0 <= Z.quot (Z.rem seconds 3600) 60 < 60 /\ 0 <= Z.rem seconds 60 < 60.
Proof.
  intros Hpos.
  rewrite Z.rem_mod_nonneg, Z.quot_div_nonneg by (try apply Z.mod_pos_bound; lia).
  rewrite Z.rem_mod_nonneg by lia.
  pose proof (Z.mod_pos_bound seconds 3600 ltac:(lia)).
  pose proof (Z.mod_pos_bound seconds 60 ltac:(lia)).
  split; [|lia]. split; [apply Z.div_pos; lia | apply Z.div_lt_upper_bound; lia].
Qed.

(** C4.  [FormatDurationForThumbnail] on the four documented inputs; and for
    every number of seconds: a duration that is not positive prints as
    [00:00]; a positive one prints the hours, when the hour count is
    positive, then the minutes and the seconds as two digits each; the result
    has two colons exactly when the hour count is positive, and one
    otherwise. *)
Theorem FormatDurationForThumbnail_spec :
  FormatDurationForThumbnail 0 = "00:00"
  /\ FormatDurationForThumbnail 65 = "01:05"
  /\ FormatDurationForThumbnail 3661 = "01:01:01"
  /\ FormatDurationForThumbnail (-5) = "00:00"
  /\ forall seconds : Z,
       let hours := Z.quot seconds 3600 in
       let minutes := Z.quot (Z.rem seconds 3600) 60 in
       let secs := Z.rem seconds 60 in
       (seconds <= 0 -> FormatDurationForThumbnail seconds = "00:00")
       /\ (0 < seconds ->
           FormatDurationForThumbnail seconds
           = (if hours >? 0 then fmt_02d hours +:+ ":" else EmptyString)
             +:+ twoDigits minutes +:+ ":" +:+ twoDigits secs)
       /\ countByte ":" (FormatDurationForThumbnail seconds)
          = (if hours >? 0 then 2%nat else 1%nat).
Proof.
  repeat (split; [reflexivity |]).
  intros seconds hours minutes secs.
  assert (Hnonpos : seconds <= 0 -> FormatDurationForThumbnail seconds = "00:00").
  { intros H. unfold FormatDurationForThumbnail.
    now destruct (seconds <=? 0) eqn:Hle; [| apply Z.leb_gt in Hle; lia]. }
  assert (Hpos : 0 < seconds ->
           FormatDurationForThumbnail seconds
           = (if hours >? 0 then fmt_02d hours +:+ ":" else EmptyString)
             +:+ twoDigits minutes +:+ ":" +:+ twoDigits secs).
  { intros H. unfold FormatDurationForThumbnail.
    destruct (seconds <=? 0) eqn:Hle; [apply Z.leb_le in Hle; lia |].
    destruct (minutes_secs_range seconds H) as [Hm Hs].
    fold hours minutes secs.
    rewrite (fmt_02d_twoDigits minutes), (fmt_02d_twoDigits secs) by lia.
    destruct (hours >? 0); [now rewrite append_assoc | reflexivity]. }
  split; [exact Hnonpos | split; [exact Hpos |]].
  destruct (Z_le_gt_dec seconds 0) as [Hle|Hgt].
  - rewrite (Hnonpos Hle).
    assert (hours <= 0).
    { unfold hours. replace seconds with (- (- seconds)) by lia.
      rewrite Z.quot_opp_l by lia.
      pose proof (Z.quot_pos (- seconds) 3600 ltac:(lia) ltac:(lia)). lia. }
    now destruct (hours >? 0) eqn:Hh; [apply Z.gtb_lt in Hh; lia |].
  - rewrite (Hpos ltac:(lia)).
    destruct (minutes_secs_range seconds ltac:(lia)) as [Hm Hs].
    fold minutes secs in Hm, Hs.
    rewrite <- (fmt_02d_twoDigits minutes), <- (fmt_02d_twoDigits secs) by lia.
    destruct (hours >? 0) eqn:Hh.
    + apply Z.gtb_lt in Hh.
      rewrite !countByte_app, !countByte_colon_fmt_02d by lia. reflexivity.
    + rewrite !countByte_app, !countByte_colon_fmt_02d by lia. reflexivity.
Qed.

(** ** The request key *)

(** A text that holds no colon ends at the first colon of what it starts. *)
Lemma split_at_colon (a b x y : string) :
  hasByte ":" a = false -> hasByte ":" b = false ->
  a +:+ ":" +:+ x = b +:+ ":" +:+ y -> a = b /\ x = y.
Proof.
  revert b. induction a as [|c a IH]; intros [|d b] Ha Hb Heq; simpl in *.
  - now inversion Heq.
  - inversion Heq; subst. apply orb_false_iff in Hb. destruct Hb as [Hd _].
    now rewrite Ascii.eqb_refl in Hd.
  - inversion Heq; subst. apply orb_false_iff in Ha. destruct Ha as [Hc _].
    now rewrite Ascii.eqb_refl in Hc.
  - inversion Heq; subst.
    apply orb_false_iff in Ha, Hb. destruct Ha as [_ Ha], Hb as [_ Hb].
    destruct (IH b Ha Hb H1) as [-> ->]. now split.
Qed.

Lemma split_at_colon_or (a b x y : string) :
  a = b \/ (hasByte ":" a = false /\ hasByte ":" b = false) ->
  a +:+ ":" +:+ x = b +:+ ":" +:+ y -> a = b /\ x = y.
Proof.
  intros [-> | [Ha Hb]] Heq.
  - split; [reflexivity |].
    apply (String.app_inj b) in Heq. now inversion Heq.
  - now apply split_at_colon.
Qed.

(** C9 (the counterexample).  Two requests for the same picture that differ
    in title and duration have the same key. *)
Lemma cacheKey_collision :
  cacheKey "http://img/a" "Live: Part 1" "3:45"
  = cacheKey "http://img/a" "Live" " Part 1:3:45"
  /\ ("http://img/a", "Live: Part 1", "3:45") <> ("http://img/a", "Live", " Part 1:3:45").
Proof. split; [reflexivity | discriminate]. Qed.

(** C9 (as amended).  The key is a function of the triple, and it tells two
    triples apart when their urls are equal or hold no colon, and their
    titles are equal or hold no colon: then the keys are equal exactly when
    the triples are. *)
Theorem cacheKey_injective_up_to_colons (u1 t1 d1 u2 t2 d2 : string) :
  u1 = u2 \/ (hasByte ":" u1 = false /\ hasByte ":" u2 = false) ->
  t1 = t2 \/ (hasByte ":" t1 = false /\ hasByte ":" t2 = false) ->
  cacheKey u1 t1 d1 = cacheKey u2 t2 d2 <-> (u1, t1, d1) = (u2, t2, d2).
Proof.
  intros Hu Ht. split.
  - unfold cacheKey. intros Heq.
    destruct (split_at_colon_or _ _ _ _ Hu Heq) as [-> Heq'].
    destruct (split_at_colon_or _ _ _ _ Ht Heq') as [-> ->]. reflexivity.
  - now inversion 1.
Qed.

(** C9, at an instance: the same url, a title without a colon. *)
Lemma cacheKey_injective_witness :
  (cacheKey "http://img/a" "Live" "3:45" = cacheKey "http://img/a" "Live" "3:45"
   <-> ("http://img/a", "Live", "3:45") = ("http://img/a", "Live", "3:45")).
Proof.
  apply (cacheKey_injective_up_to_colons
           "http://img/a" "Live" "3:45" "http://img/a" "Live" "3:45").
  - left. reflexivity.
  - right. split; reflexivity.
Defined.

(** ** [ProcessThumbnail] *)

(** C10.  For the empty url [ProcessThumbnail] returns the empty path and no
    error, and leaves the world as it was: the cache is not read, the clock
    is not read, nothing is fetched, drawn or written. *)
Theorem ProcessThumbnail_empty_url (E : Env) (title duration : string) (w : World) :
  ProcessThumbnail E EmptyString title duration w = Some ((EmptyString, None), w).
Proof. reflexivity. Qed.

(** The look-up reads the clock once and nothing else. *)
Lemma thumbnailCache_Get_run (E : Env) (key : string) (w : World) :
  thumbnailCache_Get E key w
  = Some (Cache_Get (thumbnailCache w) (clock E (ticks w)) key, tick w).
Proof. reflexivity. Qed.

(** [ProcessThumbnail] after the look-up, case by case. *)
Lemma ProcessThumbnail_run (E : Env) (url title duration : string) (w : World) :
  url <> EmptyString ->
  ProcessThumbnail E url title duration w
  = match Cache_Get (thumbnailCache w) (clock E (ticks w)) (cacheKey url title duration) with
    | Some cached =>
        if bool_decide (is_Some (files w !! cached)) then Some ((cached, None), tick w)
        else regenerate E (cacheKey url title duration) url title duration (tick w)
    | None => regenerate E (cacheKey url title duration) url title duration (tick w)
    end.
Proof.
  intros Hurl. unfold ProcessThumbnail.
  destruct url as [|c url]; [congruence |]. cbn [isEmpty].
  unfold bind at 1. rewrite thumbnailCache_Get_run.
  destruct (Cache_Get _ _ _) as [cached|]; [| reflexivity].
  unfold bind, fileExists. cbn [files tick].
  now destruct (bool_decide _).
Qed.

(** A path [saveImage] returned without error is a file afterwards. *)
Lemma saveImage_creates (E : Env) (img : Image) (path : string) (quality : Z) (w w' : World) :
  saveImage E img path quality w = Some (None, w') ->
  is_Some (files w' !! path)
  /\ thumbnailCache w' = thumbnailCache w /\ ticks w' = ticks w.
Proof.
  unfold saveImage, bind, emit, setFiles, ret.
  destruct (disk E path); intros H; inversion H; subst; clear H; cbn.
  rewrite lookup_insert_eq. eauto.
Qed.

(** What [regenerate] returns without error is the path of a file. *)
Lemma regenerate_returns_file (E : Env) (key url title duration : string)
  (w w' : World) (p : string) :
  regenerate E key url title duration w = Some ((p, None), w') ->
  is_Some (files w' !! p).
Proof.
  unfold regenerate. unfold bind at 1.
  destruct (downloadImage E url w) as [[[img|err] w1]|]; [| | discriminate].
  2: { unfold bind, logger_ErrorF, emit, ret. intros H. inversion H. }
  destruct (negb (config_ThumbnailOverlay E)).
  - unfold bind at 1. unfold generateOutputPath at 1, bind at 1, time_Now, ret.
    unfold bind at 1.
    destruct (saveImage E img _ 95 _) as [[[e|] w2]|] eqn:Hsave; [| | discriminate].
    + unfold ret. intros H. inversion H.
    + apply saveImage_creates in Hsave. destruct Hsave as (Hfile & _).
      unfold bind, thumbnailCache_Set, bind, time_Now, setCache, ret.
      intros H. inversion H; subst. exact Hfile.
  - unfold bind at 1.
    destruct (addOverlay E img _ w1) as [[[processed [e|]] w2]|]; [| | discriminate].
    + unfold bind, logger_ErrorF, emit, ret. intros H. inversion H.
    + unfold bind at 1. unfold generateOutputPath at 1, bind at 1, time_Now, ret.
      unfold bind at 1.
      destruct (saveImage E processed _ _ _) as [[[e|] w3]|] eqn:Hsave; [| | discriminate].
      * unfold ret. intros H. inversion H.
      * apply saveImage_creates in Hsave. destruct Hsave as (Hfile & _).
        unfold bind, thumbnailCache_Set, bind, time_Now, setCache, ret.
        intros H. inversion H; subst. exact Hfile.
Qed.

(** A download that fails: one GET, one line in the log, the error
    returned, the cache and the files untouched. *)
Lemma downloadImage_fails (E : Env) (url : string) (err : error) (w : World) :
  downloadFails E url err ->
  downloadImage E url w
  = Some (inr err,
          {| thumbnailCache := thumbnailCache w; files := files w; ticks := ticks w;
             trace := trace w ++ [EvHttpGet (CleanURL E url)] |}).
Proof.
  intros Hfail. unfold downloadImage, bind, emit, ret.
  destruct Hfail as [cause Hget | resp Hget Hst | resp Hget Hst Hbody
                    | resp data Hget Hst Hbody Hdec]; rewrite Hget.
  - reflexivity.
  - apply Z.eqb_neq in Hst. now rewrite Hst.
  - apply Z.eqb_eq in Hst. now rewrite Hst, Hbody.
  - apply Z.eqb_eq in Hst. now rewrite Hst, Hbody, Hdec.
Qed.

Lemma regenerate_download_fails (E : Env) (key url title duration : string)
  (err : error) (w : World) :
  downloadFails E url err ->
  regenerate E key url title duration w
  = Some ((EmptyString, Some err),
          {| thumbnailCache := thumbnailCache w; files := files w; ticks := ticks w;
             trace := trace w ++ [EvHttpGet (CleanURL E url);
                                  EvLog "Failed to download thumbnail: %v"] |}).
Proof.
  intros Hfail. unfold regenerate. unfold bind at 1.
  rewrite (downloadImage_fails E url err w Hfail).
  unfold bind, logger_ErrorF, emit, ret. cbn.
  now rewrite <- app_assoc.
Qed.



(** C2.  For a request with a url whose look-up misses, when the download
    step fails, [ProcessThumbnail] returns the empty path with the error of
    the failure; the cache and the files are as before, and the events added
    are one GET and one line in the log: nothing is tried again, and no
    entry is set. *)
Theorem ProcessThumbnail_download_fails (E : Env) (url title duration : string)
  (err : error) (w : World) :
  url <> EmptyString ->
  cacheMiss w (clock E (ticks w)) (cacheKey url title duration) ->
  downloadFails E url err ->
  exists w',
    ProcessThumbnail E url title duration w = Some ((EmptyString, Some err), w')
    /\ thumbnailCache w' = thumbnailCache w
    /\ files w' = files w
    /\ trace w' = trace w ++ [EvHttpGet (CleanURL E url);
                              EvLog "Failed to download thumbnail: %v"].
Proof.
  intros Hurl Hmiss Hfail. unfold cacheMiss in Hmiss.
  rewrite (ProcessThumbnail_run E url title duration w Hurl).
  assert (Hgo : regenerate E (cacheKey url title duration) url title duration (tick w)
                = Some ((EmptyString, Some err),
                        {| thumbnailCache := thumbnailCache w; files := files w;
                           ticks := S (ticks w);
                           trace := trace w ++ [EvHttpGet (CleanURL E url);
                                                EvLog "Failed to download thumbnail: %v"] |}))
    by apply (regenerate_download_fails E _ url title duration err (tick w) Hfail).
  destruct (Cache_Get _ _ _) as [cached|].
  - rewrite bool_decide_eq_false_2 by (rewrite Hmiss; now intros [? ?]).
    eexists. split; [exact Hgo | now repeat split].
  - eexists. split; [exact Hgo | now repeat split].
Qed.

(** C2, at an instance: the address that answers 404. *)
Lemma ProcessThumbnail_download_fails_witness :
  exists w',
    ProcessThumbnail exampleEnv "http://img/404" "Song" "3:45" staleWorld
    = Some ((EmptyString, Some (errBadStatus "404 Not Found")), w')
    /\ thumbnailCache w' = thumbnailCache staleWorld
    /\ files w' = files staleWorld
    /\ trace w' = trace staleWorld ++ [EvHttpGet "http://img/404";
                                       EvLog "Failed to download thumbnail: %v"].
Proof.
  apply (ProcessThumbnail_download_fails exampleEnv "http://img/404" "Song" "3:45"
           (errBadStatus "404 Not Found") staleWorld).
  - discriminate.
  - vm_compute. exact I.
  - apply (fails_status exampleEnv "http://img/404"
             (mkResponse 404 "404 Not Found" (Some EmptyString))).
    + reflexivity.
    + discriminate.
Defined.

(** ** [loadFont] *)

Lemma LoadFontFace_run (E : Env) (dc : Context) (path : string) (size : Q) (w : World) :
  LoadFontFace E dc path size w
  = Some (if usableFont E (files w) size path
          then (setFontFace dc (TrueType path size), None)
          else (dc, Some errLoadFontFace), w).
Proof. unfold LoadFontFace, usableFont. now destruct (_ && _). Qed.

(** The loop over the default paths stops at the first one that can be
    used. *)
Lemma loadFontFrom_run (E : Env) (dc : Context) (size : Q) (w : World) (paths : list string) :
  loadFontFrom E paths dc size w
  = Some (withFont dc size (List.find (usableFont E (files w) size) paths), w).
Proof.
  induction paths as [|p paths IH]; [reflexivity |].
  cbn [loadFontFrom List.find]. unfold bind at 1, fileExists at 1.
  unfold usableFont at 1.
  destruct (bool_decide (is_Some (files w !! p))) eqn:Hex; cbn [andb].
  - unfold bind at 1. rewrite LoadFontFace_run. unfold usableFont at 1. rewrite Hex.
    cbn [andb]. destruct (fontLoads E p size); [reflexivity | exact IH].
  - exact IH.
Qed.

(** [find] returns the first element that passes. *)
Lemma find_first {A} (f : A -> bool) (l : list A) (i : nat) (x : A) :
  l !! i = Some x -> f x = true ->
  (forall j y, (j < i)%nat -> l !! j = Some y -> f y = false) ->
  List.find f l = Some x.
Proof.
  revert i. induction l as [|a l IH]; intros [|i] Hi Hx Hbefore; simpl in *; try discriminate.
  - inversion Hi; subst. now rewrite Hx.
  - rewrite (Hbefore 0%nat a) by (lia || reflexivity).
    apply (IH i Hi Hx). intros j y Hj Hy. apply (Hbefore (S j) y); [lia | exact Hy].
Qed.

Lemma find_none_all {A} (f : A -> bool) (l : list A) :
  (forall x, In x l -> f x = false) -> List.find f l = None.
Proof.
  induction l as [|a l IH]; intros H; simpl; [reflexivity |].
  rewrite (H a) by now left. apply IH. intros x Hx. apply H. now right.
Qed.

(** [loadFont], run: the configured font when it can be used, else the
    first default that can; a line in the log when the configured file is
    there and does not load. *)
Lemma loadFont_run (E : Env) (dc : Context) (size : Q) (w : World) :
  loadFont E dc size w
  = if customFontUsable E (files w) size
    then Some (withFont dc size (Some (config_ThumbnailFont E)), w)
    else Some (withFont dc size (List.find (usableFont E (files w) size) defaultFontPaths),
               if negb (isEmpty (config_ThumbnailFont E))
                  && bool_decide (is_Some (files w !! config_ThumbnailFont E))
               then addEvents w [EvLog "Failed to load custom font %s: trying defaults"]
               else w).
Proof.
  unfold loadFont, customFontUsable, usableFont.
  destruct (negb (isEmpty (config_ThumbnailFont E))); cbn [andb].
  - unfold bind at 1, fileExists at 1.
    destruct (bool_decide (is_Some (files w !! config_ThumbnailFont E))) eqn:Hex; cbn [andb].
    + unfold bind at 1. rewrite LoadFontFace_run. unfold usableFont. rewrite Hex. cbn [andb].
      destruct (fontLoads E (config_ThumbnailFont E) size); [reflexivity |].
      unfold bind, logger_WarnF, emit. now rewrite loadFontFrom_run.
    + now rewrite loadFontFrom_run.
  - unfold bind, ret. now rewrite loadFontFrom_run.
Qed.

(** C7.  The six default paths, in order; and for every context, size and
    world, [loadFont] returns, leaving cache and files as they were, with:
    the configured font, when it can be used (its path is not empty, the file
    exists and it loads), and only then; otherwise the first default path
    whose file exists and loads; and the error [errNoFont], the context
    unchanged, when no default can be used either. *)
Theorem loadFont_resolution (E : Env) (dc : Context) (size : Q) (w : World) :
  defaultFontPaths
  = [ "/usr/share/fonts/truetype/dejavu/DejaVuSans-Bold.ttf";
      "/usr/share/fonts/truetype/dejavu/DejaVuSans.ttf";
      "/usr/share/fonts/dejavu/DejaVuSans-Bold.ttf";
      "/usr/share/fonts/truetype/liberation/LiberationSans-Bold.ttf";
      "/System/Library/Fonts/Helvetica.ttc";
      "/usr/share/fonts/truetype/ubuntu/Ubuntu-Bold.ttf" ]
  /\ exists r w',
       loadFont E dc size w = Some (r, w')
       /\ thumbnailCache w' = thumbnailCache w /\ files w' = files w
       /\ (customFontUsable E (files w) size = true <->
           r = (setFontFace dc (TrueType (config_ThumbnailFont E) size), None))
       /\ (customFontUsable E (files w) size = false ->
           forall i path,
             defaultFontPaths !! i = Some path ->
             usableFont E (files w) size path = true ->
             (forall j other, (j < i)%nat -> defaultFontPaths !! j = Some other ->
                              usableFont E (files w) size other = false) ->
             r = (setFontFace dc (TrueType path size), None))
       /\ (noFont E (files w) size -> r = (dc, Some errNoFont)).
Proof.
  split; [reflexivity |].
  rewrite loadFont_run.
  destruct (customFontUsable E (files w) size) eqn:Hc.
  - eexists _, _. split; [reflexivity |]. repeat split; try congruence.
    intros [Hno _]. congruence.
  - eexists _, _. split; [reflexivity |].
    split; [now destruct (_ && _) |]. split; [now destruct (_ && _) |].
    split; [split; [discriminate |] | split].
    + intros Heq. exfalso.
      destruct (List.find _ defaultFontPaths) as [p|] eqn:Hfind; [| discriminate].
      apply find_some in Hfind. destruct Hfind as [Hin Hus].
      cbn [withFont] in Heq. inversion Heq as [[Hface]].
      unfold customFontUsable in Hc. rewrite <- Hface, Hus, andb_true_r in Hc.
      apply negb_false_iff, isEmpty_true in Hc. subst p.
      simpl in Hin. intuition discriminate.
    + intros _ i path Hi Hus Hbefore. now rewrite (find_first _ _ i path Hi Hus Hbefore).
    + intros [_ Hno]. now rewrite (find_none_all _ _ Hno).
Qed.

(** On a machine that has the second default font only, that one is
    loaded. *)
Example loadFont_example :
  loadFont exampleEnv (NewContextForImage (Bitmap EmptyString 10 10)) (40 # 1) freshWorld
  = Some ((setFontFace (NewContextForImage (Bitmap EmptyString 10 10))
             (TrueType "/usr/share/fonts/truetype/dejavu/DejaVuSans.ttf" (40 # 1)), None),
          freshWorld).
Proof. vm_compute. reflexivity. Qed.

(** ** The gradient of [addOverlay] *)

Lemma gradientHeight_ceiling (height : N) :
  Qceiling (float64 height * (1 # 4)) = gradientRowCount height.
Proof.
  unfold gradientRowCount, Qceiling, Qfloor, float64. simpl.
  rewrite Z.mul_1_r. Z.div_mod_to_equations. lia.
Qed.

(** The guard of the loop, on whole numbers. *)
Lemma gradient_guard (height : N) (i : Z) :
  (inject_Z i < float64 height * (1 # 4))%Q <-> i < gradientRowCount height.
Proof.
  rewrite <- gradientHeight_ceiling. split; intros H.
  - rewrite Zlt_Qlt. eapply Qlt_le_trans; [exact H | apply Qle_ceiling].
  - eapply Qle_lt_trans; [| apply Qceiling_lt].
    rewrite <- Zle_Qle. lia.
Qed.

(** The loop draws the rows from [i] on, one rectangle each, and stops by
    its guard when the budget is larger than the number of rows left. *)
Lemma gradientLoop_run (width height : N) (k : nat) :
  forall (fuel : nat) (i : Z) (dc : Context),
    Z.to_nat (gradientRowCount height - i) = k -> (k < fuel)%nat ->
    ctx_path dc = [] ->
    exists dc',
      gradientLoop fuel i (float64 height * (1 # 4)) width height dc = Some dc'
      /\ ctx_base dc' = ctx_base dc
      /\ ctx_ops dc' = ctx_ops dc
                       ++ map (gradientRow width height) (seqZ i (gradientRowCount height - i))
      /\ ctx_path dc' = []
      /\ ctx_fontFace dc' = ctx_fontFace dc.
Proof.
  induction k as [|k IH]; intros fuel i dc Hk Hfuel Hpath;
    (destruct fuel as [|fuel]; [lia |]); cbn [gradientLoop].
  - destruct (Qlt_le_dec _ _) as [Hlt|Hge].
    + apply gradient_guard in Hlt. lia.
    + exists dc. rewrite seqZ_nil by lia. cbn [map]. rewrite app_nil_r. auto.
  - destruct (Qlt_le_dec _ _) as [Hlt|Hge].
    2: { exfalso. apply Qle_not_lt in Hge. apply Hge, gradient_guard. lia. }
    edestruct (IH fuel (i + 1)) as (dc' & Hrun & Hbase & Hops & Hp & Hface);
      [lia | lia | | exists dc'; split; [exact Hrun |]].
    + cbn. reflexivity.
    + cbn in Hbase, Hops, Hface. rewrite Hpath in Hops. cbn in Hops.
      repeat split; try assumption.
      rewrite Hops, <- app_assoc. f_equal.
      rewrite (seqZ_cons i) by lia. cbn [map].
      now replace (Z.pred (gradientRowCount height - i))
        with (gradientRowCount height - (i + 1)) by lia.
Qed.

(** The alpha of a row is a byte. *)
Lemma gradientAlpha_byte (height : N) (i : Z) : 0 <= gradientAlpha height i < 256.
Proof. unfold gradientAlpha, uint8. apply Z.mod_pos_bound. lia. Qed.

(** What the check of the rows says of each of them. *)
Lemma rampOK_rows (height : N) (n : nat) :
  forall i prev,
    rampOK height n i prev = true ->
    forall k, i <= k < i + Z.of_nat n ->
      prev <= gradientAlpha height k
      /\ gradientAlpha height k < 180
      /\ onRamp height k (gradientAlpha height k) = true
      /\ forall j, k <= j < i + Z.of_nat n -> gradientAlpha height k <= gradientAlpha height j.
Proof.
  induction n as [|n IH]; intros i prev H k Hk; [lia |].
  cbn [rampOK] in H. cbv zeta in H.
  apply andb_true_iff in H as [H Hrest]. apply andb_true_iff in H as [H Hramp].
  apply andb_true_iff in H as [Hprev Hlt].
  apply Z.leb_le in Hprev. apply Z.ltb_lt in Hlt.
  specialize (IH (i + 1) (gradientAlpha height i) Hrest).
  destruct (Z.eq_dec k i) as [-> | Hne].
  - repeat split; try assumption.
    intros j Hj. destruct (Z.eq_dec j i) as [-> | Hji]; [lia |].
    now destruct (IH j ltac:(lia)) as (Hle & _).
  - destruct (IH k ltac:(lia)) as (Hle & Hk180 & Hkramp & Hmono).
    repeat split; try assumption; [lia |].
    intros j Hj. apply Hmono. lia.
Qed.

(** Every height up to 720, row by row, in binary64. *)
Lemma ramps_checked : rampsOK 720 = true.
Proof. vm_compute. reflexivity. Qed.

(** The alpha of the rows of a picture at most 720 high: below 180, [0] on
    the first row, on the ramp [720 * i / height] with its fraction dropped,
    or one below it on a row where the ramp is whole, and not decreasing. *)
Lemma gradientAlpha_ramp (height : N) (i : Z) :
  (height <= 720)%N ->
  0 <= i < gradientRowCount height ->
  0 <= gradientAlpha height i < 180
  /\ (i = 0 -> gradientAlpha height i = 0)
  /\ (gradientAlpha height i = 720 * i / Z.of_N height
      \/ (gradientAlpha height i = 720 * i / Z.of_N height - 1
          /\ (720 * i) mod Z.of_N height = 0))
  /\ (forall j, i <= j < gradientRowCount height ->
                gradientAlpha height i <= gradientAlpha height j).
Proof.
  intros Hh Hi.
  pose proof ramps_checked as Hall. unfold rampsOK in Hall.
  rewrite forallb_forall in Hall.
  specialize (Hall (N.to_nat height)). rewrite N2Nat.id in Hall.
  assert (Hin : In (N.to_nat height) (seq 0 721)) by (apply in_seq; lia).
  specialize (Hall Hin).
  assert (Hcount : 0 <= gradientRowCount height)
    by (unfold gradientRowCount; Z.div_mod_to_equations; lia).
  destruct (rampOK_rows height _ 0 0 Hall i) as (Hge & Hlt & Hramp & Hmono);
    [rewrite Z2Nat.id by lia; lia |].
  rewrite Z2Nat.id in Hmono by lia.
  assert (Hcases : gradientAlpha height i = 720 * i / Z.of_N height
                   \/ (gradientAlpha height i = 720 * i / Z.of_N height - 1
                       /\ (720 * i) mod Z.of_N height = 0)).
  { unfold onRamp in Hramp. apply orb_true_iff in Hramp as [H | H].
    - left. now apply Z.eqb_eq in H.
    - right. apply andb_true_iff in H as [H1 H2].
      apply Z.eqb_eq in H1, H2. now split. }
  split; [lia |]. split; [| split; [exact Hcases | exact Hmono]].
  intros ->. destruct Hcases as [H | [H _]]; rewrite Z.mul_0_r, Zdiv_0_l in H.
  - exact H.
  - lia.
Qed.


(** The rows the loop draws, for every picture: their number and their
    place. *)
Lemma gradientLoop_rows (img : Image) :
  let width := Dx img in
  let height := Dy img in
  exists dc',
    gradientLoop (S (N.to_nat height)) 0 (float64 height * (1 # 4)) width height
      (NewContextForImage img) = Some dc'
    /\ ctx_ops dc' = map (gradientRow width height) (seqZ 0 (gradientRowCount height))
    /\ length (ctx_ops dc') = Z.to_nat (gradientRowCount height)
    /\ (float64 height - float64 height * (1 # 4) == float64 height * (3 # 4))%Q
    /\ (float64 height <= float64 height * (3 # 4) + inject_Z (gradientRowCount height))%Q
    /\ forall i, 0 <= i < gradientRowCount height ->
         gradientRow width height i
         = FillRect (mkRGBA 0 0 0 (gradientAlpha height i)) 0%Q
             (float64 height - float64 height * (1 # 4) + inject_Z i)%Q (float64 width) 1%Q
         /\ (float64 height * (3 # 4) + inject_Z i < float64 height)%Q
         /\ 0 <= gradientAlpha height i < 256.
Proof.
  intros width height.
  assert (Hcount : 0 <= gradientRowCount height <= Z.of_N height).
  { unfold gradientRowCount. Z.div_mod_to_equations. lia. }
  destruct (gradientLoop_run width height (Z.to_nat (gradientRowCount height - 0))
              (S (N.to_nat height)) 0 (NewContextForImage img))
    as (dc' & Hrun & _ & Hops & _); [reflexivity | lia | reflexivity |].
  cbn in Hops. rewrite Z.sub_0_r in Hops.
  exists dc'. split; [exact Hrun |]. split; [exact Hops |].
  split; [rewrite Hops, length_map, length_seqZ; reflexivity |].
  split; [unfold float64; ring |].
  split.
  { unfold float64, Qle. simpl. unfold gradientRowCount in *.
    Z.div_mod_to_equations. lia. }
  intros i Hi. split; [reflexivity |].
  split; [| apply gradientAlpha_byte].
  unfold float64, Qlt. simpl. unfold gradientRowCount in *.
  Z.div_mod_to_equations. lia.
Qed.

(** ** [wrapText] *)

Lemma lineOf_snoc (g : list string) (w : string) :
  g <> [] -> lineOf (g ++ [w]) = lineOf g +:+ " " +:+ w.
Proof.
  unfold lineOf. induction g as [|a g IH]; [congruence |]; intros _.
  destruct g as [|b g]; [reflexivity |].
  change (strings_Join ((a :: b :: g) ++ [w]) " ")
    with (a +:+ " " +:+ strings_Join ((b :: g) ++ [w]) " ").
  rewrite IH by discriminate.
  change (strings_Join (a :: b :: g) " ") with (a +:+ " " +:+ strings_Join (b :: g) " ").
  now rewrite !append_assoc.
Qed.

Lemma lineOf_not_empty (g : list string) :
  g <> [] -> Forall isField g -> isEmpty (lineOf g) = false.
Proof.
  intros Hg Hf. destruct Hf as [|w g [Hw _] _]; [congruence |].
  unfold lineOf. destruct w; [congruence |]. now destruct g.
Qed.

(** A line is at least as long as the number of its words. *)
Lemma lineOf_length (g : list string) :
  Forall isField g -> (length g <= String.length (lineOf g))%nat.
Proof.
  unfold lineOf. induction 1 as [|w g [Hw _] _ IH]; [reflexivity |].
  assert (1 <= String.length w)%nat by (destruct w; [congruence | simpl; lia]).
  destruct g as [|b g]; [simpl; lia |].
  change (strings_Join (w :: b :: g) " ") with (w +:+ " " +:+ strings_Join (b :: g) " ").
  rewrite !append_length. simpl String.length at 2. simpl length in *. lia.
Qed.

(** The loop over the words refines the greedy wrap of the
    specification. *)
Lemma wrapWords_greedy (E : Env) (dc : Context) (maxWidth : Q) (words : list string) :
  forall (g : list string) (lines : list string),
    g <> [] -> Forall isField g -> Forall isField words ->
    let r := wrapWords E dc maxWidth words lines (lineOf g) in
    fst r ++ [snd r] = lines ++ map lineOf (greedyFrom (fitsIn E dc maxWidth) g words)
    /\ isEmpty (snd r) = false.
Proof.
  induction words as [|w words IH]; intros g lines Hg Hfg Hfw; cbn zeta.
  - cbn. split; [reflexivity | now apply lineOf_not_empty].
  - inversion Hfw as [|? ? Hw Hfw']; subst.
    cbn [wrapWords greedyFrom].
    rewrite (lineOf_not_empty g Hg Hfg). cbn [negb andb].
    rewrite append_assoc, <- (lineOf_snoc g w Hg), andb_true_r.
    fold (fitsIn E dc maxWidth (lineOf (g ++ [w]))).
    destruct (fitsIn E dc maxWidth (lineOf (g ++ [w]))); cbn [negb].
    + apply IH; [now destruct g | apply Forall_app; split; [exact Hfg | now constructor]
                | exact Hfw'].
    + destruct (IH [w] (lines ++ [lineOf g])) as [Hl He];
        [discriminate | now constructor | exact Hfw' |].
      change (lineOf [w]) with w in Hl, He.
      split; [| exact He]. rewrite Hl, <- app_assoc. reflexivity.
Qed.

(** All the lines [wrapText] has after its first loop. *)
Lemma wrapWords_lines (E : Env) (dc : Context) (maxWidth : Q) (words : list string) :
  Forall isField words -> words <> [] ->
  let r := wrapWords E dc maxWidth words [] EmptyString in
  (if negb (isEmpty (snd r)) then fst r ++ [snd r] else fst r)
  = map lineOf (greedyLines (fitsIn E dc maxWidth) words).
Proof.
  intros Hf Hne. destruct words as [|w words]; [congruence |].
  inversion Hf as [|? ? Hw Hf']; subst.
  cbn [wrapWords greedyLines isEmpty negb andb]. rewrite andb_false_r.
  change (EmptyString +:+ w) with (lineOf [w]).
  destruct (wrapWords_greedy E dc maxWidth words [w] []) as [Hl He];
    [discriminate | now constructor | exact Hf' |].
  cbn zeta. rewrite He. cbn [negb]. exact Hl.
Qed.

(** *** The greedy wrap *)

Lemma greedyFrom_head (fits : string -> bool) (words : list string) :
  forall g, exists g' rest, greedyFrom fits g words = (g ++ g') :: rest.
Proof.
  induction words as [|w words IH]; intros g; cbn [greedyFrom].
  - exists [], []. now rewrite app_nil_r.
  - destruct (fits _).
    + destruct (IH (g ++ [w])) as (g' & rest & ->).
      exists (w :: g'), rest. now rewrite <- app_assoc.
    + exists [], (greedyFrom fits [w] words). now rewrite app_nil_r.
Qed.

Lemma accumulated_snoc (fits : string -> bool) (g : list string) (w : string) :
  accumulated fits g -> fits (lineOf (g ++ [w])) = true -> accumulated fits (g ++ [w]).
Proof.
  intros Hacc Hfit j Hj. rewrite length_app in Hj. cbn in Hj.
  destruct (Nat.eq_dec j (S (length g))) as [-> | Hne].
  - rewrite take_ge by (rewrite length_app; cbn; lia). exact Hfit.
  - rewrite take_app_le by lia. apply Hacc. lia.
Qed.

Lemma greedyFrom_isGreedyWrap (fits : string -> bool) (words : list string) :
  forall g, g <> [] -> accumulated fits g ->
            isGreedyWrap fits (g ++ words) (greedyFrom fits g words).
Proof.
  induction words as [|w words IH]; intros g Hg Hacc; cbn [greedyFrom].
  - unfold isGreedyWrap. cbn. repeat split; auto.
  - destruct (fits (lineOf (g ++ [w]))) eqn:Hfit.
    + replace (g ++ w :: words) with ((g ++ [w]) ++ words) by now rewrite <- app_assoc.
      apply IH; [now destruct g | now apply accumulated_snoc].
    + destruct (IH [w]) as (Hcat & Hne & Hall & Hbr).
      { discriminate. } { intros j Hj. cbn in Hj. lia. }
      destruct (greedyFrom_head fits words [w]) as (g' & rest & Heq).
      rewrite Heq in *. unfold isGreedyWrap. cbn [concat app] in *.
      split; [now rewrite Hcat |]. split; [now constructor |].
      split; [now constructor |].
      cbn. split; [exact Hfit | exact Hbr].
Qed.

Lemma greedyLines_isGreedyWrap (fits : string -> bool) (words : list string) :
  isGreedyWrap fits words (greedyLines fits words).
Proof.
  destruct words as [|w words]; cbn [greedyLines].
  - unfold isGreedyWrap. cbn. auto.
  - apply (greedyFrom_isGreedyWrap fits words [w]); [discriminate |].
    intros j Hj. cbn in Hj. lia.
Qed.

(** *** The shortening loop *)

(** On a line of [k] words of [g] the loop returns within [k] rounds, with
    the second line replaced by the longest run that fits with the dots, or
    with the lines as they were. *)
Lemma ellipsisLoop_run (E : Env) (dc : Context) (maxWidth : Q) (lines : list string)
  (g : list string) :
  Forall isField g ->
  forall k fuel, (1 <= k <= length g)%nat -> (k <= fuel)%nat ->
    ellipsisLoop E fuel dc maxWidth lines (lineOf (take k g))
    = Some (match ellipsized (fitsIn E dc maxWidth) g k with
            | Some line => <[1%nat := line]> lines
            | None => lines
            end).
Proof.
  intros Hf. induction k as [|k IH]; intros fuel Hk Hfuel; [lia |].
  destruct fuel as [|fuel]; [lia |].
  cbn [ellipsisLoop ellipsized].
  fold (fitsIn E dc maxWidth (lineOf (take (S k) g) +:+ "...")).
  fold (withDots g (S k)).
  destruct (fitsIn E dc maxWidth (withDots g (S k))); [reflexivity |].
  unfold lineOf in *. rewrite Fields_Join by now apply Forall_take.
  rewrite length_take, Nat.min_l by lia.
  destruct k as [|k]; [reflexivity |].
  replace (S (S k) <=? 1)%nat with false by (symmetry; apply Nat.leb_gt; lia).
  rewrite take_take, Nat.min_l by lia.
  replace (S (S k) - 1)%nat with (S k) by lia.
  apply IH; lia.
Qed.

Lemma ellipsized_shortened (fits : string -> bool) (g : list string) :
  forall k, (k <= length g)%nat ->
    (forall j, (k < j <= length g)%nat -> fits (withDots g j) = false) ->
    shortened fits g (match ellipsized fits g k with Some line => line | None => lineOf g end).
Proof.
  induction k as [|k IH]; intros Hk Habove; cbn [ellipsized].
  - right. split; [| reflexivity]. intros j Hj. apply Habove. lia.
  - destruct (fits (withDots g (S k))) eqn:Hfit.
    + left. exists (S k). repeat split; try assumption; lia.
    + apply IH; [lia |]. intros j Hj.
      destruct (Nat.eq_dec j (S k)) as [-> | Hne]; [exact Hfit | apply Habove; lia].
Qed.

Lemma Forall_concat_fields (groups : list (list string)) :
  Forall isField (concat groups) -> Forall (Forall isField) groups.
Proof.
  induction groups as [|g groups IH]; cbn; intros H; constructor.
  - now apply Forall_app in H.
  - apply IH. now apply Forall_app in H.
Qed.

(** C3 (the counterexample).  With ten units to the byte and a budget of
    fifty, the title of three words of five bytes needs three lines; the
    second line of the result is its second word, without dots: the dots do
    not fit after a single word, and the loop leaves the line as it was. *)
Lemma wrapText_second_line_without_dots :
  wrapText exampleEnv (NewContextForImage (Bitmap EmptyString 1280 720))
    "aaaaa bbbbb ccccc" (50 # 1)
  = Some ("aaaaa" +:+ LF +:+ "bbbbb")
  /\ greedyLines (fitsIn exampleEnv (NewContextForImage (Bitmap EmptyString 1280 720)) (50 # 1))
       (strings_Fields "aaaaa bbbbb ccccc")
     = [["aaaaa"]; ["bbbbb"]; ["ccccc"]]
  /\ strings_HasSuffix "bbbbb" "..." = false.
Proof. vm_compute. repeat split; reflexivity. Qed.

(** [wrapText], run, on a text with words: the greedy wrap, then the cut
    to two lines with the second line shortened. *)
Lemma wrapText_run (E : Env) (dc : Context) (text : string) (maxWidth : Q) :
  strings_Fields text <> [] ->
  wrapText E dc text maxWidth
  = Some match greedyLines (fitsIn E dc maxWidth) (strings_Fields text) with
         | g1 :: g2 :: _ :: _ =>
             lineOf g1 +:+ LF +:+
             match ellipsized (fitsIn E dc maxWidth) g2 (length g2) with
             | Some line => line
             | None => lineOf g2
             end
         | groups => strings_Join (map lineOf groups) LF
         end.
Proof.
  set (fits := fitsIn E dc maxWidth). set (words := strings_Fields text).
  intros Hw.
  pose proof (greedyLines_isGreedyWrap fits words) as (Hcat & Hne & _ & _).
  pose proof (Fields_isField text) as Hfields. fold words in Hfields.
  pose proof (wrapWords_lines E dc maxWidth words Hfields Hw) as Hlines.
  cbn zeta in Hlines. fold fits in Hlines.
  unfold wrapText. fold words.
  replace (length words =? 0)%nat with false
    by (symmetry; apply Nat.eqb_neq; now destruct words).
  destruct (wrapWords E dc maxWidth words [] EmptyString) as [lines cur].
  cbn [fst snd] in Hlines. rewrite Hlines. clear Hlines lines cur.
  rewrite <- Hcat in Hfields. apply Forall_concat_fields in Hfields.
  destruct (greedyLines fits words) as [|g1 [|g2 [|g3 rest]]]; try reflexivity.
  cbn [map length]. replace (2 <? S (S (S (length (map lineOf rest)))))%nat with true
    by (symmetry; apply Nat.ltb_lt; lia).
  cbn [take lookup list_lookup default].
  inversion Hfields as [|? ? _ Hf2]; subst. inversion Hf2 as [|? ? Hg2 _]; subst.
  inversion Hne as [|? ? _ Hn2]; subst. inversion Hn2 as [|? ? Hg2ne _]; subst.
  assert (Hlen : (1 <= length g2)%nat) by (destruct g2; [congruence | cbn; lia]).
  pose proof (lineOf_length g2 Hg2) as Hfuel.
  pose proof (ellipsisLoop_run E dc maxWidth [lineOf g1; lineOf g2] g2 Hg2
                (length g2) (S (String.length (lineOf g2))) ltac:(lia) ltac:(lia)) as Hrun.
  rewrite take_ge in Hrun by lia. unfold id. rewrite Hrun. clear Hrun.
  cbn [mbind option_bind]. unfold fits.
  destruct (ellipsized (fitsIn E dc maxWidth) g2 (length g2)); reflexivity.
Qed.

(** C3 (as amended).  A text without a word is returned as it is.  For a
    text with words, the lines [wrapText] builds are the greedy wrap of its
    words; when these are at most two lines they are the result, joined by a
    line feed; when they are more, the result is the first line, a line feed
    and the second line after the shortening loop: the longest run of its
    leading words that fits the budget with three dots appended, with the
    dots, or, when not even its first word fits with the dots, the second
    line as it was, without dots.  So the second line ends with the dots and
    measures within the budget whenever some run of its leading words does
    with the dots appended. *)
Theorem wrapText_greedy_two_lines (E : Env) (dc : Context) (text : string) (maxWidth : Q) :
  let fits := fitsIn E dc maxWidth in
  let words := strings_Fields text in
  let groups := greedyLines fits words in
  (words = [] -> wrapText E dc text maxWidth = Some text)
  /\ (words <> [] ->
      isGreedyWrap fits words groups
      /\ match groups with
         | g1 :: g2 :: _ :: _ =>
             exists line2,
               wrapText E dc text maxWidth = Some (lineOf g1 +:+ LF +:+ line2)
               /\ shortened fits g2 line2
               /\ ((exists k, (1 <= k <= length g2)%nat /\ fits (withDots g2 k) = true) ->
                   strings_HasSuffix line2 "..." = true
                   /\ (MeasureString E dc line2 <= maxWidth)%Q)
         | _ => wrapText E dc text maxWidth = Some (strings_Join (map lineOf groups) LF)
         end).
Proof.
  intros fits words groups. split.
  - intros Hw. unfold wrapText. fold words. now rewrite Hw.
  - intros Hw. split; [apply greedyLines_isGreedyWrap |].
    pose proof (wrapText_run E dc text maxWidth Hw) as Hrun.
    fold words fits groups in Hrun.
    destruct groups as [|g1 [|g2 [|g3 rest]]]; try exact Hrun.
    pose proof (ellipsized_shortened fits g2 (length g2) ltac:(lia) ltac:(intros; lia))
      as Hshort.
    exists (match ellipsized fits g2 (length g2) with Some line => line | None => lineOf g2 end).
    split; [exact Hrun | split; [exact Hshort |]].
    intros (k & Hk & Hfit).
    destruct Hshort as [(k' & _ & Hfit' & _ & ->) | (Hnone & _)].
    + split; [apply HasSuffix_app |]. now apply Qle_bool_iff.
    + rewrite (Hnone k Hk) in Hfit. discriminate.
Qed.

(** A title of seven words on a budget of eighty units: the second line
    loses its last word to make room for the dots. *)
Example wrapText_example :
  wrapText exampleEnv (NewContextForImage (Bitmap EmptyString 1280 720))
    "aa bb cc dd ee ff gg" (80 # 1)
  = Some ("aa bb cc" +:+ LF +:+ "dd ee...").
Proof. vm_compute. reflexivity. Qed.

(** ** [addOverlay] *)

Lemma bind_run {A B} (m : M A) (f : A -> M B) (w w' : World) (a : A) :
  m w = Some (a, w') -> bind m f w = f a w'.
Proof. intros H. unfold bind. now rewrite H. Qed.

Lemma wrapText_total (E : Env) (dc : Context) (text : string) (maxWidth : Q) :
  exists out, wrapText E dc text maxWidth = Some out.
Proof.
  destruct (strings_Fields text) as [|w ws] eqn:Hw.
  - exists text. unfold wrapText. now rewrite Hw.
  - eexists. apply wrapText_run. rewrite Hw. discriminate.
Qed.

Lemma textLayers_resize (width height : N) (img : Image) :
  textLayers (resize_Resize width height img) = textLayers img.
Proof.
  unfold resize_Resize.
  destruct (_ && _)%bool; [reflexivity |]. now destruct (_ || _)%bool.
Qed.

Lemma textLayers_fitted (cfg : ThumbnailConfig) (img : Image) :
  textLayers (fitted cfg img) = textLayers img.
Proof. unfold fitted. destruct (_ || _)%bool; [apply textLayers_resize | reflexivity]. Qed.

Lemma filter_isText_gradient (width height : N) (rows : list Z) :
  List.filter isText (map (gradientRow width height) rows) = [].
Proof. induction rows as [|i rows IH]; [reflexivity | exact IH]. Qed.

(** [loadFont] returns: with the error [errNoFont] and the context as it
    was, or with a font set; the store is as it was. *)
Lemma loadFont_returns (E : Env) (dc : Context) (size : Q) (w : World) :
  exists r w', loadFont E dc size w = Some (r, w')
               /\ thumbnailCache w' = thumbnailCache w /\ files w' = files w
               /\ (noFont E (files w) size -> r = (dc, Some errNoFont))
               /\ (r = (dc, Some errNoFont)
                   \/ exists path, r = (setFontFace dc (TrueType path size), None)).
Proof.
  rewrite loadFont_run.
  destruct (customFontUsable E (files w) size) eqn:Hc.
  - eexists _, _. split; [reflexivity |]. repeat split.
    + intros [Hno _]. congruence.
    + right. eexists. reflexivity.
  - eexists _, _. split; [reflexivity |].
    split; [now destruct (_ && _) |]. split; [now destruct (_ && _) |]. split.
    + intros [_ Hno]. now rewrite (find_none_all _ _ Hno).
    + destruct (List.find _ _); [right; eexists; reflexivity | now left].
Qed.

(** [addOverlay], run: it returns, without an error, a picture of the size
    of the fitted one; the text it has drawn is nothing when no font
    resolves at the title's size, and centred text only when none resolves at
    the duration's size. *)
Lemma addOverlay_returns (E : Env) (img : Image) (cfg : ThumbnailConfig) (w : World) :
  exists out w' drawn,
    addOverlay E img cfg w = Some ((out, None), w')
    /\ thumbnailCache w' = thumbnailCache w /\ files w' = files w
    /\ Dx out = Dx (fitted cfg img) /\ Dy out = Dy (fitted cfg img)
    /\ textLayers out = textLayers img ++ drawn
    /\ (noFont E (files w) (float64 (Dx (fitted cfg img)) / 25)%Q ->
        out = fitted cfg img /\ drawn = [])
    /\ (noFont E (files w) (float64 (Dx (fitted cfg img)) / 35)%Q ->
        Forall isTitleLayer drawn)
    /\ (out = fitted cfg img
        \/ exists texts,
             out = Drawn (fitted cfg img)
                     (map (gradientRow (Dx (fitted cfg img)) (Dy (fitted cfg img)))
                        (seqZ 0 (gradientRowCount (Dy (fitted cfg img)))) ++ texts)
             /\ List.filter isText texts = texts).
Proof.
  unfold addOverlay. fold (fitted cfg img). set (img' := fitted cfg img).
  rewrite (bind_run _ _ w (addEvents w [EvAddOverlay img]) tt) by reflexivity.
  set (w0 := addEvents w [EvAddOverlay img]).
  destruct (gradientLoop_run (Dx img') (Dy img') (Z.to_nat (gradientRowCount (Dy img') - 0))
              (S (N.to_nat (Dy img'))) 0 (NewContextForImage img'))
    as (dcg & Hrun & Hbase & Hops & Hpath & Hface);
    [reflexivity | unfold gradientRowCount; Z.div_mod_to_equations; lia | reflexivity |].
  cbn in Hbase, Hops, Hface. rewrite Z.sub_0_r in Hops.
  rewrite (bind_run _ _ w0 w0 dcg) by (unfold liftOption; now rewrite Hrun).
  destruct (loadFont_returns E dcg (float64 (Dx img') / 25)%Q w0)
    as (r & w1 & Hload & Hc1 & Hf1 & Hno1 & Hcase1).
  rewrite (bind_run _ _ _ _ _ Hload).
  destruct Hcase1 as [-> | [path ->]].
  - exists img', (addEvents w1 [EvLog "Failed to load font, returning original image: %v"]), [].
    split; [reflexivity |]. cbn [addEvents thumbnailCache files].
    repeat split.
    + now rewrite Hc1.
    + now rewrite Hf1.
    + unfold img'. now rewrite textLayers_fitted, app_nil_r.
    + constructor.
    + now left.
  - set (dc1 := setFontFace dcg (TrueType path (float64 (Dx img') / 25)%Q)).
    match goal with
    | |- context [bind ?title _ w1] =>
        assert (Htitle : exists dc2 titleOps,
                   title w1 = Some (dc2, w1)
                   /\ ctx_base dc2 = img'
                   /\ ctx_ops dc2 = ctx_ops dcg ++ titleOps
                   /\ Forall isTitleLayer titleOps
                   /\ List.filter isText titleOps = titleOps)
    end.
    { destruct (isEmpty (TitleText cfg)); cbn [negb].
      - exists dc1, []. cbn. rewrite app_nil_r. auto.
      - destruct (wrapText_total E dc1 (TitleText cfg) (float64 (Dx img') * (9 # 10))%Q)
          as [wrapped Hwrap].
        rewrite (bind_run _ _ w1 w1 wrapped) by (unfold liftOption; now rewrite Hwrap).
        eexists _, [_; _]. split; [reflexivity |]. cbn.
        rewrite <- app_assoc. repeat split; auto.
        repeat constructor. }
    destruct Htitle as (dc2 & titleOps & Ht & Hb2 & Ho2 & Htl & Hft).
    rewrite (bind_run _ _ _ _ _ Ht).
    match goal with
    | |- context [bind ?duration _ w1] =>
        assert (Hdur : exists dc3 w2 durOps,
                   duration w1 = Some (dc3, w2)
                   /\ thumbnailCache w2 = thumbnailCache w1 /\ files w2 = files w1
                   /\ ctx_base dc3 = img'
                   /\ ctx_ops dc3 = ctx_ops dc2 ++ durOps
                   /\ (noFont E (files w1) (float64 (Dx img') / 35)%Q -> durOps = [])
                   /\ List.filter isText durOps = durOps)
    end.
    { destruct (isEmpty (DurationText cfg)); cbn [negb].
      - exists dc2, w1, []. cbn. rewrite app_nil_r. auto 10.
      - destruct (loadFont_returns E dc2 (float64 (Dx img') / 35)%Q w1)
          as (r2 & w2 & Hl2 & Hc2 & Hf2 & Hno2 & Hcase2).
        rewrite (bind_run _ _ _ _ _ Hl2).
        destruct Hcase2 as [-> | [p2 ->]].
        + exists dc2, (addEvents w2 [EvLog "Failed to load font for duration: %v"]), [].
          split; [reflexivity |]. cbn. rewrite app_nil_r. auto 10.
        + eexists _, w2, [_; _]. split; [reflexivity |]. cbn.
          rewrite <- app_assoc. repeat split; auto.
          intros Hno. specialize (Hno2 Hno). discriminate. }
    destruct Hdur as (dc3 & w2 & durOps & Hd & Hc2 & Hf2 & Hb3 & Ho3 & Hnod & Hfd).
    rewrite (bind_run _ _ _ _ _ Hd).
    exists (ctx_Image dc3), w2, (titleOps ++ durOps).
    split; [reflexivity |].
    split; [now rewrite Hc2, Hc1 |]. split; [now rewrite Hf2, Hf1 |].
    unfold ctx_Image. cbn [Dx Dy textLayers]. rewrite Hb3.
    split; [reflexivity |]. split; [reflexivity |]. split; [| split; [| split]].
    + rewrite Ho3, Ho2, Hops. unfold img'. rewrite textLayers_fitted.
      rewrite !List.filter_app, filter_isText_gradient, Hft, Hfd. reflexivity.
    + intros Hno. specialize (Hno1 Hno). discriminate.
    + intros Hno. rewrite Hnod by (now rewrite Hf1). now rewrite app_nil_r.
    + right. exists (titleOps ++ durOps). split.
      * now rewrite Ho3, Ho2, Hops, <- app_assoc.
      * now rewrite List.filter_app, Hft, Hfd.
Qed.

(** The errors of the download step and of [saveImage] are not font
    errors. *)
Lemma downloadImage_error_kind (E : Env) (url : string) (w w' : World) (e : error) :
  downloadImage E url w = Some (inr e, w') -> ~ isFontError e.
Proof.
  unfold downloadImage, bind, emit, ret.
  destruct (http_Get E (CleanURL E url)) as [resp|cause].
  - destruct (negb (StatusCode resp =? 200)).
    + intros H. inversion H. intros [?|?]; discriminate.
    + destruct (Body resp) as [data|].
      * destruct (image_Decode E data); intros H; inversion H. intros [?|?]; discriminate.
      * intros H. inversion H. intros [?|?]; discriminate.
  - intros H. inversion H. intros [?|?]; discriminate.
Qed.

Lemma saveImage_error_kind (E : Env) (img : Image) (path : string) (quality : Z)
  (w w' : World) (e : error) :
  saveImage E img path quality w = Some (Some e, w') -> ~ isFontError e.
Proof.
  unfold saveImage, bind, emit, setFiles, ret.
  destruct (disk E path); intros H; inversion H; intros [?|?]; discriminate.
Qed.

(** No error [regenerate] returns is a font error. *)
Lemma regenerate_error_kind (E : Env) (key url title duration : string)
  (w w' : World) (p : string) (e : error) :
  regenerate E key url title duration w = Some ((p, Some e), w') -> ~ isFontError e.
Proof.
  unfold regenerate. unfold bind at 1.
  destruct (downloadImage E url w) as [[[img|err] w1]|] eqn:Hdl; [| | discriminate].
  2: { unfold bind, logger_ErrorF, emit, ret. intros H. inversion H; subst.
       now apply downloadImage_error_kind in Hdl. }
  destruct (negb (config_ThumbnailOverlay E)).
  - unfold bind at 1. unfold generateOutputPath at 1, bind at 1, time_Now, ret.
    unfold bind at 1.
    destruct (saveImage E img _ 95 _) as [[[e'|] w2]|] eqn:Hsave; [| | discriminate].
    + unfold ret. intros H. inversion H; subst. now apply saveImage_error_kind in Hsave.
    + unfold bind, thumbnailCache_Set, bind, time_Now, setCache, ret.
      intros H. inversion H.
  - destruct (addOverlay_returns E img
                (withTexts (DefaultThumbnailConfig E) title duration) w1)
      as (out & w2 & _ & Hrun & _).
    rewrite (bind_run _ _ _ _ _ Hrun). cbn iota.
    unfold bind at 1. unfold generateOutputPath at 1, bind at 1, time_Now, ret.
    unfold bind at 1.
    destruct (saveImage E out _ _ _) as [[[e'|] w3]|] eqn:Hsave; [| | discriminate].
    + unfold ret. intros H. inversion H; subst. now apply saveImage_error_kind in Hsave.
    + unfold bind, thumbnailCache_Set, bind, time_Now, setCache, ret.
      intros H. inversion H.
Qed.

(** C8.  For every picture, configuration and world, [addOverlay] returns,
    and returns no error, a picture of the size of the fitted one.  When no
    font resolves at the title's size the picture returned is the fitted
    picture itself, with no text drawn on it; when none resolves at the
    duration's size, the text drawn is centred text only, as the title is
    drawn, and none anchored as the duration is.  And no error
    [ProcessThumbnail] returns is an error of font resolution. *)
Theorem addOverlay_font_failure (E : Env) (img : Image) (cfg : ThumbnailConfig) (w : World) :
  (exists out w' drawn,
     addOverlay E img cfg w = Some ((out, None), w')
     /\ Dx out = Dx (fitted cfg img) /\ Dy out = Dy (fitted cfg img)
     /\ textLayers out = textLayers img ++ drawn
     /\ (noFont E (files w) (float64 (Dx (fitted cfg img)) / 25)%Q ->
         out = fitted cfg img /\ drawn = [])
     /\ (noFont E (files w) (float64 (Dx (fitted cfg img)) / 35)%Q ->
         Forall isTitleLayer drawn))
  /\ (forall url title duration p e w',
        ProcessThumbnail E url title duration w = Some ((p, Some e), w') ->
        ~ isFontError e).
Proof.
  split.
  - destruct (addOverlay_returns E img cfg w)
      as (out & w' & drawn & Hrun & _ & _ & Hdx & Hdy & Htext & Htitle & Hdur & _).
    exists out, w', drawn. auto 10.
  - intros url title duration p e w'.
    destruct url as [|c url]; [cbn; intros H; inversion H |].
    rewrite ProcessThumbnail_run by discriminate.
    destruct (Cache_Get _ _ _) as [cached|]; [| apply regenerate_error_kind].
    destruct (bool_decide _); [intros H; inversion H | apply regenerate_error_kind].
Qed.

(** With no font installed the thumbnail is still produced: the fitted
    picture, with no text, and no error. *)
Example addOverlay_without_fonts :
  option_map fst
    (addOverlay exampleEnv (Bitmap "JPEGDATA" 640 360)
       (withTexts (DefaultThumbnailConfig exampleEnv) "Song" "3:45") staleWorld)
  = Some (Bitmap "JPEGDATA" 640 360, None).
Proof. vm_compute. reflexivity. Qed.

(** ** The resize of [addOverlay] *)

(** A picture within the configured width and height keeps its size. *)
Lemma fitted_within (cfg : ThumbnailConfig) (img : Image) :
  (Dx img <= Width cfg)%N -> (Dy img <= Height cfg)%N -> fitted cfg img = img.
Proof.
  intros Hx Hy. unfold fitted.
  replace (Width cfg <? Dx img)%N with false by (symmetry; apply N.ltb_ge; lia).
  replace (Height cfg <? Dy img)%N with false by (symmetry; apply N.ltb_ge; lia).
  reflexivity.
Qed.

(** A picture that exceeds the configured width or height gets exactly
    the configured width and height, whatever its own proportions. *)
Lemma fitted_exceeding (cfg : ThumbnailConfig) (img : Image) :
  (Width cfg < Dx img \/ Height cfg < Dy img)%N ->
  (Width cfg <> 0)%N -> (Height cfg <> 0)%N -> (Dx img <> 0)%N -> (Dy img <> 0)%N ->
  Dx (fitted cfg img) = Width cfg /\ Dy (fitted cfg img) = Height cfg.
Proof.
  intros Hex Hw Hh Hx Hy. unfold fitted.
  replace ((Width cfg <? Dx img) || (Height cfg <? Dy img))%N with true
    by (symmetry; apply orb_true_iff; rewrite !N.ltb_lt; exact Hex).
  unfold resize_Resize.
  apply N.eqb_neq in Hw, Hh, Hx, Hy. rewrite Hw, Hh, Hx, Hy. cbn [orb].
  destruct ((Width cfg =? Dx img) && (Height cfg =? Dy img))%N eqn:Hsame.
  - apply andb_true_iff in Hsame. rewrite !N.eqb_eq in Hsame. now destruct Hsame.
  - split; reflexivity.
Qed.

(** C5 (the code at the failing input).  A picture within 1280 by 720 keeps
    its size through [addOverlay]; a square picture of 2000 by 2000 comes
    out 1280 by 720, and a picture of 2000 by 100 comes out 1280 by 720 as
    well: the proportions of the source are not kept, and its height is
    scaled up. *)
Theorem addOverlay_resize_distorts (E : Env) (w : World) :
  (forall img, (Dx img <= 1280)%N -> (Dy img <= 720)%N ->
     exists out w', addOverlay E img (DefaultThumbnailConfig E) w = Some ((out, None), w')
                    /\ Dx out = Dx img /\ Dy out = Dy img)
  /\ (exists out w',
        addOverlay E (Bitmap "JPEGDATA" 2000 2000) (DefaultThumbnailConfig E) w
        = Some ((out, None), w')
        /\ Dx out = 1280%N /\ Dy out = 720%N
        /\ (Dx out * 2000 <> Dy out * 2000)%N)
  /\ (exists out w',
        addOverlay E (Bitmap "JPEGDATA" 2000 100) (DefaultThumbnailConfig E) w
        = Some ((out, None), w')
        /\ Dx out = 1280%N /\ Dy out = 720%N).
Proof.
  split; [| split].
  - intros img Hx Hy.
    destruct (addOverlay_returns E img (DefaultThumbnailConfig E) w)
      as (out & w' & _ & Hrun & _ & _ & Hdx & Hdy & _).
    rewrite fitted_within in Hdx, Hdy by assumption. eauto.
  - destruct (addOverlay_returns E (Bitmap "JPEGDATA" 2000 2000) (DefaultThumbnailConfig E) w)
      as (out & w' & _ & Hrun & _ & _ & Hdx & Hdy & _).
    cbn in Hdx, Hdy. exists out, w'. rewrite Hdx, Hdy. repeat split; [exact Hrun | discriminate].
  - destruct (addOverlay_returns E (Bitmap "JPEGDATA" 2000 100) (DefaultThumbnailConfig E) w)
      as (out & w' & _ & Hrun & _ & _ & Hdx & Hdy & _).
    cbn in Hdx, Hdy. exists out, w'. rewrite Hdx, Hdy. repeat split; exact Hrun.
Qed.

(** ** The gradient on the picture returned *)

(** With the default width and height, a picture that has a pixel in each
    row comes out of the fitting at most 720 high. *)
Lemma fitted_default_height (cfg : ThumbnailConfig) (img : Image) :
  Width cfg = 1280%N -> Height cfg = 720%N -> (Dx img <> 0)%N ->
  (Dy (fitted cfg img) <= 720)%N.
Proof.
  intros Hw Hh Hx. unfold fitted. rewrite Hw, Hh.
  destruct ((1280 <? Dx img) || (720 <? Dy img))%N eqn:Hex.
  - unfold resize_Resize.
    change (1280 =? 0)%N with false. change (720 =? 0)%N with false. cbv iota zeta.
    destruct ((1280 =? Dx img) && (720 =? Dy img))%N eqn:Hsame.
    + apply andb_true_iff in Hsame as [_ Hy]. apply N.eqb_eq in Hy. lia.
    + destruct ((Dx img =? 0) || (Dy img =? 0))%N eqn:Hzero; [| cbn; lia].
      apply orb_true_iff in Hzero as [H | H]; apply N.eqb_eq in H; lia.
  - apply orb_false_iff in Hex as [_ Hy]. apply N.ltb_ge in Hy. exact Hy.
Qed.


(** ** The pipeline as a whole *)

(** [downloadImage] returns, and touches neither the cache nor the files. *)
Lemma downloadImage_total (E : Env) (url : string) (w : World) :
  exists r w', downloadImage E url w = Some (r, w')
               /\ thumbnailCache w' = thumbnailCache w /\ files w' = files w.
Proof.
  unfold downloadImage, bind, emit, ret.
  destruct (http_Get E (CleanURL E url)) as [resp|cause]; [| eauto 10].
  destruct (negb (StatusCode resp =? 200)); [eauto 10 |].
  destruct (Body resp) as [data|]; [| eauto 10].
  destruct (image_Decode E data); eauto 10.
Qed.

(** [saveImage] returns, and leaves the cache alone. *)
Lemma saveImage_total (E : Env) (img : Image) (path : string) (quality : Z) (w : World) :
  exists r w', saveImage E img path quality w = Some (r, w')
               /\ thumbnailCache w' = thumbnailCache w
               /\ (r = None -> is_Some (files w' !! path)).
Proof.
  unfold saveImage, bind, emit, setFiles, ret.
  destruct (disk E path); eexists _, _; (split; [reflexivity |]);
    (split; [reflexivity |]); try discriminate.
  intros _. cbn. rewrite lookup_insert_eq. eauto.
Qed.

(** The tail of both branches of [regenerate]: a path is generated, the
    picture saved, the entry set. *)
Lemma save_and_set (E : Env) (key : string) (img : Image) (quality : Z) (w : World) :
  exists r w',
    bind (generateOutputPath E)
      (fun outputPath =>
         bind (saveImage E img outputPath quality)
           (fun err =>
              match err with
              | Some e => ret (EmptyString, Some e)
              | None => bind (thumbnailCache_Set E key outputPath)
                          (fun _ => ret (outputPath, None))
              end)) w = Some (r, w')
    /\ (forall p, r = (p, None) ->
          (0 < ticks w')%nat
          /\ thumbnailCache w'
             = Cache_Set (thumbnailCache w) (clock E (ticks w' - 1)) key p
          /\ is_Some (files w' !! p)).
Proof.
  unfold bind at 1. unfold generateOutputPath at 1, bind at 1, time_Now, ret.
  match goal with
  | |- context [bind (saveImage E img ?path quality) _ ?w1] =>
      destruct (saveImage_total E img path quality w1) as (r & w2 & Hsave & Hc & Hfile);
      rewrite (bind_run _ _ _ _ _ Hsave)
  end.
  destruct r as [e|].
  - eexists _, _. split; [reflexivity |]. intros p Hp. inversion Hp.
  - eexists _, _. split; [reflexivity |]. intros p Hp. inversion Hp; subst p.
    cbn. rewrite Nat.sub_0_r, Hc. cbn. repeat split; [lia | now apply Hfile].
Qed.

(** [regenerate] returns; when it returns a path without an error, the
    entry of the key has been set to that path at the last clock reading,
    and the path is a file. *)
Lemma regenerate_total (E : Env) (key url title duration : string) (w : World) :
  exists r w',
    regenerate E key url title duration w = Some (r, w')
    /\ (forall p, r = (p, None) ->
          (0 < ticks w')%nat
          /\ thumbnailCache w'
             = Cache_Set (thumbnailCache w) (clock E (ticks w' - 1)) key p
          /\ is_Some (files w' !! p)).
Proof.
  unfold regenerate.
  destruct (downloadImage_total E url w) as ([img|err] & w1 & Hdl & Hc1 & _);
    rewrite (bind_run _ _ _ _ _ Hdl).
  2: { eexists _, _. split; [reflexivity |]. intros p Hp. inversion Hp. }
  destruct (negb (config_ThumbnailOverlay E)).
  - destruct (save_and_set E key img 95 w1) as (r & w' & Hrun & Hok).
    exists r, w'. split; [exact Hrun |]. now rewrite <- Hc1.
  - destruct (addOverlay_returns E img
                (withTexts (DefaultThumbnailConfig E) title duration) w1)
      as (out & w2 & _ & Hrun & Hc2 & _).
    rewrite (bind_run _ _ _ _ _ Hrun). cbn iota.
    destruct (save_and_set E key out
                (Quality (withTexts (DefaultThumbnailConfig E) title duration)) w2)
      as (r & w' & Hsave & Hok).
    exists r, w'. split; [exact Hsave |]. now rewrite <- Hc1, <- Hc2.
Qed.

(** X1.  [ProcessThumbnail] always returns: every loop of the pipeline ends
    within its budget, whatever the request, the surroundings and the
    world. *)
Theorem ProcessThumbnail_total (E : Env) (url title duration : string) (w : World) :
  exists r w', ProcessThumbnail E url title duration w = Some (r, w').
Proof.
  destruct url as [|c url]; [cbn; eauto |].
  rewrite ProcessThumbnail_run by discriminate.
  destruct (regenerate_total E (cacheKey (String c url) title duration)
              (String c url) title duration (tick w)) as (r & w' & Hrun & _).
  destruct (Cache_Get _ _ _) as [cached|]; [| eauto].
  destruct (bool_decide _); eauto.
Qed.

(** X2.  When a request with a url misses the cache and its thumbnail is
    produced, the same request made again finds it: if the clock, read at the
    second look-up, is not past the expiry set at the end of the first call,
    the second call returns the same path after reading the clock once, with
    no event added (no fetch, no drawing, no write). *)
Theorem ProcessThumbnail_twice (E : Env) (url title duration p : string) (w w' : World) :
  url <> EmptyString ->
  cacheMiss w (clock E (ticks w)) (cacheKey url title duration) ->
  ProcessThumbnail E url title duration w = Some ((p, None), w') ->
  clock E (ticks w') <= clock E (ticks w' - 1) + cache_ttl (thumbnailCache w) ->
  ProcessThumbnail E url title duration w' = Some ((p, None), tick w')
  /\ trace (tick w') = trace w'.
Proof.
  intros Hurl Hmiss Hfirst Hfresh. split; [| reflexivity].
  rewrite (ProcessThumbnail_run E url title duration w Hurl) in Hfirst.
  assert (Hregen : regenerate E (cacheKey url title duration) url title duration (tick w)
                   = Some ((p, None), w')).
  { unfold cacheMiss in Hmiss. destruct (Cache_Get _ _ _) as [cached|]; [| exact Hfirst].
    rewrite bool_decide_eq_false_2 in Hfirst by (rewrite Hmiss; now intros [? ?]).
    exact Hfirst. }
  destruct (regenerate_total E (cacheKey url title duration) url title duration (tick w))
    as (r & w2 & Hrun & Hok).
  rewrite Hrun in Hregen. inversion Hregen; subst r w2.
  destruct (Hok p eq_refl) as (_ & Hcache & Hfile).
  rewrite (ProcessThumbnail_run E url title duration w' Hurl), Hcache.
  unfold Cache_Get, Cache_Set. cbn [cache_items cache_ttl tick thumbnailCache].
  rewrite lookup_insert_eq. cbn [item_expiration item_value].
  replace (clock E (ticks w') >? clock E (ticks w' - 1) + cache_ttl (thumbnailCache w))
    with false by (symmetry; rewrite Z.gtb_ltb; apply Z.ltb_ge; lia).
  now rewrite bool_decide_eq_true_2.
Qed.

(** X2, at an instance: the request of the examples, made twice. *)
Lemma ProcessThumbnail_twice_witness :
  ProcessThumbnail exampleEnv "http://img/ok" "Song" "3:45" onceServedWorld
  = Some (("/tmp/yukki_thumbnails/thumb_1700000000000000001.jpg", None), tick onceServedWorld)
  /\ trace (tick onceServedWorld) = trace onceServedWorld.
Proof.
  apply (ProcessThumbnail_twice exampleEnv "http://img/ok" "Song" "3:45"
           "/tmp/yukki_thumbnails/thumb_1700000000000000001.jpg" freshWorld onceServedWorld).
  - discriminate.
  - vm_compute. exact I.
  - vm_compute. reflexivity.
  - vm_compute. discriminate.
Defined.

(* ===================================================================== *)
(** ** What a request leaves behind *)
(* ===================================================================== *)

(** *** Steps that only write to the log *)

Lemma addEvents_nil (w : World) : addEvents w [] = w.
Proof. destruct w. unfold addEvents. cbn. now rewrite app_nil_r. Qed.

Lemma addEvents_app (w : World) (a b : list Event) :
  addEvents (addEvents w a) b = addEvents w (a ++ b).
Proof. unfold addEvents. cbn. now rewrite app_assoc. Qed.

Lemma logsOnly_ret {A} (a : A) : logsOnly (ret a).
Proof.
  intros w a' w' H. inversion H; subst. exists []. now rewrite addEvents_nil.
Qed.

Lemma logsOnly_bind {A B} (m : M A) (f : A -> M B) :
  logsOnly m -> (forall a, logsOnly (f a)) -> logsOnly (bind m f).
Proof.
  intros Hm Hf w b w' H. unfold bind in H.
  destruct (m w) as [[a w1]|] eqn:Hmw; [| discriminate].
  destruct (Hm _ _ _ Hmw) as (l1 & -> & Hl1).
  destruct (Hf a _ _ _ H) as (l2 & -> & Hl2).
  exists (l1 ++ l2). split; [apply addEvents_app |].
  now rewrite forallb_app, Hl1, Hl2.
Qed.

Lemma logsOnly_liftOption {A} (o : option A) : logsOnly (liftOption o).
Proof.
  intros w a w' H. unfold liftOption in H. destruct o; inversion H; subst.
  exists []. now rewrite addEvents_nil.
Qed.

Lemma logsOnly_fileExists (path : string) : logsOnly (fileExists path).
Proof.
  intros w a w' H. inversion H; subst. exists []. now rewrite addEvents_nil.
Qed.

Lemma logsOnly_WarnF (format : string) : logsOnly (logger_WarnF format).
Proof. intros w a w' H. inversion H; subst. now exists [EvLog format]. Qed.

Lemma logsOnly_LoadFontFace (E : Env) (dc : Context) (path : string) (size : Q) :
  logsOnly (LoadFontFace E dc path size).
Proof.
  intros w a w' H. unfold LoadFontFace in H.
  destruct (_ && _); inversion H; subst; exists []; now rewrite addEvents_nil.
Qed.

Ltac logs_only :=
  repeat first
    [ apply logsOnly_ret
    | apply logsOnly_liftOption
    | apply logsOnly_fileExists
    | apply logsOnly_LoadFontFace
    | apply logsOnly_WarnF
    | assumption
    | apply logsOnly_bind; [| intros ? ]
    | match goal with
      | |- logsOnly (let (_, _) := ?x in _) => destruct x
      | |- logsOnly (match ?x with _ => _ end) => destruct x
      end ].

Lemma logsOnly_loadFontFrom (E : Env) (dc : Context) (size : Q) (paths : list string) :
  logsOnly (loadFontFrom E paths dc size).
Proof.
  induction paths as [|p rest IH]; cbn [loadFontFrom]; logs_only.
Qed.

Lemma logsOnly_loadFont (E : Env) (dc : Context) (size : Q) :
  logsOnly (loadFont E dc size).
Proof.
  pose proof (logsOnly_loadFontFrom E dc size defaultFontPaths) as Hdef.
  unfold loadFont. logs_only.
Qed.

Lemma addOverlay_logs (E : Env) (img : Image) (cfg : ThumbnailConfig) (w w' : World)
  (r : Image * option error) :
  addOverlay E img cfg w = Some (r, w') ->
  exists logs, w' = addEvents w (EvAddOverlay img :: logs) /\ forallb isLog logs = true.
Proof.
  intros H. unfold addOverlay in H.
  rewrite (bind_run _ _ w (addEvents w [EvAddOverlay img]) tt) in H by reflexivity.
  pose proof (logsOnly_loadFont E) as Hfont.
  match type of H with
  | ?m ?w0 = _ => assert (Hm : logsOnly m) by logs_only
  end.
  destruct (Hm _ _ _ H) as (logs & -> & Hlogs). exists logs.
  now rewrite addEvents_app.
Qed.

Lemma addOverlay_events (E : Env) (img : Image) (cfg : ThumbnailConfig) (w : World) :
  exists out logs,
    addOverlay E img cfg w = Some ((out, None), addEvents w (EvAddOverlay img :: logs))
    /\ forallb isLog logs = true.
Proof.
  destruct (addOverlay_returns E img cfg w) as (out & w' & drawn & Hrun & _).
  destruct (addOverlay_logs _ _ _ _ _ _ Hrun) as (logs & -> & Hlogs).
  now exists out, logs.
Qed.

(** *** The file a request writes *)

Lemma hasByte_app (c : ascii) (a b : string) :
  hasByte c (a +:+ b) = hasByte c a || hasByte c b.
Proof.
  induction a as [|x a IH]; [reflexivity |]. cbn. rewrite IH. apply orb_assoc.
Qed.

Lemma splitSlash_not_nil (s : string) : splitSlash s <> [].
Proof.
  induction s as [|c s IH]; [discriminate |]. cbn [splitSlash].
  destruct (Ascii.eqb c "/"); [discriminate |]. now destruct (splitSlash s).
Qed.

(** A path without a slash is one element. *)
Lemma splitSlash_plain (name : string) :
  hasByte "/" name = false -> splitSlash name = [name].
Proof.
  induction name as [|c name IH]; [reflexivity |]. cbn [hasByte splitSlash].
  intros H. apply orb_false_iff in H as [Hc Hn]. now rewrite Hc, (IH Hn).
Qed.

(** The elements of a path that ends in a slash and a name. *)
Lemma splitSlash_snoc (x name : string) :
  hasByte "/" name = false ->
  splitSlash (x +:+ "/" +:+ name) = splitSlash x ++ [name].
Proof.
  intros Hn. induction x as [|c x IH].
  - cbn. now rewrite (splitSlash_plain name Hn).
  - change (String c x +:+ "/" +:+ name) with (String c (x +:+ "/" +:+ name)).
    cbn [splitSlash]. rewrite IH.
    destruct (Ascii.eqb c "/"); [reflexivity |].
    pose proof (splitSlash_not_nil x). now destruct (splitSlash x).
Qed.

Lemma Join_snoc (l : list string) (sep name : string) :
  l <> [] -> strings_Join (l ++ [name]) sep = strings_Join l sep +:+ sep +:+ name.
Proof.
  induction l as [|a l IH]; [congruence |]; intros _.
  destruct l as [|b l]; [reflexivity |].
  change (strings_Join ((a :: b :: l) ++ [name]) sep)
    with (a +:+ sep +:+ strings_Join ((b :: l) ++ [name]) sep).
  rewrite IH by discriminate.
  change (strings_Join (a :: b :: l) sep) with (a +:+ sep +:+ strings_Join (b :: l) sep).
  now rewrite !append_assoc.
Qed.

Lemma HasPrefix_app (x y p : string) :
  (String.length p <= String.length x)%nat ->
  strings_HasPrefix (x +:+ y) p = strings_HasPrefix x p.
Proof.
  revert x. induction p as [|c p IH]; intros x Hlen.
  - destruct x; [destruct y |]; reflexivity.
  - destruct x as [|d x]; [cbn in Hlen; lia |].
    cbn. rewrite IH by (cbn in Hlen; lia). reflexivity.
Qed.

(** [filepath.Clean] never gives the empty path. *)
Lemma filepath_Clean_not_empty (path : string) : filepath_Clean path <> EmptyString.
Proof.
  unfold filepath_Clean. destruct (isEmpty path); [discriminate |].
  destruct (strings_HasPrefix path "/"); [discriminate |].
  destruct (isEmpty _) eqn:Hb; [discriminate |]. now apply isEmpty_false.
Qed.

(** A name put after a path stays its last element through
    [filepath.Clean], after the directory the path cleans to, when it is a
    name: not empty, not [.] or [..], and without a slash. *)
Lemma filepath_Clean_snoc (x name : string) :
  x <> EmptyString ->
  hasByte "/" name = false ->
  isEmpty name = false -> String.eqb name "." = false -> String.eqb name ".." = false ->
  filepath_Clean (x +:+ "/" +:+ name) = cleanDir x +:+ name.
Proof.
  intros Hx Hslash Hne Hdot Hdots.
  assert (Hkeep : forall r out, cleanElem r out name = name :: out).
  { intros r out. unfold cleanElem. now rewrite Hne, Hdot, Hdots. }
  unfold filepath_Clean, cleanDir.
  replace (isEmpty (x +:+ "/" +:+ name)) with false by (now destruct x).
  rewrite HasPrefix_app by (destruct x; [congruence | cbn; lia]).
  rewrite (splitSlash_snoc x name Hslash), fold_left_app.
  cbn [fold_left]. rewrite Hkeep. cbn [rev].
  generalize (rev (fold_left (cleanElem (strings_HasPrefix x "/")) (splitSlash x) [])).
  intros out.
  assert (Hbody : strings_Join (out ++ [name]) "/"
                  = match out with
                    | [] => EmptyString
                    | _ => strings_Join out "/" +:+ "/"
                    end +:+ name).
  { destruct out as [|a l]; [reflexivity |].
    rewrite Join_snoc by discriminate. now rewrite append_assoc. }
  rewrite Hbody.
  destruct (strings_HasPrefix x "/").
  - now rewrite append_assoc.
  - replace (isEmpty (match out with
                      | [] => EmptyString
                      | _ => strings_Join out "/" +:+ "/"
                      end +:+ name)) with false; [reflexivity |].
    symmetry. destruct (match out with [] => EmptyString | _ => _ end); [exact Hne | reflexivity].
Qed.

Lemma hasByte_slash_uint (d : Decimal.uint) :
  hasByte "/" (NilEmpty.string_of_uint d) = false.
Proof. induction d; cbn; auto. Qed.

Lemma hasByte_slash_fmt_d (z : Z) : hasByte "/" (fmt_d z) = false.
Proof.
  assert (Hd : forall n, hasByte "/" (decimal n) = false).
  { intros n. unfold decimal, NilZero.string_of_uint.
    destruct (N.to_uint n); try apply hasByte_slash_uint. reflexivity. }
  unfold fmt_d. destruct (z <? 0); [| apply Hd].
  change ("-" +:+ decimal (Z.to_N (- z))) with (String "-" (decimal (Z.to_N (- z)))).
  cbn [hasByte]. now rewrite Hd.
Qed.

(** The path [generateOutputPath] makes: the directory, cleaned, and the
    name of the file. *)
Lemma outputPathAt_eq (E : Env) (n : nat) :
  outputPathAt E n = (outputDir E +:+ "thumb_" +:+ fmt_d (clock E n)) +:+ ".jpg".
Proof.
  assert (Hname : forall x, x <> EmptyString ->
            filepath_Clean (x +:+ "/" +:+ "thumb_" +:+ fmt_d (clock E n) +:+ ".jpg")
            = cleanDir x +:+ "thumb_" +:+ fmt_d (clock E n) +:+ ".jpg").
  { intros x Hx. apply filepath_Clean_snoc; try reflexivity; [exact Hx |].
    rewrite !hasByte_app, hasByte_slash_fmt_d. reflexivity. }
  unfold outputPathAt, outputDir. cbn [filepath_Join].
  destruct (isEmpty (os_TempDir E)) eqn:Htmp.
  - cbn [isEmpty strings_Join]. rewrite Hname by discriminate.
    now rewrite !append_assoc.
  - cbn [strings_Join].
    destruct (os_TempDir E) as [|c t] eqn:Ht; [discriminate |].
    change (String c t +:+ "/" +:+ "yukki_thumbnails" +:+ "/" +:+
            "thumb_" +:+ fmt_d (clock E n) +:+ ".jpg")
      with (String c (t +:+ "/" +:+ "yukki_thumbnails" +:+ "/" +:+
                      "thumb_" +:+ fmt_d (clock E n) +:+ ".jpg")).
    replace (String c (t +:+ "/" +:+ "yukki_thumbnails" +:+ "/" +:+
                       "thumb_" +:+ fmt_d (clock E n) +:+ ".jpg"))
      with ((String c t +:+ "/" +:+ "yukki_thumbnails") +:+ "/" +:+
            "thumb_" +:+ fmt_d (clock E n) +:+ ".jpg")
      by (now rewrite !append_assoc).
    rewrite Hname by discriminate. now rewrite !append_assoc.
Qed.

Lemma strings_ToLower_app (a b : string) :
  strings_ToLower (a +:+ b) = strings_ToLower a +:+ strings_ToLower b.
Proof. induction a as [|c a IH]; cbn; [reflexivity | now rewrite IH]. Qed.

Lemma HasSuffix_other (a b c : string) :
  String.length b = String.length c -> b <> c -> strings_HasSuffix (a +:+ b) c = false.
Proof.
  intros Hlen Hne. unfold strings_HasSuffix.
  rewrite append_length, <- Hlen.
  replace (String.length a + String.length b - String.length b)%nat
    with (String.length a) by lia.
  rewrite dropBytes_app.
  apply andb_false_iff. right. now apply String.eqb_neq.
Qed.

Lemma outputPathAt_not_png (E : Env) (n : nat) :
  strings_HasSuffix (strings_ToLower (outputPathAt E n)) ".png" = false.
Proof.
  rewrite outputPathAt_eq, strings_ToLower_app.
  apply HasSuffix_other; [reflexivity | discriminate].
Qed.

Lemma generateOutputPath_run (E : Env) (w : World) :
  generateOutputPath E w = Some (outputPathAt E (ticks w), tick w).
Proof. reflexivity. Qed.

Lemma save_and_set_run (E : Env) (key : string) (out : Image) (quality : Z) (w : World) :
  (outputPath <- generateOutputPath E ;;
   err <- saveImage E out outputPath quality ;;
   match err with
   | Some e => ret (EmptyString, Some e)
   | None =>
       _ <- thumbnailCache_Set E key outputPath ;;
       ret (outputPath, None)
   end) w
  = Some (stored E key out quality (thumbnailCache w) (files w) (ticks w) (trace w)).
Proof.
  rewrite (bind_run _ _ _ _ _ (generateOutputPath_run E w)).
  unfold stored, saveImage.
  rewrite (outputPathAt_not_png E (ticks w)).
  unfold bind, emit, ret, setFiles, thumbnailCache_Set, time_Now, setCache, tick.
  cbn [thumbnailCache files ticks trace].
  now destruct (disk E (outputPathAt E (ticks w))).
Qed.

Lemma downloadImage_downloads (E : Env) (url : string) (img : Image) (w : World) :
  downloads E url img ->
  downloadImage E url w = Some (inl img, addEvents w [EvHttpGet (CleanURL E url)]).
Proof.
  intros (resp & data & Hget & Hst & Hbody & Hdec).
  unfold downloadImage, bind, emit, ret. rewrite Hget.
  apply Z.eqb_eq in Hst. now rewrite Hst, Hbody, Hdec.
Qed.

Lemma download_cases (E : Env) (url : string) :
  (exists img, downloads E url img) \/ (exists e, downloadFails E url e).
Proof.
  destruct (http_Get E (CleanURL E url)) as [resp|cause] eqn:Hget.
  - destruct (Z.eq_dec (StatusCode resp) 200) as [Hst|Hst].
    + destruct (Body resp) as [data|] eqn:Hbody.
      * destruct (image_Decode E data) as [img|] eqn:Hdec.
        -- left. exists img, resp, data. auto.
        -- right. eexists. eapply fails_decode; eauto.
      * right. eexists. eapply fails_read; eauto.
    + right. eexists. eapply fails_status; eauto.
  - right. eexists. eapply fails_get; eauto.
Qed.

Lemma downloads_not_fails (E : Env) (url : string) (img : Image) (e : error) :
  downloads E url img -> downloadFails E url e -> False.
Proof.
  intros (resp & data & Hget & Hst & Hbody & Hdec) Hf.
  destruct Hf as [cause H | r H H1 | r H H1 H2 | r d H H1 H2 H3];
    rewrite Hget in H; inversion H; subst; congruence.
Qed.

(** A downloaded picture goes to the disk as it came when the overlay is
    switched off, and as [addOverlay] returns it when it is on. *)
Lemma regenerate_downloaded (E : Env) (key url title duration : string)
  (img : Image) (w : World) :
  downloads E url img ->
  exists out evs,
    regenerate E key url title duration w
    = Some (stored E key out (if config_ThumbnailOverlay E then 85 else 95)
              (thumbnailCache w) (files w) (ticks w)
              (trace w ++ EvHttpGet (CleanURL E url) :: evs))
    /\ (config_ThumbnailOverlay E = false -> out = img /\ evs = [])
    /\ (config_ThumbnailOverlay E = true ->
        exists logs,
          evs = EvAddOverlay img :: logs /\ forallb isLog logs = true
          /\ addOverlay E img (withTexts (DefaultThumbnailConfig E) title duration)
               (addEvents w [EvHttpGet (CleanURL E url)])
             = Some ((out, None), addEvents w (EvHttpGet (CleanURL E url) :: evs))).
Proof.
  intros Hdl. unfold regenerate.
  rewrite (bind_run _ _ _ _ _ (downloadImage_downloads E url img w Hdl)).
  set (w1 := addEvents w [EvHttpGet (CleanURL E url)]).
  destruct (config_ThumbnailOverlay E) eqn:Hov; cbn [negb].
  - destruct (addOverlay_events E img
                (withTexts (DefaultThumbnailConfig E) title duration) w1)
      as (out & logs & Hrun & Hlogs).
    exists out, (EvAddOverlay img :: logs).
    rewrite (bind_run _ _ _ _ _ Hrun). cbv beta iota.
    rewrite save_and_set_run.
    unfold w1. rewrite addEvents_app in *. cbn [addEvents thumbnailCache files ticks trace app].
    split; [reflexivity |]. split; [discriminate |].
    intros _. exists logs. split; [reflexivity |]. split; [exact Hlogs |].
    unfold w1 in Hrun. rewrite Hrun. now rewrite addEvents_app.
  - exists img, []. rewrite save_and_set_run.
    unfold w1. cbn [addEvents thumbnailCache files ticks trace].
    split; [reflexivity |]. split; [now intros _ | discriminate].
Qed.

Lemma ProcessThumbnail_miss (E : Env) (url title duration : string) (w : World) :
  url <> EmptyString ->
  cacheMiss w (clock E (ticks w)) (cacheKey url title duration) ->
  ProcessThumbnail E url title duration w
  = regenerate E (cacheKey url title duration) url title duration (tick w).
Proof.
  intros Hurl Hmiss. unfold cacheMiss in Hmiss.
  rewrite (ProcessThumbnail_run E url title duration w Hurl).
  destruct (Cache_Get _ _ _) as [cached|]; [| reflexivity].
  now rewrite bool_decide_eq_false_2 by (rewrite Hmiss; now intros [? ?]).
Qed.

(** X3.  What a request that misses the cache stores when the picture
    downloads and the disk takes the file: the path made from the second
    reading of the clock is returned; the file there is a JPEG, never a PNG,
    of quality 95 holding the picture as downloaded when the overlay is
    switched off (and then [addOverlay] is not run), of quality 85 holding
    what [addOverlay] returns for the title and the duration when it is on;
    the cache maps the request's key to the path, set at the third reading of
    the clock; and nothing happens but one GET, the overlay with its log
    lines, and one write, in this order. *)
Theorem ProcessThumbnail_stores_jpeg (E : Env) (url title duration : string)
  (img : Image) (w : World) :
  url <> EmptyString ->
  cacheMiss w (clock E (ticks w)) (cacheKey url title duration) ->
  downloads E url img ->
  disk E (outputPathAt E (S (ticks w))) = Saved ->
  exists out evs w',
    ProcessThumbnail E url title duration w
    = Some ((outputPathAt E (S (ticks w)), None), w')
    /\ files w'
       = <[outputPathAt E (S (ticks w))
           := Encoded (JPEG (if config_ThumbnailOverlay E then 85 else 95)) out]> (files w)
    /\ thumbnailCache w'
       = Cache_Set (thumbnailCache w) (clock E (S (S (ticks w))))
           (cacheKey url title duration) (outputPathAt E (S (ticks w)))
    /\ ticks w' = S (S (S (ticks w)))
    /\ trace w' = trace w ++ EvHttpGet (CleanURL E url) :: evs
                    ++ [EvSaveImage (outputPathAt E (S (ticks w)))]
    /\ (config_ThumbnailOverlay E = false -> out = img /\ evs = [])
    /\ (config_ThumbnailOverlay E = true ->
        exists logs w1,
          evs = EvAddOverlay img :: logs /\ forallb isLog logs = true
          /\ addOverlay E img (withTexts (DefaultThumbnailConfig E) title duration)
               (addEvents (tick w) [EvHttpGet (CleanURL E url)])
             = Some ((out, None), w1)).
Proof.
  intros Hurl Hmiss Hdl Hdisk.
  rewrite (ProcessThumbnail_miss E url title duration w Hurl Hmiss).
  destruct (regenerate_downloaded E (cacheKey url title duration) url title duration
              img (tick w) Hdl) as (out & evs & Hrun & Hoff & Hon).
  rewrite Hrun. unfold stored. cbn [tick ticks thumbnailCache files trace].
  rewrite Hdisk. exists out, evs. eexists. split; [reflexivity |].
  cbn [thumbnailCache files ticks trace].
  repeat split.
  - now rewrite <- app_assoc.
  - now apply Hoff.
  - now apply Hoff.
  - intros Hov. destruct (Hon Hov) as (logs & Hevs & Hlogs & Hadd). eauto.
Qed.

(** X3, at an instance: the request of the examples on a fresh world. *)
Lemma ProcessThumbnail_stores_jpeg_witness :
  exists out evs w',
    ProcessThumbnail exampleEnv "http://img/ok" "Song" "3:45" freshWorld
    = Some ((outputPathAt exampleEnv 1, None), w')
    /\ files w'
       = <[outputPathAt exampleEnv 1 := Encoded (JPEG 85) out]> (files freshWorld)
    /\ thumbnailCache w'
       = Cache_Set (thumbnailCache freshWorld) (clock exampleEnv 2)
           (cacheKey "http://img/ok" "Song" "3:45") (outputPathAt exampleEnv 1)
    /\ ticks w' = 3%nat
    /\ trace w' = trace freshWorld ++ EvHttpGet "http://img/ok" :: evs
                    ++ [EvSaveImage (outputPathAt exampleEnv 1)]
    /\ (true = false -> out = Bitmap "JPEGDATA" 2000 2000 /\ evs = [])
    /\ (true = true ->
        exists logs w1,
          evs = EvAddOverlay (Bitmap "JPEGDATA" 2000 2000) :: logs
          /\ forallb isLog logs = true
          /\ addOverlay exampleEnv (Bitmap "JPEGDATA" 2000 2000)
               (withTexts (DefaultThumbnailConfig exampleEnv) "Song" "3:45")
               (addEvents (tick freshWorld) [EvHttpGet "http://img/ok"])
             = Some ((out, None), w1)).
Proof.
  apply (ProcessThumbnail_stores_jpeg exampleEnv "http://img/ok" "Song" "3:45"
           (Bitmap "JPEGDATA" 2000 2000) freshWorld).
  - discriminate.
  - vm_compute. exact I.
  - exists (mkResponse 200 "200 OK" (Some "JPEGDATA")), "JPEGDATA". now vm_compute.
  - reflexivity.
Defined.

(** X4.  When the picture downloads but cannot be stored, the request
    returns the empty path with the error of the step that failed
    ([os.MkdirAll], [os.Create] or the encoder), and the cache is left as it
    was, though the picture was fetched.  No file is written when the
    directory or the file cannot be made; when the encoder fails, the file it
    was writing stays behind at the generated path. *)
Theorem ProcessThumbnail_save_fails (E : Env) (url title duration : string)
  (img : Image) (w : World) :
  url <> EmptyString ->
  cacheMiss w (clock E (ticks w)) (cacheKey url title duration) ->
  downloads E url img ->
  disk E (outputPathAt E (S (ticks w))) <> Saved ->
  exists e w',
    ProcessThumbnail E url title duration w = Some ((EmptyString, Some e), w')
    /\ e = match disk E (outputPathAt E (S (ticks w))) with
           | MkdirAllFails => errMkdirAll
           | CreateFails => errCreate
           | _ => errEncode
           end
    /\ thumbnailCache w' = thumbnailCache w
    /\ files w' = match disk E (outputPathAt E (S (ticks w))) with
                  | EncodeFails => <[outputPathAt E (S (ticks w)) := Truncated]> (files w)
                  | _ => files w
                  end
    /\ In (EvHttpGet (CleanURL E url)) (trace w').
Proof.
  intros Hurl Hmiss Hdl Hdisk.
  rewrite (ProcessThumbnail_miss E url title duration w Hurl Hmiss).
  destruct (regenerate_downloaded E (cacheKey url title duration) url title duration
              img (tick w) Hdl) as (out & evs & Hrun & _).
  rewrite Hrun. unfold stored. cbn [tick ticks thumbnailCache files trace].
  assert (Hin : forall tail, In (EvHttpGet (CleanURL E url))
                  ((trace w ++ EvHttpGet (CleanURL E url) :: evs) ++ tail)).
  { intros tail. apply in_or_app. left. apply in_or_app. right. now left. }
  destruct (disk E (outputPathAt E (S (ticks w)))); [| | | congruence];
    eexists; eexists; (split; [reflexivity |]);
    cbn [thumbnailCache files trace]; repeat split; apply Hin.
Qed.

(** X4, at an instance: the request of the examples on a disk that is
    full. *)
Lemma ProcessThumbnail_save_fails_witness :
  exists e w',
    ProcessThumbnail fullDiskEnv "http://img/ok" "Song" "3:45" freshWorld
    = Some ((EmptyString, Some e), w')
    /\ e = errEncode
    /\ thumbnailCache w' = thumbnailCache freshWorld
    /\ files w' = <[outputPathAt fullDiskEnv 1 := Truncated]> (files freshWorld)
    /\ In (EvHttpGet "http://img/ok") (trace w').
Proof.
  apply (ProcessThumbnail_save_fails fullDiskEnv "http://img/ok" "Song" "3:45"
           (Bitmap "JPEGDATA" 2000 2000) freshWorld).
  - discriminate.
  - vm_compute. exact I.
  - exists (mkResponse 200 "200 OK" (Some "JPEGDATA")), "JPEGDATA". now vm_compute.
  - discriminate.
Defined.

(** *** What a request leaves alone *)

Lemma isLog_not_get (logs : list Event) :
  forallb isLog logs = true -> forallb (fun e => negb (isHttpGet e)) logs = true.
Proof.
  induction logs as [|e logs IH]; [reflexivity |]. cbn.
  intros H. apply andb_true_iff in H as [He Hl].
  rewrite (IH Hl). now destruct e.
Qed.

Lemma lookup_Cache_Set_ne (c : Cache) (now : Z) (key value k : string) :
  k <> key -> cache_items (Cache_Set c now key value) !! k = cache_items c !! k.
Proof. intros Hne. unfold Cache_Set. cbn. now rewrite lookup_insert_ne. Qed.

(** The step after a miss: one GET for the cleaned address, then no other;
    the cache changes at the request's key at most, and on success only; the
    files change at the generated path at most. *)
Lemma regenerate_frame (E : Env) (key url title duration : string) (w : World) :
  exists r w' evs,
    regenerate E key url title duration w = Some (r, w')
    /\ trace w' = trace w ++ EvHttpGet (CleanURL E url) :: evs
    /\ forallb (fun e => negb (isHttpGet e)) evs = true
    /\ cache_ttl (thumbnailCache w') = cache_ttl (thumbnailCache w)
    /\ (forall k, k <> key ->
                  cache_items (thumbnailCache w') !! k = cache_items (thumbnailCache w) !! k)
    /\ (forall e, snd r = Some e -> thumbnailCache w' = thumbnailCache w)
    /\ (forall path, path <> outputPathAt E (ticks w) -> files w' !! path = files w !! path)
    /\ (config_ThumbnailOverlay E = false ->
        forall i, ~ In (EvAddOverlay i) evs)
    /\ (ticks w <= ticks w' <= ticks w + 2)%nat.
Proof.
  destruct (download_cases E url) as [[img Hdl] | [e Hf]].
  - destruct (regenerate_downloaded E key url title duration img w Hdl)
      as (out & evs & Hrun & Hoff & Hon).
    rewrite Hrun. unfold stored.
    set (p := outputPathAt E (ticks w)).
    assert (Hevs : forallb (fun e => negb (isHttpGet e)) (evs ++ [EvSaveImage p]) = true).
    { rewrite forallb_app. apply andb_true_iff. split; [| reflexivity].
      destruct (config_ThumbnailOverlay E).
      - destruct (Hon eq_refl) as (logs & -> & Hlogs & _). cbn.
        now apply isLog_not_get.
      - now destruct (Hoff eq_refl) as (_ & ->). }
    assert (Hnone : config_ThumbnailOverlay E = false ->
                    forall i, ~ In (EvAddOverlay i) (evs ++ [EvSaveImage p])).
    { intros Hov i Hin. destruct (Hoff Hov) as (_ & ->).
      cbn in Hin. now destruct Hin as [Hin | []]. }
    destruct (disk E p); eexists; eexists; exists (evs ++ [EvSaveImage p]);
      (split; [reflexivity |]); cbn [thumbnailCache files ticks trace snd];
      (split; [now rewrite <- app_assoc |]); (split; [exact Hevs |]);
      repeat split; try easy; try lia; intros;
      try (now rewrite lookup_insert_ne); now apply lookup_Cache_Set_ne.
  - rewrite (regenerate_download_fails E key url title duration e w Hf).
    eexists; eexists; exists [EvLog "Failed to download thumbnail: %v"].
    split; [reflexivity |]. cbn [thumbnailCache files ticks trace snd].
    repeat split; try easy; try lia.
    intros _ i [Hin | []]. discriminate.
Qed.

(** X5.  Whatever a request does, it leaves the rest alone: the time to
    live of the cache and the entry of every key but the request's own stay
    as they were; a request that ends in an error leaves the whole cache as
    it was; every file but the one at the path made from the second reading
    of the clock stays as it was (none is removed, none but that one is
    written); and the clock is read three times at most. *)
Theorem ProcessThumbnail_frame (E : Env) (url title duration : string) (w : World) :
  exists r w',
    ProcessThumbnail E url title duration w = Some (r, w')
    /\ cache_ttl (thumbnailCache w') = cache_ttl (thumbnailCache w)
    /\ (forall k, k <> cacheKey url title duration ->
                  cache_items (thumbnailCache w') !! k = cache_items (thumbnailCache w) !! k)
    /\ (forall e, snd r = Some e -> thumbnailCache w' = thumbnailCache w)
    /\ (forall path, path <> outputPathAt E (S (ticks w)) ->
                     files w' !! path = files w !! path)
    /\ (ticks w <= ticks w' <= ticks w + 3)%nat.
Proof.
  destruct url as [|c url].
  - exists (EmptyString, None), w. cbn. repeat split; try easy; lia.
  - rewrite ProcessThumbnail_run by discriminate.
    destruct (regenerate_frame E (cacheKey (String c url) title duration)
                (String c url) title duration (tick w))
      as (r & w' & evs & Hrun & _ & _ & Httl & Hitems & Herr & Hfiles & _ & Hticks).
    cbn [tick thumbnailCache files ticks] in *.
    assert (Hregen : exists r w',
      regenerate E (cacheKey (String c url) title duration) (String c url) title duration
        (tick w) = Some (r, w')
      /\ cache_ttl (thumbnailCache w') = cache_ttl (thumbnailCache w)
      /\ (forall k, k <> cacheKey (String c url) title duration ->
            cache_items (thumbnailCache w') !! k = cache_items (thumbnailCache w) !! k)
      /\ (forall e, snd r = Some e -> thumbnailCache w' = thumbnailCache w)
      /\ (forall path, path <> outputPathAt E (S (ticks w)) ->
            files w' !! path = files w !! path)
      /\ (ticks w <= ticks w' <= ticks w + 3)%nat).
    { exists r, w'. repeat split; try assumption; lia. }
    destruct (Cache_Get _ _ _) as [cached|]; [| exact Hregen].
    destruct (bool_decide _); [| exact Hregen].
    exists (cached, None), (tick w). cbn. repeat split; try easy; lia.
Qed.

(** X6.  A request sends one GET at most, and only for the cleaned address
    of its url: its events are none at all (empty url, or a cached file
    served), or that GET first and no GET after it.  With the overlay
    switched off no picture is handed to [addOverlay]. *)
Theorem ProcessThumbnail_one_request (E : Env) (url title duration : string) (w : World) :
  exists r w' evs,
    ProcessThumbnail E url title duration w = Some (r, w')
    /\ trace w' = trace w ++ evs
    /\ (evs = []
        \/ exists rest, evs = EvHttpGet (CleanURL E url) :: rest
                        /\ forallb (fun e => negb (isHttpGet e)) rest = true)
    /\ (config_ThumbnailOverlay E = false -> forall i, ~ In (EvAddOverlay i) evs).
Proof.
  assert (Hquiet : forall r w0, trace w0 = trace w ->
            exists (r' : string * option error) w' evs,
              Some (r, w0) = Some (r', w')
              /\ trace w' = trace w ++ evs
              /\ (evs = []
                  \/ exists rest, evs = EvHttpGet (CleanURL E url) :: rest
                       /\ forallb (fun e => negb (isHttpGet e)) rest = true)
              /\ (config_ThumbnailOverlay E = false ->
                  forall i, ~ In (EvAddOverlay i) evs)).
  { intros r w0 Htr. exists r, w0, []. rewrite app_nil_r.
    repeat split; [exact Htr | now left | easy]. }
  destruct url as [|c url]; [now apply Hquiet |].
  rewrite ProcessThumbnail_run by discriminate.
  destruct (regenerate_frame E (cacheKey (String c url) title duration)
              (String c url) title duration (tick w))
    as (r & w' & evs & Hrun & Htr & Hget & _ & _ & _ & _ & Hnone & _).
  assert (Hregen : exists r w' evs,
    regenerate E (cacheKey (String c url) title duration) (String c url) title duration
      (tick w) = Some (r, w')
    /\ trace w' = trace w ++ evs
    /\ (evs = []
        \/ exists rest, evs = EvHttpGet (CleanURL E (String c url)) :: rest
             /\ forallb (fun e => negb (isHttpGet e)) rest = true)
    /\ (config_ThumbnailOverlay E = false -> forall i, ~ In (EvAddOverlay i) evs)).
  { exists r, w', (EvHttpGet (CleanURL E (String c url)) :: evs).
    repeat split; [exact Hrun | exact Htr | right; eauto |].
    intros Hov i [Hin | Hin]; [discriminate | now apply (Hnone Hov i)]. }
  destruct (Cache_Get _ _ _) as [cached|]; [| exact Hregen].
  destruct (bool_decide _); [| exact Hregen].
  now apply Hquiet.
Qed.

(* ===================================================================== *)
(** ** Numbers in print *)
(* ===================================================================== *)

Lemma to_uint_nonnil (n : N) : N.to_uint n <> Decimal.Nil.
Proof.
  destruct n as [|p]; [discriminate | apply DecimalPos.Unsigned.to_uint_nonnil].
Qed.

Lemma decimal_NilEmpty (n : N) : decimal n = NilEmpty.string_of_uint (N.to_uint n).
Proof.
  unfold decimal, NilZero.string_of_uint.
  pose proof (to_uint_nonnil n). now destruct (N.to_uint n).
Qed.

(** Reading back the digits of a number, behind any run of zeros, gives the
    number. *)
Lemma padZeros_decimal_parse (k : nat) (n : N) :
  option_map N.of_uint (NilEmpty.uint_of_string (padZeros k (decimal n))) = Some n.
Proof.
  unfold padZeros. generalize (k - String.length (decimal n))%nat as z.
  induction z as [|z IH].
  - cbn. rewrite decimal_NilEmpty, NilEmpty.usu. cbn.
    now rewrite DecimalN.Unsigned.of_to.
  - cbn [repeat string_of_list_ascii append NilEmpty.uint_of_string].
    destruct (NilEmpty.uint_of_string _) as [d|]; [| discriminate].
    exact IH.
Qed.

Lemma padZeros_decimal_inj (k : nat) (n m : N) :
  padZeros k (decimal n) = padZeros k (decimal m) -> n = m.
Proof.
  intros H. pose proof (padZeros_decimal_parse k n) as Hn.
  rewrite H, padZeros_decimal_parse in Hn. congruence.
Qed.

Lemma decimal_inj (n m : N) : decimal n = decimal m -> n = m.
Proof. apply (padZeros_decimal_inj 0). Qed.

Lemma decimal_no_sign (n : N) (s : string) : decimal n <> "-" +:+ s.
Proof.
  intros H. pose proof (padZeros_decimal_parse 0 n) as Hn.
  change (padZeros 0 (decimal n)) with (decimal n) in Hn. rewrite H in Hn.
  cbn in Hn. now destruct (NilEmpty.uint_of_string s).
Qed.

(** [%d] prints different numbers differently. *)
Lemma fmt_d_inj (a b : Z) : fmt_d a = fmt_d b -> a = b.
Proof.
  unfold fmt_d. intros H.
  destruct (a <? 0) eqn:Ha, (b <? 0) eqn:Hb;
    try apply Z.ltb_lt in Ha; try apply Z.ltb_lt in Hb;
    try apply Z.ltb_ge in Ha; try apply Z.ltb_ge in Hb.
  - inversion H as [H']. apply decimal_inj in H'. lia.
  - symmetry in H. now apply decimal_no_sign in H.
  - now apply decimal_no_sign in H.
  - apply decimal_inj in H. lia.
Qed.

(** [%02d] prints different numbers that are not negative differently. *)
Lemma fmt_02d_inj (a b : Z) : 0 <= a -> 0 <= b -> fmt_02d a = fmt_02d b -> a = b.
Proof.
  unfold fmt_02d. intros Ha Hb H.
  destruct (a <? 0) eqn:Ha'; [apply Z.ltb_lt in Ha'; lia |].
  destruct (b <? 0) eqn:Hb'; [apply Z.ltb_lt in Hb'; lia |].
  apply padZeros_decimal_inj in H. lia.
Qed.

Lemma append_inj_r (a b c : string) : a +:+ c = b +:+ c -> a = b.
Proof.
  revert b. induction a as [|x a IH]; intros [|y b] H.
  - reflexivity.
  - apply (f_equal String.length) in H. cbn in H. rewrite append_length in H. lia.
  - apply (f_equal String.length) in H. cbn in H. rewrite append_length in H. lia.
  - cbn in H. inversion H. f_equal. now apply IH.
Qed.

Lemma append_inj_l (a b c : string) : a +:+ b = a +:+ c -> b = c.
Proof.
  induction a as [|x a IH]; cbn; intros H; [exact H |]. inversion H. now apply IH.
Qed.

(** X7.  [generateOutputPath] in two worlds gives one and the same path
    exactly when the clock reads the same in both: thumbnails made at
    different readings never share a file, and two made at one reading
    do. *)
Theorem generateOutputPath_collides (E : Env) (w1 w2 : World) :
  fst <$> generateOutputPath E w1 = fst <$> generateOutputPath E w2
  <-> clock E (ticks w1) = clock E (ticks w2).
Proof.
  rewrite !generateOutputPath_run. cbn [fmap option_fmap option_map fst].
  split.
  - intros H. inversion H as [Hp]. rewrite !outputPathAt_eq in Hp.
    apply append_inj_r in Hp.
    apply append_inj_l, append_inj_l in Hp. now apply fmt_d_inj.
  - intros H. unfold outputPathAt. now rewrite H.
Qed.

Lemma countByte_hasByte (c : ascii) (s : string) :
  countByte c s = 0%nat -> hasByte c s = false.
Proof.
  induction s as [|d s IH]; cbn; [reflexivity |].
  destruct (Ascii.eqb d c); cbn; [discriminate | exact IH].
Qed.

Lemma hasByte_colon_fmt_02d (n : Z) : 0 <= n -> hasByte ":" (fmt_02d n) = false.
Proof. intros H. now apply countByte_hasByte, countByte_colon_fmt_02d. Qed.

(** The parts of a positive duration give the duration back. *)
Lemma duration_parts (a b : Z) :
  0 < a -> 0 < b ->
  Z.quot a 3600 = Z.quot b 3600 ->
  Z.quot (Z.rem a 3600) 60 = Z.quot (Z.rem b 3600) 60 ->
  Z.rem a 60 = Z.rem b 60 ->
  a = b.
Proof.
  intros Ha Hb.
  rewrite !Z.rem_mod_nonneg, !Z.quot_div_nonneg by (try apply Z.mod_pos_bound; lia).
  intros H1 H2 H3. Z.to_euclidean_division_equations. lia.
Qed.

(** X8.  [FormatDurationForThumbnail] prints two different durations
    differently when neither is negative; so no positive duration prints as
    the [00:00] of zero. *)
Theorem FormatDurationForThumbnail_distinct (a b : Z) :
  0 <= a -> 0 <= b -> a <> b ->
  FormatDurationForThumbnail a <> FormatDurationForThumbnail b.
Proof.
  assert (Hzero : forall x, 0 < x -> FormatDurationForThumbnail x <> "00:00").
  { intros x Hx H. unfold FormatDurationForThumbnail in H.
    destruct (x <=? 0) eqn:Hle; [apply Z.leb_le in Hle; lia |].
    destruct (minutes_secs_range x Hx) as [Hm Hs].
    destruct (Z.quot x 3600 >? 0) eqn:Hh.
    - apply (f_equal (countByte ":")) in H. apply Z.gtb_lt in Hh.
      rewrite !countByte_app, !countByte_colon_fmt_02d in H by lia. discriminate.
    - change "00:00" with (fmt_02d 0 +:+ ":" +:+ fmt_02d 0) in H.
      apply split_at_colon in H; try (apply hasByte_colon_fmt_02d; lia).
      destruct H as [H1 H2]. apply fmt_02d_inj in H1, H2; try lia.
      assert (Z.quot x 3600 <= 0) by (rewrite Z.gtb_ltb in Hh; apply Z.ltb_ge in Hh; lia).
      pose proof (Z.quot_pos x 3600 ltac:(lia) ltac:(lia)).
      assert (x = 0); [| lia].
      revert H H0 H1 H2.
      rewrite !Z.rem_mod_nonneg, !Z.quot_div_nonneg by (try apply Z.mod_pos_bound; lia).
      intros. Z.to_euclidean_division_equations. lia. }
  intros Ha Hb Hne H.
  destruct (Z.eq_dec a 0) as [-> | Ha0].
  { symmetry in H. apply (Hzero b); [lia | exact H]. }
  destruct (Z.eq_dec b 0) as [-> | Hb0].
  { apply (Hzero a); [lia | exact H]. }
  apply Hne. unfold FormatDurationForThumbnail in H.
  destruct (a <=? 0) eqn:Hale; [apply Z.leb_le in Hale; lia |].
  destruct (b <=? 0) eqn:Hble; [apply Z.leb_le in Hble; lia |].
  destruct (minutes_secs_range a ltac:(lia)) as [Hma Hsa].
  destruct (minutes_secs_range b ltac:(lia)) as [Hmb Hsb].
  pose proof (Z.quot_pos a 3600 ltac:(lia) ltac:(lia)) as Hha.
  pose proof (Z.quot_pos b 3600 ltac:(lia) ltac:(lia)) as Hhb.
  destruct (Z.quot a 3600 >? 0) eqn:Hah, (Z.quot b 3600 >? 0) eqn:Hbh.
  - apply split_at_colon in H; try (apply hasByte_colon_fmt_02d; lia).
    destruct H as [H1 H]. apply split_at_colon in H; try (apply hasByte_colon_fmt_02d; lia).
    destruct H as [H2 H3]. apply fmt_02d_inj in H1, H2, H3; try lia.
    apply duration_parts; (lia || assumption).
  - apply (f_equal (countByte ":")) in H.
    rewrite !countByte_app, !countByte_colon_fmt_02d in H by lia. discriminate.
  - apply (f_equal (countByte ":")) in H.
    rewrite !countByte_app, !countByte_colon_fmt_02d in H by lia. discriminate.
  - apply split_at_colon in H; try (apply hasByte_colon_fmt_02d; lia).
    destruct H as [H2 H3]. apply fmt_02d_inj in H2, H3; try lia.
    apply duration_parts; (lia || assumption).
Qed.

(** X8, at an instance: a duration and the same an hour later. *)
Lemma FormatDurationForThumbnail_distinct_witness :
  FormatDurationForThumbnail 65 <> FormatDurationForThumbnail 3665.
Proof.
  apply (FormatDurationForThumbnail_distinct 65 3665); lia.
Defined.

(* ===================================================================== *)
(** ** [CleanupOldThumbnails] *)
(* ===================================================================== *)

(** Whether a time lies more than an hour back does not depend on the range
    of a [Duration]. *)
Lemma time_Sub_Hour (t u : Z) : (time_Sub t u >? time_Hour) = (t - u >? time_Hour).
Proof.
  unfold time_Sub.
  assert (Hh : time_Hour = 3600000000000) by reflexivity. rewrite Hh.
  assert (Hp : 2 ^ 63 = 9223372036854775808) by reflexivity. rewrite Hp.
  destruct (t - u >? _) eqn:H1; [| destruct (t - u <? _) eqn:H2]; lia.
Qed.

Lemma sweep_run (E : Env) (D : Dirs) (now : Z) (entries : list DirEntry) (w : World) :
  exists w',
    sweep D (thumbnailDir E) now entries w = Some (tt, w')
    /\ thumbnailCache w' = thumbnailCache w
    /\ ticks w' = ticks w
    /\ trace w'
       = trace w ++ map (fun _ => EvLog "Failed to remove old thumbnail %s: %v")
                      (List.filter
                         (fun e => isOld now e && negb (os_Remove_ok D (entryPath E e)))
                         entries)
    /\ forall path,
         files w' !! path
         = if existsb (fun e => isOld now e && String.eqb (entryPath E e) path
                                && os_Remove_ok D path) entries
           then None else files w !! path.
Proof.
  revert w. induction entries as [|e rest IH]; intros w.
  - exists w. cbn. now rewrite app_nil_r.
  - cbn [sweep existsb List.filter].
    destruct (entry_IsDir e) eqn:Hd.
    { replace (isOld now e) with false by (unfold isOld; now rewrite Hd). apply IH. }
    destruct (entry_Info e) as [modTime|] eqn:Hi.
    2: { replace (isOld now e) with false by (unfold isOld; now rewrite Hd, Hi). apply IH. }
    rewrite time_Sub_Hour.
    destruct (now - modTime >? time_Hour) eqn:Hh.
    2: { replace (isOld now e) with false by (unfold isOld; now rewrite Hd, Hi, Hh).
         apply IH. }
    replace (isOld now e) with true by (unfold isOld; now rewrite Hd, Hi, Hh).
    cbn [andb orb].
    fold (entryPath E e). unfold bind at 1, os_Remove.
    destruct (os_Remove_ok D (entryPath E e)) eqn:Hok; cbn [negb].
    + unfold bind at 1 2, setFiles, ret.
      destruct (IH {| thumbnailCache := thumbnailCache w;
                      files := delete (entryPath E e) (files w);
                      ticks := ticks w; trace := trace w |})
        as (w' & Hrun & Hc & Ht & Htr & Hf).
      exists w'. cbn [thumbnailCache files ticks trace] in *.
      repeat split; try assumption.
      intros path. rewrite Hf.
      destruct (String.eqb (entryPath E e) path) eqn:Heq; cbn [andb orb].
      * apply String.eqb_eq in Heq. subst path. rewrite Hok. cbn [orb].
        rewrite lookup_delete_eq. now destruct (existsb _ rest).
      * apply String.eqb_neq in Heq. now rewrite lookup_delete_ne.
    + unfold bind at 1, logger_ErrorF, emit.
      destruct (IH {| thumbnailCache := thumbnailCache w; files := files w;
                      ticks := ticks w;
                      trace := trace w ++ [EvLog "Failed to remove old thumbnail %s: %v"] |})
        as (w' & Hrun & Hc & Ht & Htr & Hf).
      exists w'. cbn [thumbnailCache files ticks trace map] in *.
      repeat split; try assumption.
      * now rewrite Htr, <- app_assoc.
      * intros path. rewrite Hf.
        destruct (String.eqb (entryPath E e) path) eqn:Heq; cbn [andb orb]; [| reflexivity].
        apply String.eqb_eq in Heq. subst path. now rewrite Hok.
Qed.

Lemma CleanupOldThumbnails_run (E : Env) (D : Dirs) (w : World) :
  exists w',
    CleanupOldThumbnails E D w = Some (tt, w')
    /\ thumbnailCache w' = thumbnailCache w
    /\ (ticks w <= ticks w' <= S (ticks w))%nat
    /\ (exists logs, trace w' = trace w ++ logs /\ forallb isLog logs = true)
    /\ forall path,
         files w' !! path
         = if swept E D (clock E (ticks w)) path then None else files w !! path.
Proof.
  unfold CleanupOldThumbnails, swept, listed. fold (thumbnailDir E).
  destruct (stat_IsNotExist D (thumbnailDir E)).
  { exists w. repeat split; try lia. exists []. now rewrite app_nil_r. }
  destruct (os_ReadDir D (thumbnailDir E)) as [entries|]; cbn [default].
  - unfold bind at 1, time_Now.
    destruct (sweep_run E D (clock E (ticks w)) entries (tick w))
      as (w' & Hrun & Hc & Ht & Htr & Hf).
    exists w'. cbn [tick thumbnailCache files ticks trace] in *.
    repeat split; try assumption; try lia.
    eexists. split; [exact Htr |].
    generalize (List.filter
                  (fun e => isOld (clock E (ticks w)) e
                            && negb (os_Remove_ok D (entryPath E e))) entries).
    intros l. induction l as [|x l IHl]; [reflexivity | exact IHl].
  - eexists. split; [reflexivity |]. cbn. repeat split; try lia. now eexists.
Qed.

(** X9.  [CleanupOldThumbnails] removes the files listed in the directory
    of the thumbnails that are no directories, whose [Info] can be read, that
    were changed more than an hour before the reading of the clock (a file
    changed exactly an hour before stays), and that [os.Remove] can remove,
    whatever their names; every other file stays as it was, and no file is
    written.  The cache is not touched: an entry may be left pointing at a
    file that is gone. *)
Theorem CleanupOldThumbnails_removes_old (E : Env) (D : Dirs) (w : World) :
  exists w',
    CleanupOldThumbnails E D w = Some (tt, w')
    /\ thumbnailCache w' = thumbnailCache w
    /\ forall path,
         files w' !! path
         = if swept E D (clock E (ticks w)) path then None else files w !! path.
Proof.
  destruct (CleanupOldThumbnails_run E D w) as (w' & Hrun & Hc & _ & _ & Hf).
  now exists w'.
Qed.

(** X10.  What [CleanupOldThumbnails] reads and logs.  When the directory
    does not exist nothing happens at all, and the clock is not read.  When
    it cannot be listed one line is logged and nothing else happens.
    Otherwise the clock is read once, before the first entry, and a line is
    logged for each old file that cannot be removed, after which the sweep
    goes on with the entries that follow. *)
Theorem CleanupOldThumbnails_log (E : Env) (D : Dirs) (w : World) :
  (stat_IsNotExist D (thumbnailDir E) = true ->
   CleanupOldThumbnails E D w = Some (tt, w))
  /\ (stat_IsNotExist D (thumbnailDir E) = false ->
      os_ReadDir D (thumbnailDir E) = None ->
      CleanupOldThumbnails E D w
      = Some (tt, addEvents w [EvLog "Failed to read thumbnail directory: %v"]))
  /\ (forall entries,
        stat_IsNotExist D (thumbnailDir E) = false ->
        os_ReadDir D (thumbnailDir E) = Some entries ->
        exists w',
          CleanupOldThumbnails E D w = Some (tt, w')
          /\ ticks w' = S (ticks w)
          /\ trace w'
             = trace w
               ++ map (fun _ => EvLog "Failed to remove old thumbnail %s: %v")
                    (List.filter
                       (fun e => isOld (clock E (ticks w)) e
                                 && negb (os_Remove_ok D (entryPath E e)))
                       entries)).
Proof.
  unfold CleanupOldThumbnails. fold (thumbnailDir E).
  split; [| split].
  - now intros ->.
  - now intros -> ->.
  - intros entries -> ->. unfold bind at 1, time_Now.
    destruct (sweep_run E D (clock E (ticks w)) entries (tick w))
      as (w' & Hrun & _ & Ht & Htr & _).
    exists w'. now repeat split.
Qed.

(** X11.  The sweep and the cache are not coordinated, and the request
    makes up for it: when [CleanupOldThumbnails] has removed the file that an
    entry of the cache points at, a request for the entry's key made after it
    does not return the path that is gone but starts over, with a GET for the
    picture. *)
Theorem ProcessThumbnail_after_cleanup (E : Env) (D : Dirs)
  (url title duration cached : string) (w w1 : World) :
  url <> EmptyString ->
  CleanupOldThumbnails E D w = Some (tt, w1) ->
  Cache_Get (thumbnailCache w) (clock E (ticks w1)) (cacheKey url title duration)
  = Some cached ->
  swept E D (clock E (ticks w)) cached = true ->
  exists r w2 rest,
    ProcessThumbnail E url title duration w1 = Some (r, w2)
    /\ trace w2 = trace w1 ++ EvHttpGet (CleanURL E url) :: rest.
Proof.
  intros Hurl Hclean Hget Hswept.
  destruct (CleanupOldThumbnails_run E D w) as (w' & Hrun & Hc & _ & _ & Hf).
  rewrite Hclean in Hrun. inversion Hrun; subst w'.
  rewrite (ProcessThumbnail_miss E url title duration w1 Hurl).
  - destruct (regenerate_frame E (cacheKey url title duration) url title duration (tick w1))
      as (r & w2 & evs & Hregen & Htr & _).
    now exists r, w2, evs.
  - unfold cacheMiss. rewrite Hc, Hget, Hf. now rewrite Hswept.
Qed.

(** X11, at an instance: the cached thumbnail of the examples, two hours
    old when the sweep runs. *)
Lemma ProcessThumbnail_after_cleanup_witness :
  exists r w2 rest,
    ProcessThumbnail exampleEnv "http://img/ok" "Song" "3:45" sweptWorld = Some (r, w2)
    /\ trace w2 = trace sweptWorld ++ EvHttpGet "http://img/ok" :: rest.
Proof.
  apply (ProcessThumbnail_after_cleanup exampleEnv exampleDirs "http://img/ok" "Song" "3:45"
           "/tmp/yukki_thumbnails/thumb_1.jpg" cachedWorld).
  - discriminate.
  - vm_compute. reflexivity.
  - vm_compute. reflexivity.
  - vm_compute. reflexivity.
Defined.

(* ===================================================================== *)
(** ** The texts of [addOverlay] *)
(* ===================================================================== *)

Lemma wrapWords_face (E : Env) (dc dc' : Context) (maxWidth : Q) (words : list string) :
  ctx_fontFace dc = ctx_fontFace dc' ->
  forall lines cur,
    wrapWords E dc maxWidth words lines cur = wrapWords E dc' maxWidth words lines cur.
Proof.
  intros Hface. induction words as [|word rest IH]; intros lines cur; [reflexivity |].
  cbn [wrapWords]. unfold MeasureString. rewrite Hface.
  destruct (_ && _); apply IH.
Qed.

Lemma ellipsisLoop_face (E : Env) (dc dc' : Context) (maxWidth : Q) (lines : list string) :
  ctx_fontFace dc = ctx_fontFace dc' ->
  forall fuel lastLine,
    ellipsisLoop E fuel dc maxWidth lines lastLine
    = ellipsisLoop E fuel dc' maxWidth lines lastLine.
Proof.
  intros Hface. induction fuel as [|fuel IH]; intros lastLine; [reflexivity |].
  cbn [ellipsisLoop]. unfold MeasureString. rewrite Hface.
  destruct (Qle_bool _ _); [reflexivity |].
  destruct (_ <=? 1)%nat; [reflexivity | apply IH].
Qed.

(** [wrapText] looks at the face of the context only. *)
Lemma wrapText_face (E : Env) (dc dc' : Context) (text : string) (maxWidth : Q) :
  ctx_fontFace dc = ctx_fontFace dc' ->
  wrapText E dc text maxWidth = wrapText E dc' text maxWidth.
Proof.
  intros Hface. unfold wrapText.
  rewrite (wrapWords_face E dc dc' maxWidth _ Hface).
  destruct (_ =? 0)%nat; [reflexivity |].
  destruct (wrapWords E dc' maxWidth _ _ _) as [lines cur].
  destruct (2 <? _)%nat; [| reflexivity].
  now rewrite (ellipsisLoop_face E dc dc' maxWidth _ Hface).
Qed.

Lemma loadFont_resolved (E : Env) (dc : Context) (size : Q) (w : World) :
  exists w',
    loadFont E dc size w = Some (withFont dc size (resolvedFont E (files w) size), w')
    /\ files w' = files w.
Proof.
  rewrite loadFont_run. unfold resolvedFont.
  destruct (customFontUsable E (files w) size); [now exists w |].
  eexists. split; [reflexivity |]. now destruct (_ && _).
Qed.

(** X12.  What [addOverlay] draws when a font resolves at the size of the
    title (a 25th of the width) and at the size of the duration (a 35th):
    over the fitted picture the rows of the gradient, then the title, if
    there is one, as [wrapText] lays it out at nine tenths of the width in
    the title's face, centred at half the width, 60 above the bottom, a
    black shadow of alpha 200 two to the right and below under the text in
    the configured colour, then the duration, if there is one, its right
    bottom corner 20 from the right and from the bottom, a like shadow one
    to the right and below under the text in white.  An empty title or
    duration is not drawn. *)
Theorem addOverlay_layers (E : Env) (img : Image) (cfg : ThumbnailConfig) (w : World)
  (f1 f2 : string) :
  let img' := fitted cfg img in
  let W := float64 (Dx img') in
  let H := float64 (Dy img') in
  let face1 := TrueType f1 (W / 25)%Q in
  let face2 := TrueType f2 (W / 35)%Q in
  resolvedFont E (files w) (W / 25)%Q = Some f1 ->
  resolvedFont E (files w) (W / 35)%Q = Some f2 ->
  exists title w',
    wrapText E (setFontFace (NewContextForImage img') face1) (TitleText cfg)
      (W * (9 # 10))%Q = Some title
    /\ addOverlay E img cfg w
       = Some ((Drawn img'
                  (map (gradientRow (Dx img') (Dy img')) (seqZ 0 (gradientRowCount (Dy img')))
                   ++ (if isEmpty (TitleText cfg) then []
                       else shadowed (mkRGBA 0 0 0 200) (TextColor cfg) face1 title
                              (W / 2)%Q (H - 60)%Q 2%Q (1 # 2)%Q (1 # 2)%Q)
                   ++ (if isEmpty (DurationText cfg) then []
                       else shadowed (mkRGBA 0 0 0 200) (mkRGBA 255 255 255 255) face2
                              (DurationText cfg) (W - 20)%Q (H - 20)%Q 1%Q 1%Q 1%Q)),
                None), w').
Proof.
  intros img' W H face1 face2 Hres1 Hres2.
  destruct (wrapText_total E (setFontFace (NewContextForImage img') face1) (TitleText cfg)
              (W * (9 # 10))%Q) as [title Htitle].
  exists title. unfold addOverlay. fold (fitted cfg img). fold img'.
  rewrite (bind_run _ _ w (addEvents w [EvAddOverlay img]) tt) by reflexivity.
  set (w0 := addEvents w [EvAddOverlay img]).
  destruct (gradientLoop_run (Dx img') (Dy img') (Z.to_nat (gradientRowCount (Dy img') - 0))
              (S (N.to_nat (Dy img'))) 0 (NewContextForImage img'))
    as (dcg & Hrun & Hbase & Hops & Hpath & Hface);
    [reflexivity | unfold gradientRowCount; Z.div_mod_to_equations; lia | reflexivity |].
  cbn in Hbase, Hops, Hface. rewrite Z.sub_0_r in Hops.
  rewrite (bind_run _ _ w0 w0 dcg) by (unfold liftOption; now rewrite Hrun).
  fold W H.
  destruct (loadFont_resolved E dcg (W / 25)%Q w0) as (w1 & Hload & Hf1).
  cbn [w0 addEvents files] in Hload, Hf1. rewrite Hres1 in Hload.
  rewrite (bind_run _ _ _ _ _ Hload). cbn [withFont]. fold face1.
  set (dc1 := setFontFace dcg face1).
  assert (Hwrap : wrapText E dc1 (TitleText cfg) (W * (9 # 10))%Q = Some title).
  { rewrite <- Htitle. now apply wrapText_face. }
  match goal with
  | |- context [bind ?m _ w1] =>
      assert (Ht : exists dc2,
                m w1 = Some (dc2, w1)
                /\ ctx_base dc2 = img'
                /\ ctx_ops dc2
                   = map (gradientRow (Dx img') (Dy img'))
                       (seqZ 0 (gradientRowCount (Dy img')))
                     ++ (if isEmpty (TitleText cfg) then []
                         else shadowed (mkRGBA 0 0 0 200) (TextColor cfg) face1 title
                                (W / 2)%Q (H - 60)%Q 2%Q (1 # 2)%Q (1 # 2)%Q))
  end.
  { destruct (isEmpty (TitleText cfg)); cbn [negb].
    - exists dc1. cbn. now rewrite app_nil_r, Hbase, Hops.
    - rewrite (bind_run _ _ w1 w1 title) by (unfold liftOption; now rewrite Hwrap).
      eexists. split; [reflexivity |]. cbn. rewrite Hbase, Hops.
      split; [reflexivity |]. now rewrite <- app_assoc. }
  destruct Ht as (dc2 & Ht & Hb2 & Ho2). rewrite (bind_run _ _ _ _ _ Ht).
  match goal with
  | |- context [bind ?m _ w1] =>
      assert (Hd : exists dc3 w2,
                m w1 = Some (dc3, w2)
                /\ ctx_base dc3 = img'
                /\ ctx_ops dc3
                   = ctx_ops dc2
                     ++ (if isEmpty (DurationText cfg) then []
                         else shadowed (mkRGBA 0 0 0 200) (mkRGBA 255 255 255 255) face2
                                (DurationText cfg) (W - 20)%Q (H - 20)%Q 1%Q 1%Q 1%Q))
  end.
  { destruct (isEmpty (DurationText cfg)); cbn [negb].
    - exists dc2, w1. cbn. now rewrite app_nil_r.
    - destruct (loadFont_resolved E dc2 (W / 35)%Q w1) as (w2 & Hload2 & _).
      rewrite Hf1, Hres2 in Hload2.
      rewrite (bind_run _ _ _ _ _ Hload2). cbn [withFont]. fold face2.
      eexists. exists w2. split; [reflexivity |]. cbn. rewrite Hb2.
      split; [reflexivity |]. now rewrite <- app_assoc. }
  destruct Hd as (dc3 & w2 & Hd & Hb3 & Ho3). rewrite (bind_run _ _ _ _ _ Hd).
  exists w2. split; [exact Htitle |].
  unfold ret, ctx_Image. now rewrite Hb3, Ho3, Ho2, <- app_assoc.
Qed.

(** X12, at an instance: the picture of the examples, too large, with a
    title and a duration, one font installed. *)
Lemma addOverlay_layers_witness :
  exists title w',
    wrapText exampleEnv
      (setFontFace
         (NewContextForImage (fitted exampleConfig examplePicture))
         (TrueType exampleFont (float64 1280 / 25)%Q))
      "Song" (float64 1280 * (9 # 10))%Q = Some title
    /\ addOverlay exampleEnv examplePicture
         exampleConfig freshWorld
       = Some ((Drawn (fitted exampleConfig examplePicture)
                  (map (gradientRow 1280 720) (seqZ 0 180)
                   ++ shadowed (mkRGBA 0 0 0 200) (mkRGBA 255 255 255 255)
                        (TrueType exampleFont (float64 1280 / 25)%Q) title
                        (float64 1280 / 2)%Q (float64 720 - 60)%Q 2%Q (1 # 2)%Q (1 # 2)%Q
                   ++ shadowed (mkRGBA 0 0 0 200) (mkRGBA 255 255 255 255)
                        (TrueType exampleFont (float64 1280 / 35)%Q) "3:45"
                        (float64 1280 - 20)%Q (float64 720 - 20)%Q 1%Q 1%Q 1%Q),
                None), w').
Proof.
  apply (addOverlay_layers exampleEnv examplePicture
           exampleConfig freshWorld
           exampleFont
           exampleFont).
  - vm_compute. reflexivity.
  - vm_compute. reflexivity.
Defined.

(* ===================================================================== *)
(** ** The words [wrapText] keeps *)
(* ===================================================================== *)

Lemma scanFields_sep (c : ascii) (t : string) :
  (byte c <? 128)%N = true -> asciiSpace (byte c) = true ->
  scanFields 0 (String c t)
  = (EmptyString, flush (fst (scanFields 0 t)) (snd (scanFields 0 t))).
Proof.
  intros Hlow Hsp. cbn [scanFields]. unfold spaceWidth. rewrite Hlow, Hsp.
  now destruct (scanFields 0 t).
Qed.

(** A word, a white-space byte, and more: the word is the first field. *)
Lemma Fields_word_sep (w : string) (c : ascii) (t : string) :
  isField w -> (byte c <? 128)%N = true -> asciiSpace (byte c) = true ->
  strings_Fields (w +:+ String c t) = w :: strings_Fields t.
Proof.
  intros [Hne Hw] Hlow Hsp. unfold strings_Fields.
  rewrite scanFields_word; [| exact Hw | cbn; now apply N.ltb_lt].
  rewrite scanFields_sep by assumption. cbn [fst snd].
  rewrite append_empty_r. destruct (scanFields 0 t) as [f l]. now destruct w.
Qed.

(** The words of two lines, one under the other. *)
Lemma Fields_lines (g1 g2 : list string) :
  Forall isField g1 -> Forall isField g2 -> g1 <> [] ->
  strings_Fields (lineOf g1 +:+ LF +:+ lineOf g2) = g1 ++ g2.
Proof.
  intros H1 H2 Hne. induction H1 as [|w ws Hw Hws IH]; [congruence |].
  destruct ws as [|w2 ws].
  - change (lineOf [w] +:+ LF +:+ lineOf g2) with (w +:+ String "010" (lineOf g2)).
    rewrite Fields_word_sep; [| exact Hw | reflexivity | reflexivity].
    unfold lineOf. now rewrite (Fields_Join g2 H2).
  - change (lineOf (w :: w2 :: ws)) with (w +:+ " " +:+ lineOf (w2 :: ws)).
    rewrite !append_assoc.
    change (" " +:+ lineOf (w2 :: ws) +:+ LF +:+ lineOf g2)
      with (String " " (lineOf (w2 :: ws) +:+ LF +:+ lineOf g2)).
    rewrite Fields_word_sep; [| exact Hw | reflexivity | reflexivity].
    cbn [app]. f_equal. apply IH. discriminate.
Qed.

Lemma nospace_no_LF (w : string) : nospace w = true -> countByte "010" w = 0%nat.
Proof.
  induction w as [|c w IH]; [reflexivity |].
  cbn [nospace countByte]. intros H. apply andb_true_iff in H as [H0 Hw].
  rewrite (IH Hw). destruct (Ascii.eqb c "010") eqn:Hc; [| reflexivity].
  apply Ascii.eqb_eq in Hc. subst c. vm_compute in H0. discriminate.
Qed.

Lemma lineOf_no_LF (g : list string) :
  Forall isField g -> countByte "010" (lineOf g) = 0%nat.
Proof.
  induction 1 as [|w ws [_ Hw] Hws IH]; [reflexivity |].
  destruct ws as [|w2 ws]; [now apply nospace_no_LF |].
  change (lineOf (w :: w2 :: ws)) with (w +:+ " " +:+ lineOf (w2 :: ws)).
  now rewrite !countByte_app, IH, (nospace_no_LF w Hw).
Qed.

Lemma nospace_dots (w : string) :
  isField w -> isField (w +:+ "...").
Proof.
  intros [Hne Hw]. split; [now destruct w |].
  induction w as [|c w IH]; [congruence |].
  cbn [nospace] in Hw. apply andb_true_iff in Hw as [H0 Hw].
  change (String c w +:+ "...") with (String c (w +:+ "...")). cbn [nospace].
  apply andb_true_iff. split.
  - change (String c (w +:+ "...")) with (String c w +:+ "...").
    rewrite spaceWidth_app_plain; [exact H0 | discriminate | cbn; lia].
  - destruct w as [|d w]; [reflexivity |]. apply IH; [discriminate | exact Hw].
Qed.

Lemma dotLast_snoc (a : list string) (w : string) :
  dotLast (a ++ [w]) = a ++ [w +:+ "..."].
Proof.
  induction a as [|x a IH]; [reflexivity |].
  cbn [app dotLast]. rewrite IH. now destruct a.
Qed.

(** The first [k] words of a line with the dots: a line whose last word
    ends in the dots. *)
Lemma withDots_lineOf (g : list string) (k : nat) :
  (1 <= k <= length g)%nat ->
  exists h w, take k g = h ++ [w] /\ withDots g k = lineOf (h ++ [w +:+ "..."]).
Proof.
  intros Hk. unfold withDots.
  assert (Hlen : length (take k g) = k) by (rewrite length_take; lia).
  destruct (take k g) as [|x l] using rev_ind; [cbn in Hlen; lia |].
  clear IHl. exists l, x. split; [reflexivity |].
  destruct l as [|y l]; [reflexivity |].
  rewrite !lineOf_snoc by discriminate. now rewrite !append_assoc.
Qed.

Lemma ellipsized_Some (fits : string -> bool) (g : list string) (line : string) :
  forall k, ellipsized fits g k = Some line ->
            exists j, (1 <= j <= k)%nat /\ line = withDots g j.
Proof.
  induction k as [|k IH]; [discriminate |]. cbn [ellipsized].
  destruct (fits (withDots g (S k))).
  - intros H. inversion H. exists (S k). split; [lia | reflexivity].
  - intros H. destruct (IH H) as (j & Hj & ->). exists j. split; [lia | reflexivity].
Qed.

(** X13.  [wrapText] on a text with words keeps the words in their order
    and drops them only from the end: what it returns has one line feed at
    most (two lines), and its words are the first [n] words of the text, at
    least one, as they are or with three dots put after the last of them;
    when the greedy wrap needs no more than two lines they are all the words
    of the text, so that runs of white space are the only thing lost. *)
Theorem wrapText_keeps_words (E : Env) (dc : Context) (text : string) (maxWidth : Q) :
  strings_Fields text <> [] ->
  exists out n,
    wrapText E dc text maxWidth = Some out
    /\ (countByte "010" out <= 1)%nat
    /\ (1 <= n <= length (strings_Fields text))%nat
    /\ (strings_Fields out = take n (strings_Fields text)
        \/ strings_Fields out = dotLast (take n (strings_Fields text)))
    /\ ((length (greedyLines (fitsIn E dc maxWidth) (strings_Fields text)) <= 2)%nat ->
        strings_Fields out = strings_Fields text).
Proof.
  intros Hw. rewrite (wrapText_run E dc text maxWidth Hw).
  set (fits := fitsIn E dc maxWidth). set (words := strings_Fields text) in *.
  pose proof (greedyLines_isGreedyWrap fits words) as (Hcat & Hne & _ & _).
  pose proof (Fields_isField text) as Hfields. fold words in Hfields.
  rewrite <- Hcat in Hfields. apply Forall_concat_fields in Hfields.
  assert (Hpos : (1 <= length words)%nat) by (destruct words; [congruence | cbn; lia]).
  destruct (greedyLines fits words) as [|g1 [|g2 [|g3 rest]]].
  - cbn in Hcat. congruence.
  - inversion Hfields as [|? ? Hf1 _]; subst.
    cbn in Hcat. rewrite app_nil_r in Hcat. subst g1.
    exists (lineOf words), (length words). cbn [map strings_Join].
    assert (HF : strings_Fields (lineOf words) = words) by apply (Fields_Join words Hf1).
    rewrite firstn_all, HF.
    repeat split; try lia; auto. rewrite (lineOf_no_LF words Hf1). lia.
  - inversion Hfields as [|? ? Hf1 Hf]; subst. inversion Hf as [|? ? Hf2 _]; subst.
    inversion Hne as [|? ? Hn1 _]; subst.
    cbn in Hcat. rewrite app_nil_r in Hcat.
    exists (lineOf g1 +:+ LF +:+ lineOf g2), (length words). cbn [map strings_Join].
    rewrite firstn_all, (Fields_lines g1 g2 Hf1 Hf2 Hn1), Hcat.
    repeat split; try lia; auto.
    rewrite !countByte_app, (lineOf_no_LF g1 Hf1), (lineOf_no_LF g2 Hf2). cbn. lia.
  - inversion Hfields as [|? ? Hf1 Hf]; subst. inversion Hf as [|? ? Hf2 _]; subst.
    inversion Hne as [|? ? Hn1 Hn]; subst. inversion Hn as [|? ? Hn2 _]; subst.
    assert (Hlen2 : (1 <= length g2)%nat) by (destruct g2; [congruence | cbn; lia]).
    assert (Hwords : words = g1 ++ g2 ++ concat (g3 :: rest)) by (now rewrite <- Hcat).
    assert (Hlong : (length g1 + length g2 <= length words)%nat)
      by (rewrite Hwords, !length_app; lia).
    destruct (ellipsized fits g2 (length g2)) as [line|] eqn:Hell.
    + destruct (ellipsized_Some fits g2 line _ Hell) as (k & Hk & ->).
      destruct (withDots_lineOf g2 k Hk) as (h & w & Htake & ->).
      assert (Hh : Forall isField (h ++ [w +:+ "..."])).
      { assert (Ht : Forall isField (take k g2)) by now apply Forall_take.
        rewrite Htake in Ht. apply Forall_app in Ht as [Hh Hlast].
        apply Forall_app. split; [exact Hh |].
        inversion Hlast; subst. constructor; [now apply nospace_dots | constructor]. }
      exists (lineOf g1 +:+ LF +:+ lineOf (h ++ [w +:+ "..."])), (length g1 + k)%nat.
      split; [reflexivity |].
      rewrite (Fields_lines g1 _ Hf1 Hh Hn1).
      repeat split; try lia.
      * rewrite !countByte_app, (lineOf_no_LF g1 Hf1), (lineOf_no_LF _ Hh). cbn. lia.
      * right. rewrite Hwords, take_app_add, (take_app_le g2) by lia.
        rewrite Htake, !app_assoc. now rewrite dotLast_snoc.
      * cbn [length]. lia.
    + exists (lineOf g1 +:+ LF +:+ lineOf g2), (length g1 + length g2)%nat.
      split; [reflexivity |].
      rewrite (Fields_lines g1 g2 Hf1 Hf2 Hn1).
      repeat split; try lia.
      * rewrite !countByte_app, (lineOf_no_LF g1 Hf1), (lineOf_no_LF g2 Hf2). cbn. lia.
      * left. now rewrite Hwords, take_app_add, take_app_length.
      * cbn [length]. lia.
Qed.

(** X13, at an instance: a text with a run of spaces in it. *)
Lemma wrapText_keeps_words_witness :
  exists out n,
    wrapText exampleEnv (NewContextForImage examplePicture) "aa  bb cc" (60 # 1) = Some out
    /\ (countByte "010" out <= 1)%nat
    /\ (1 <= n <= length (strings_Fields "aa  bb cc"))%nat
    /\ (strings_Fields out = take n (strings_Fields "aa  bb cc")
        \/ strings_Fields out = dotLast (take n (strings_Fields "aa  bb cc")))
    /\ ((length (greedyLines (fitsIn exampleEnv (NewContextForImage examplePicture) (60 # 1))
                   (strings_Fields "aa  bb cc")) <= 2)%nat ->
        strings_Fields out = strings_Fields "aa  bb cc").
Proof.
  apply (wrapText_keeps_words exampleEnv (NewContextForImage examplePicture)
           "aa  bb cc" (60 # 1)).
  vm_compute. discriminate.
Defined.

(* ===================================================================== *)
(** ** The encoder [saveImage] chooses *)
(* ===================================================================== *)

Lemma dropBytes_split (n : nat) (s : string) :
  (n <= String.length s)%nat -> exists a, s = a +:+ dropBytes n s.
Proof.
  revert s. induction n as [|n IH]; intros s Hn; [now exists EmptyString |].
  destruct s as [|c s]; [cbn in Hn; lia |].
  destruct (IH s ltac:(cbn in Hn; lia)) as [a Ha].
  exists (String c a). cbn. now rewrite <- Ha.
Qed.

Lemma HasSuffix_inv (s suffix : string) :
  strings_HasSuffix s suffix = true -> exists a, s = a +:+ suffix.
Proof.
  unfold strings_HasSuffix. intros H. apply andb_true_iff in H as [Hlen Heq].
  apply Nat.leb_le in Hlen. apply String.eqb_eq in Heq.
  destruct (dropBytes_split (String.length s - String.length suffix) s ltac:(lia)) as [a Ha].
  exists a. now rewrite Heq in Ha.
Qed.

Lemma strings_ToLower_split (p a b : string) :
  strings_ToLower p = a +:+ b ->
  exists x y, p = x +:+ y /\ strings_ToLower x = a /\ strings_ToLower y = b.
Proof.
  revert p. induction a as [|c a IH]; intros p H.
  - now exists EmptyString, p.
  - destruct p as [|d p]; [discriminate |]. cbn in H. inversion H as [[Hd Hp]].
    destruct (IH p Hp) as (x & y & -> & Hx & Hy).
    exists (String d x), y. cbn. now rewrite Hx.
Qed.

(** The name ends in [.png], in letters of either case. *)
Lemma HasSuffix_png (path : string) :
  strings_HasSuffix (strings_ToLower path) ".png" = true
  <-> exists stem ext, path = stem +:+ ext /\ strings_ToLower ext = ".png".
Proof.
  split.
  - intros H. apply HasSuffix_inv in H as [a Ha].
    destruct (strings_ToLower_split path a ".png" Ha) as (x & y & Hp & _ & Hy).
    now exists x, y.
  - intros (stem & ext & -> & Hext).
    rewrite strings_ToLower_app, Hext. apply HasSuffix_app.
Qed.

(** X14.  When the directory can be made and the file written, [saveImage]
    puts the picture at the path, over whatever was there, and touches no
    other file; it is encoded as PNG exactly when the path ends in [.png] in
    letters of either case, the quality asked for being ignored then, and as
    JPEG of that quality for every other path. *)
Theorem saveImage_encoder (E : Env) (img : Image) (path : string) (quality : Z) (w : World) :
  disk E path = Saved ->
  exists enc w',
    saveImage E img path quality w = Some (None, w')
    /\ files w' = <[path := Encoded enc img]> (files w)
    /\ thumbnailCache w' = thumbnailCache w
    /\ (enc = PNG <->
        exists stem ext, path = stem +:+ ext /\ strings_ToLower ext = ".png")
    /\ (enc = PNG \/ enc = JPEG quality).
Proof.
  intros Hdisk. unfold saveImage, bind, emit, setFiles, ret. rewrite Hdisk.
  cbn [files thumbnailCache].
  destruct (strings_HasSuffix (strings_ToLower path) ".png") eqn:Hs.
  - exists PNG. eexists. split; [reflexivity |]. cbn [files thumbnailCache].
    repeat split; auto. intros _. now apply HasSuffix_png.
  - exists (JPEG quality). eexists. split; [reflexivity |]. cbn [files thumbnailCache].
    repeat split; auto; [discriminate |].
    intros H. apply HasSuffix_png in H. congruence.
Qed.

(** X14, at an instance: a name that ends in capitals. *)
Lemma saveImage_encoder_witness :
  exists enc w',
    saveImage exampleEnv examplePicture "/tmp/cover.PNG" 85 freshWorld = Some (None, w')
    /\ files w' = <["/tmp/cover.PNG" := Encoded enc examplePicture]> (files freshWorld)
    /\ thumbnailCache w' = thumbnailCache freshWorld
    /\ (enc = PNG <->
        exists stem ext, "/tmp/cover.PNG" = stem +:+ ext /\ strings_ToLower ext = ".png")
    /\ (enc = PNG \/ enc = JPEG 85).
Proof.
  apply (saveImage_encoder exampleEnv examplePicture "/tmp/cover.PNG" 85 freshWorld).
  reflexivity.
Defined.

(* ===================================================================== *)
(** ** [GenThumb] *)
(* ===================================================================== *)

(** The path of a track whose ID has no slash in it: the file named
    after the ID, in the cache directory. *)
Lemma cachePathOf_eq (t : Track) :
  hasByte "/" (track_ID t) = false ->
  cachePathOf t = "cache/" +:+ track_ID t +:+ ".png".
Proof.
  intros Hid. unfold cachePathOf, cacheDir. cbn [filepath_Join isEmpty strings_Join].
  assert (Hlen : forall s, String.eqb (track_ID t +:+ ".png") s = true ->
                           (4 <= String.length s)%nat).
  { intros s H. apply String.eqb_eq in H. rewrite <- H, append_length. cbn. lia. }
  rewrite filepath_Clean_snoc.
  - reflexivity.
  - discriminate.
  - rewrite hasByte_app, Hid. reflexivity.
  - now destruct (track_ID t).
  - destruct (String.eqb _ ".") eqn:H; [| reflexivity]. apply Hlen in H. cbn in H. lia.
  - destruct (String.eqb _ "..") eqn:H; [| reflexivity]. apply Hlen in H. cbn in H. lia.
Qed.

Lemma cachePathOf_not_empty (t : Track) : cachePathOf t <> EmptyString.
Proof.
  unfold cachePathOf, cacheDir. cbn [filepath_Join isEmpty].
  apply filepath_Clean_not_empty.
Qed.

(** The step of [GenThumb] after a miss, when the artwork decodes. *)
Lemma GenThumb_decoded (E : Env) (St : Studio) (t : Track) (src : Image) (s : CacheDir) :
  track_Artwork t <> EmptyString ->
  cached s !! cachePathOf t = None ->
  artworkDecodes E St t src ->
  GenThumb E St (Some t) s
  = if os_Create_ok St (cachePathOf t)
    then (cachePathOf t,
          {| cached :=
               <[cachePathOf t :=
                   if png_Encode_ok St (cachePathOf t)
                   then PngOf (thumbCanvas src (track_Title t) "Vivek" (track_Duration t))
                   else Partial]> (cached s);
             happened := happened s ++ [EvHttpGet (CleanURL E (track_Artwork t))] |})
    else (EmptyString, noted s (EvHttpGet (CleanURL E (track_Artwork t)))).
Proof.
  intros Hart Hmiss (resp & data & Hget & Hst & Hbody & Hdec).
  unfold GenThumb. fold (cachePathOf t).
  apply isEmpty_false in Hart. rewrite Hart, Hmiss.
  rewrite bool_decide_eq_false_2 by (now intros [? ?]).
  rewrite Hget. apply Z.eqb_eq in Hst. rewrite Hst, Hbody. cbn [negb].
  destruct Hdec as [[Hct Hd] | [Hct Hd]]; rewrite Hct, Hd; reflexivity.
Qed.

(** What a call of [GenThumb] comes to: the empty path and no file touched,
    or the path of the track with a file there and no other file touched. *)
Lemma GenThumb_cases (E : Env) (St : Studio) (track : option Track) (s : CacheDir) :
  (fst (GenThumb E St track s) = EmptyString
   /\ cached (snd (GenThumb E St track s)) = cached s)
  \/ (exists t, track = Some t
                /\ track_Artwork t <> EmptyString
                /\ fst (GenThumb E St track s) = cachePathOf t
                /\ is_Some (cached (snd (GenThumb E St track s)) !! cachePathOf t)
                /\ forall q, q <> cachePathOf t ->
                     cached (snd (GenThumb E St track s)) !! q = cached s !! q).
Proof.
  destruct track as [t|]; [| now left].
  unfold GenThumb. fold (cachePathOf t).
  destruct (isEmpty (track_Artwork t)) eqn:Hart; [now left |].
  apply isEmpty_false in Hart.
  destruct (bool_decide (is_Some (cached s !! cachePathOf t))) eqn:Hhit.
  { right. exists t. apply bool_decide_eq_true in Hhit. now repeat split. }
  destruct (http_Get E _) as [resp|cause]; [| now left].
  destruct (negb _); [now left |].
  destruct (Body resp) as [data|]; [| now left].
  destruct (if String.eqb _ "image/jpeg" then _ else _) as [[src|]|]; try now left.
  destruct (os_Create_ok St (cachePathOf t)); [| now left].
  right. exists t. cbn [fst snd cached].
  repeat split; auto.
  - rewrite lookup_insert_eq. eauto.
  - intros q Hq. now rewrite lookup_insert_ne.
Qed.


(** X16.  The thumbnails of [GenThumb] are kept by the ID of the track
    alone, and for good: once a call has returned a path, every later call
    for a track of that ID with some artwork returns the same path and does
    nothing else, neither fetching nor writing, whatever the artwork, the
    title and the duration of the track are by then, and whatever the file
    holds. *)
Theorem GenThumb_by_ID (E : Env) (St : Studio) (t1 t2 : Track) (s s' : CacheDir)
  (p : string) :
  track_ID t1 = track_ID t2 ->
  track_Artwork t2 <> EmptyString ->
  GenThumb E St (Some t1) s = (p, s') ->
  p <> EmptyString ->
  GenThumb E St (Some t2) s' = (p, s').
Proof.
  intros Hid Hart Hfirst Hp.
  destruct (GenThumb_cases E St (Some t1) s) as [[Hempty _] | (t & Ht & _ & Hpath & Hfile & _)].
  - rewrite Hfirst in Hempty. cbn in Hempty. congruence.
  - inversion Ht; subst t. rewrite Hfirst in Hpath, Hfile. cbn [fst snd] in Hpath, Hfile.
    assert (Hsame : cachePathOf t2 = p)
      by (rewrite Hpath; unfold cachePathOf; now rewrite Hid).
    unfold GenThumb. fold (cachePathOf t2). rewrite Hsame.
    apply isEmpty_false in Hart. rewrite Hart.
    rewrite Hpath. now rewrite bool_decide_eq_true_2.
Qed.

(** X16, at an instance: a track whose thumbnail could not be written in
    full, asked for again with another artwork, title and duration. *)
Lemma GenThumb_by_ID_witness :
  GenThumb exampleEnv exampleStudio (Some (mkTrack "full" "http://img/404" "Other" 10))
    {| cached := {[ "cache/full.png" := Partial ]};
       happened := [EvHttpGet "http://img/ok"] |}
  = ("cache/full.png",
     {| cached := {[ "cache/full.png" := Partial ]};
        happened := [EvHttpGet "http://img/ok"] |}).
Proof.
  apply (GenThumb_by_ID exampleEnv exampleStudio
           (mkTrack "full" "http://img/ok" "Song" 225)
           (mkTrack "full" "http://img/404" "Other" 10) emptyCacheDir).
  - reflexivity.
  - discriminate.
  - vm_compute. reflexivity.
  - discriminate.
Defined.

(** X17.  On a miss, [GenThumb] returns a path exactly when the artwork can
    be fetched and decoded (status 200, a body that can be read, bytes found
    to be JPEG or PNG that the decoder of that format accepts) and the file
    can be created.  The file then holds a canvas of 1920 by 1080: the
    background, the bar over the lowest 400 rows, the artwork scaled to the
    square of 650 at (180, 220) whatever its proportions, and the texts
    [Playing], the title, the artist, who is always [Vivek], and the duration
    as a plain number of seconds.  An error of the encoder is dropped: the
    path is returned all the same, the unfinished file left at it. *)
Theorem GenThumb_draws (E : Env) (St : Studio) (t : Track) (s : CacheDir) :
  track_Artwork t <> EmptyString ->
  cached s !! cachePathOf t = None ->
  (fst (GenThumb E St (Some t) s) <> EmptyString
   <-> (exists src, artworkDecodes E St t src) /\ os_Create_ok St (cachePathOf t) = true)
  /\ forall src,
       artworkDecodes E St t src -> os_Create_ok St (cachePathOf t) = true ->
       GenThumb E St (Some t) s
       = (cachePathOf t,
          {| cached :=
               <[cachePathOf t :=
                   if png_Encode_ok St (cachePathOf t)
                   then PngOf
                          {| canvas_W := 1920; canvas_H := 1080;
                             canvas_layers :=
                               [ Uniform (mkRGBA 18 27 33 255) 0 0 1920 1080 Src;
                                 Uniform (mkRGBA 28 37 45 255) 0 680 1920 1080 Over;
                                 Scaled src 180 220 830 870;
                                 Label (mkRGBA 185 192 199 255) "Playing" 900 330;
                                 Label (mkRGBA 255 255 255 255) (track_Title t) 900 420;
                                 Label (mkRGBA 205 205 205 255) "Vivek" 900 550;
                                 Label (mkRGBA 180 180 180 255)
                                   ("Duration: " +:+ fmt_d (track_Duration t)) 900 650 ] |}
                   else Partial]> (cached s);
             happened := happened s ++ [EvHttpGet (CleanURL E (track_Artwork t))] |}).
Proof.
  intros Hart Hmiss. split.
  - split.
    + intros Hret. pose proof Hart as Hart'. apply isEmpty_false in Hart'.
      unfold GenThumb in Hret. fold (cachePathOf t) in Hret.
      rewrite Hart', Hmiss in Hret.
      rewrite bool_decide_eq_false_2 in Hret by (now intros [? ?]).
      destruct (http_Get E _) as [resp|cause] eqn:Hget; [| now cbn in Hret].
      destruct (StatusCode resp =? 200) eqn:Hst; [| now cbn in Hret].
      apply Z.eqb_eq in Hst. cbn [negb] in Hret.
      destruct (Body resp) as [data|] eqn:Hbody; [| now cbn in Hret].
      destruct (os_Create_ok St (cachePathOf t)) eqn:Hcreate.
      * split; [| reflexivity].
        destruct (String.eqb (http_DetectContentType St data) "image/jpeg") eqn:Hj.
        { apply String.eqb_eq in Hj.
          destruct (jpeg_Decode St data) as [src|] eqn:Hd; [| now cbn in Hret].
          exists src, resp, data. auto 10. }
        destruct (String.eqb (http_DetectContentType St data) "image/png") eqn:Hp;
          [| now cbn in Hret].
        apply String.eqb_eq in Hp.
        destruct (png_Decode St data) as [src|] eqn:Hd; [| now cbn in Hret].
        exists src, resp, data. auto 10.
      * exfalso. apply Hret.
        destruct (if String.eqb _ "image/jpeg" then _ else _) as [[src|]|]; reflexivity.
    + intros [[src Hdec] Hcreate].
      rewrite (GenThumb_decoded E St t src s Hart Hmiss Hdec), Hcreate.
      apply cachePathOf_not_empty.
  - intros src Hdec Hcreate.
    now rewrite (GenThumb_decoded E St t src s Hart Hmiss Hdec), Hcreate.
Qed.

(** X17, at an instance: the artwork of the examples, for a track of four
    minutes. *)
Lemma GenThumb_draws_witness :
  GenThumb exampleEnv exampleStudio (Some (mkTrack "abc" "http://img/ok" "Song" 240))
    emptyCacheDir
  = ("cache/abc.png",
     {| cached :=
          {[ "cache/abc.png" :=
               PngOf
                 {| canvas_W := 1920; canvas_H := 1080;
                    canvas_layers :=
                      [ Uniform (mkRGBA 18 27 33 255) 0 0 1920 1080 Src;
                        Uniform (mkRGBA 28 37 45 255) 0 680 1920 1080 Over;
                        Scaled examplePicture 180 220 830 870;
                        Label (mkRGBA 185 192 199 255) "Playing" 900 330;
                        Label (mkRGBA 255 255 255 255) "Song" 900 420;
                        Label (mkRGBA 205 205 205 255) "Vivek" 900 550;
                        Label (mkRGBA 180 180 180 255) "Duration: 240" 900 650 ] |} ]};
        happened := [EvHttpGet "http://img/ok"] |}).
Proof.
  apply (GenThumb_draws exampleEnv exampleStudio (mkTrack "abc" "http://img/ok" "Song" 240)
           emptyCacheDir).
  - discriminate.
  - reflexivity.
  - exists (mkResponse 200 "200 OK" (Some "JPEGDATA")), "JPEGDATA".
    repeat split. left. now split.
  - reflexivity.
Defined.

(* ===================================================================== *)
(** ** The warning of [loadFont] *)
(* ===================================================================== *)

(** X18.  [loadFont] changes nothing in the world but the log, to which it
    adds one line, before it tries the defaults, exactly when a font is
    configured whose file is there and does not load; a configured font whose
    file is missing is passed over in silence, and so is every default that
    fails. *)
Theorem loadFont_warns (E : Env) (dc : Context) (size : Q) (w : World) :
  exists r,
    loadFont E dc size w
    = Some (r, if customFontBroken E (files w) size
               then addEvents w [EvLog "Failed to load custom font %s: trying defaults"]
               else w).
Proof.
  rewrite loadFont_run. unfold customFontBroken, customFontUsable, usableFont.
  destruct (negb (isEmpty (config_ThumbnailFont E))); cbn [andb]; [| eauto].
  destruct (bool_decide (is_Some (files w !! config_ThumbnailFont E))); cbn [andb]; [| eauto].
  destruct (fontLoads E (config_ThumbnailFont E) size); cbn [negb]; eauto.
Qed.
